(** * sshpiper: the piping layer and the user-file credential resolver

    A shallow embedding of [ssh/sshpiper.go] (package [ssh]) and of
    [sshpiperd/sshpiperd.go] (package [main]).

    Go values are modelled as follows.
    - [string] is [string], [[]byte] is [list byte];
    - an [error] is [option error], [None] being Go's [nil];
    - a pointer result that the code tests against [nil] is an [option];
    - the two transports, the sockets under them and the callbacks of the
      piper are effects: they run in the monad [M] over a [World] that
      holds what each peer is going to send and the trace of what the
      piper did so far.  *)

From Stdlib Require Import List String Ascii Strings.Byte NArith Bool Arith Lia.
Import ListNotations.
Local Open Scope string_scope.
Local Open Scope list_scope.

Set Implicit Arguments.

(** ** Plain data *)

Definition bytes := list byte.

(** Go errors.  [parseError(tag)], [fmt.Errorf(format, args...)] and
    [errors.New(text)] are the ways the sources build one ([Errorf] keeps
    the format and its arguments apart, so that [fmt] needs no model);
    [IOError] stands for whatever a socket, a handshake, a file operation or
    the rest of package [ssh] reports. *)
Inductive error :=
| parseError (tag : byte)
| Errorf (format : string) (args : list string)
| errors_New (text : string)
| IOError (text : string).

Inductive result (A : Type) :=
| Ok (a : A)
| Err (e : error).
Arguments Ok {A} a.
Arguments Err {A} e.

(** Message numbers of RFC 4252 used by the sources. *)
Definition msgUserAuthRequest : byte := x32.
Definition msgUserAuthFailure : byte := x33.
Definition msgUserAuthSuccess : byte := x34.
Definition msgUserAuthPubKeyOk : byte := x3c.

Definition serviceUserAuth := "ssh-userauth".
Definition serviceSSH := "ssh-connection".

Record userAuthRequestMsg := {
  User : string;
  Service : string;
  Method : string;
  Payload : bytes
}.

Record userAuthFailureMsg := {
  Methods : list string;
  PartialSuccess : bool
}.

Record userAuthPubKeyOkMsg := {
  Algo : string;
  PubKey : bytes
}.

Record publickeyAuthMsg := {
  pk_User : string;
  pk_Service : string;
  pk_Method : string;
  HasSig : bool;
  Algoname : string;
  pk_PubKey : bytes;
  Sig : bytes
}.

Record Signature := {
  Format : string;
  Blob : bytes
}.

(** The [PublicKey] and [Signer] interfaces: a value of an interface is the
    record of its methods. *)
Record PublicKey := {
  pk_Type : string;
  pk_Marshal : bytes;
  pk_Verify : bytes -> Signature -> option error
}.

Record Signer := {
  signer_PublicKey : PublicKey;
  signer_Sign : bytes -> bytes -> result Signature
}.

(** Everything [Marshal] is applied to in the two files. *)
Inductive message :=
| MUserAuthRequest (m : userAuthRequestMsg)
| MUserAuthFailure (m : userAuthFailureMsg)
| MUserAuthPubKeyOk (m : userAuthPubKeyOkMsg)
| MPublickeyAuth (m : publickeyAuthMsg)
| MServiceRequest (service : string)
| MSignature (s : Signature)
| MUserAuthInfoRequest (user instruction : string)
    (questions : list string) (echos : list bool).

(** ** The rest of package [ssh]

    The transport, the codec and the key code of package [ssh] are used by
    the piping layer but are not part of it.  They are taken as an
    interface, so that every theorem below holds for any implementation of
    them; [Wire] further down gives one for the examples. *)
Class SSHLib := {
  isAcceptableAlgo : string -> bool;
  ParsePublicKey : bytes -> result PublicKey;
  (* [parseString(in) (out, rest, ok)]: [None] is [ok = false] *)
  parseString : bytes -> option (bytes * bytes);
  parseSignature : bytes -> option (Signature * bytes);
  buildDataSignedForAuth :
    bytes -> userAuthRequestMsg -> bytes -> bytes -> bytes;
  Marshal : message -> bytes;
  (* [Unmarshal(packet, &msg)] writes into an existing struct: it gets the
     old value and gives the new one together with the error. *)
  Unmarshal_userAuthRequest :
    bytes -> userAuthRequestMsg -> userAuthRequestMsg * option error;
  Unmarshal_serviceAccept : bytes -> option error;
  Unmarshal_userAuthInfoResponse : bytes -> result (list string);
  stringLength : nat -> nat;
  (* [marshalString(to, s)] fills the buffer [to] *)
  marshalString : bytes -> bytes -> bytes
}.

(** ** The world the piper runs in *)

Inductive side := Down | Up.

Definition side_eqb (a b : side) : bool :=
  match a, b with
  | Down, Down | Up, Up => true
  | _, _ => false
  end.

(** What the piper does, in the order it does it. *)
Inductive event :=
| EvRead (s : side) (r : result bytes)
| EvWrite (s : side) (p : bytes) (e : option error)
| EvClose (s : side)
| EvChallenge (ok : bool) (e : option error)
| EvFindUpstream (e : option error)
| EvVerify (key data : bytes) (sig : Signature) (e : option error)
| EvSign (key data : bytes)
| EvForwarding.

(** One transport, seen from the piper: the session identifier fixed by
    its key exchange, what [readPacket] is going to return, what the next
    calls of [writePacket] are going to report (none left: they succeed),
    whether its handshake fails, and the random source of its config. *)
Record transport := {
  getSessionID : bytes;
  rx : list (result bytes);
  tx : list (option error);
  handshake : option error;
  Rand : bytes
}.

(** [schedule] is the order in which the Go scheduler is going to run the
    two copiers of the forwarding loop (see [loop]). *)
Record World := {
  downstream : transport;
  upstream : transport;
  schedule : list side;
  trace : list event
}.

Definition EOF := IOError "EOF".

Definition side_of (s : side) (w : World) : transport :=
  match s with Down => downstream w | Up => upstream w end.

Definition set_side (s : side) (t : transport) (w : World) : World :=
  match s with
  | Down => {| downstream := t; upstream := upstream w;
               schedule := schedule w; trace := trace w |}
  | Up => {| downstream := downstream w; upstream := t;
             schedule := schedule w; trace := trace w |}
  end.

Definition log (e : event) (w : World) : World :=
  {| downstream := downstream w; upstream := upstream w;
     schedule := schedule w; trace := trace w ++ [e] |}.

(** ** The monad

    A computation ends with a value, with a Go panic, or because the fuel
    given to one of its loops ran out. *)
Inductive outcome (A : Type) :=
| Val (a : A)
| Panic (text : string)
| OutOfFuel.
Arguments Val {A} a.
Arguments Panic {A} text.
Arguments OutOfFuel {A}.

Definition M (A : Type) := World -> outcome A * World.

Definition ret {A} (a : A) : M A := fun w => (Val a, w).

Definition bind {A B} (m : M A) (k : A -> M B) : M B :=
  fun w =>
    match m w with
    | (Val a, w') => k a w'
    | (Panic t, w') => (Panic t, w')
    | (OutOfFuel, w') => (OutOfFuel, w')
    end.

Definition panic {A} (text : string) : M A := fun w => (Panic text, w).
Definition out_of_fuel {A} : M A := fun w => (OutOfFuel, w).

(** [defer fin; body]: [fin] runs when [body] returns and when it panics. *)
Definition defer {A} (fin : M unit) (body : M A) : M A :=
  fun w =>
    match body w with
    | (OutOfFuel, w') => (OutOfFuel, w')
    | (r, w') => (r, snd (fin w'))
    end.

Declare Scope go_scope.
Delimit Scope go_scope with go.
Notation "x <- m ;; k" := (bind m (fun x => k))
  (at level 61, m at next level, right associativity) : go_scope.
Notation "' p <- m ;; k" := (bind m (fun x => let 'p := x in k))
  (at level 61, p pattern, m at next level, right associativity) : go_scope.
Local Open Scope go_scope.

Definition emit (e : event) : M unit := fun w => (Val tt, log e w).

(** A callback does not touch the transports: it only has an outcome. *)
Definition call {A} (o : outcome A) : M A := fun w => (o, w).

(** [t.readPacket()] *)
Definition readPacket (s : side) : M (result bytes) :=
  fun w =>
    let t := side_of s w in
    match rx t with
    | [] => (Val (Err EOF), log (EvRead s (Err EOF)) w)
    | r :: rest =>
        let t' := {| getSessionID := getSessionID t; rx := rest; tx := tx t;
                     handshake := handshake t; Rand := Rand t |} in
        (Val r, log (EvRead s r) (set_side s t' w))
    end.

(** [t.writePacket(p)] *)
Definition writePacket (s : side) (p : bytes) : M (option error) :=
  fun w =>
    let t := side_of s w in
    match tx t with
    | [] => (Val None, log (EvWrite s p None) w)
    | e :: rest =>
        let t' := {| getSessionID := getSessionID t; rx := rx t; tx := rest;
                     handshake := handshake t; Rand := Rand t |} in
        (Val e, log (EvWrite s p e) (set_side s t' w))
    end.

(** [Close()] on the socket of one side. *)
Definition Close (s : side) : M unit := emit (EvClose s).

Definition sessionID_of (s : side) : M bytes :=
  fun w => (Val (getSessionID (side_of s w)), w).

Definition rand_of (s : side) : M bytes :=
  fun w => (Val (Rand (side_of s w)), w).

Definition handshake_of (s : side) : M (option error) :=
  fun w => (Val (handshake (side_of s w)), w).

(** [pubkey.Verify(data, sig)] and [signer.Sign(rand, data)], as calls the
    trace records. *)
Definition Verify (pubkey : PublicKey) (data : bytes) (sig : Signature)
  : M (option error) :=
  let e := pk_Verify pubkey data sig in
  _ <- emit (EvVerify (pk_Marshal pubkey) data sig e) ;;
  ret e.

Definition Sign (signer : Signer) (rand data : bytes) : M (result Signature) :=
  _ <- emit (EvSign (pk_Marshal (signer_PublicKey signer)) data) ;;
  ret (signer_Sign signer rand data).

(** ** Package [ssh]: [sshpiper.go] *)

(** What the callbacks get of the downstream ([ConnMetadata]). *)
Record ConnMetadata := {
  cm_User : string;
  cm_RemoteAddr : string;
  cm_SessionID : bytes
}.

Record netConn := {
  RemoteAddr : string
}.

(** The [AdditionalChallenge] callback can do one thing with the
    downstream: call the prompter it is given.  So a callback is the tree
    of its questions, each with what it does with the answers. *)
Inductive challenge :=
| Answer (ok : bool) (err : option error)
| Ask (user instruction : string) (questions : list string)
    (echos : list bool) (k : list string -> option error -> challenge).

Record SSHPiper := {
  AdditionalChallenge : option (ConnMetadata -> challenge);
  FindUpstream : ConnMetadata -> result netConn;
  MapPublicKey :
    ConnMetadata -> PublicKey -> outcome (option Signer * option error)
}.

(** Of a [pipedConn] the model keeps the downstream's metadata; the two
    transports are the two sides of the [World]. *)
Record pipedConn := {
  pc_downstream : ConnMetadata
}.

Definition isSome {A} (o : option A) : bool :=
  match o with Some _ => true | None => false end.

Definition noneAuthMsg (user : string) : userAuthRequestMsg :=
  {| User := user; Service := serviceSSH; Method := "none"; Payload := [] |}.

Section Piper.
Context {L : SSHLib}.

Definition parsePublicKeyMsg (userAuthReq : userAuthRequestMsg)
  : result (PublicKey * bool * option Signature) :=
  if negb (Method userAuthReq =? "publickey") then
    Err (Errorf "not a publickey auth msg" [])
  else
    match Payload userAuthReq with
    | [] => Err (parseError msgUserAuthRequest)
    | b0 :: payload =>
        let isQuery := Byte.eqb b0 x00 in
        match parseString payload with
        | None => Err (parseError msgUserAuthRequest)
        | Some (algoBytes, payload) =>
            let algo := string_of_list_byte algoBytes in
            if negb (isAcceptableAlgo algo) then
              Err (Errorf "ssh: algorithm %q not accepted" [algo])
            else
              match parseString payload with
              | None => Err (parseError msgUserAuthRequest)
              | Some (pubKeyData, payload) =>
                  match ParsePublicKey pubKeyData with
                  | Err err => Err err
                  | Ok pubKey =>
                      if isQuery then Ok (pubKey, isQuery, None)
                      else
                        match parseSignature payload with
                        | None => Err (parseError msgUserAuthRequest)
                        | Some (sig, payload) =>
                            if (0 <? List.length payload)%nat then
                              Err (parseError msgUserAuthRequest)
                            else Ok (pubKey, isQuery, Some sig)
                        end
                  end
              end
        end
    end.

(** Modelled from the spec: [validateKey] of package [ssh] is not among the
    sources.  Spec 4.4.1: the piper sends upstream a publickey request for
    the key with has-signature=false and reads the reply; a USERAUTH_PK_OK
    means accepted, a USERAUTH_FAILURE means not accepted.  (Any other
    reply is reported as an error here; [validAndAck] looks at the flag
    only.) *)
Definition validateKey (key : PublicKey) (user : string) (c : side)
  : M (bool * option error) :=
  let msg := {| pk_User := user; pk_Service := serviceSSH;
                pk_Method := "publickey"; HasSig := false;
                Algoname := pk_Type key; pk_PubKey := pk_Marshal key;
                Sig := [] |} in
  err <- writePacket c (Marshal (MPublickeyAuth msg)) ;;
  match err with
  | Some e => ret (false, Some e)
  | None =>
      r <- readPacket c ;;
      match r with
      | Err e => ret (false, Some e)
      | Ok (b :: _) =>
          if Byte.eqb b msgUserAuthPubKeyOk then ret (true, None)
          else if Byte.eqb b msgUserAuthFailure then ret (false, None)
          else ret (false, Some (IOError "ssh: unexpected message type"))
      | Ok [] => ret (false, Some (IOError "ssh: unexpected message type"))
      end
  end.

Definition validAndAck (pipe : pipedConn) (upKey downKey : PublicKey)
  : M (option userAuthRequestMsg * option error) :=
  let user := cm_User (pc_downstream pipe) in
  '(ok, err) <- validateKey upKey user Up ;;
  if (ok : bool) then
    let okMsg := {| Algo := pk_Type downKey; PubKey := pk_Marshal downKey |} in
    err <- writePacket Down (Marshal (MUserAuthPubKeyOk okMsg)) ;;
    match err with
    | Some e => ret (None, Some e)
    | None => ret (None, None)
    end
  else ret (Some (noneAuthMsg user), None).

(** [sig] is a pointer: [sig.Format] on [nil] panics. *)
Definition checkPublicKey (pipe : pipedConn) (msg : userAuthRequestMsg)
  (pubkey : PublicKey) (sig : option Signature) : M (bool * option error) :=
  match sig with
  | None => panic "nil pointer dereference"
  | Some sig =>
      if negb (isAcceptableAlgo (Format sig)) then ret (false, None)
      else
        sid <- sessionID_of Down ;;
        let signedData :=
          buildDataSignedForAuth sid msg
            (list_byte_of_string (pk_Type pubkey)) (pk_Marshal pubkey) in
        err <- Verify pubkey signedData sig ;;
        match err with
        | Some _ => ret (false, None)
        | None => ret (true, None)
        end
  end.

Definition signAgain (pipe : pipedConn) (msg : userAuthRequestMsg)
  (signer : Signer) (downKey : PublicKey)
  : M (option userAuthRequestMsg * option error) :=
  let user := cm_User (pc_downstream pipe) in
  rand <- rand_of Up ;;
  session <- sessionID_of Up ;;
  let upKey := signer_PublicKey signer in
  let upKeyData := pk_Marshal upKey in
  r <- Sign signer rand
         (buildDataSignedForAuth session
            {| User := user; Service := serviceSSH; Method := "publickey";
               Payload := [] |}
            (list_byte_of_string (pk_Type upKey)) upKeyData) ;;
  match r with
  | Err err => ret (None, Some err)
  | Ok sign =>
      (* manually wrap the serialized signature in a string *)
      let s := Marshal (MSignature sign) in
      let sig := marshalString (repeat x00 (stringLength (List.length s))) s in
      let pubkeyMsg := {| pk_User := user; pk_Service := serviceSSH;
                          pk_Method := "publickey"; HasSig := true;
                          Algoname := pk_Type upKey; pk_PubKey := upKeyData;
                          Sig := sig |} in
      let msg := fst (Unmarshal_userAuthRequest
                        (Marshal (MPublickeyAuth pubkeyMsg)) msg) in
      ret (Some msg, None)
  end.

(** The closure [p.processAuthMsg] of [Serve].  In its last branch
    [ok, err := p.checkPublicKey(...)] declares a second [err], which is
    the one [msg, err = p.signAgain(...)] assigns; the test after the
    [if]/[else] reads the first one. *)
Definition processAuthMsg (piper : SSHPiper) (p : pipedConn)
  (msg : userAuthRequestMsg) : M (option userAuthRequestMsg * option error) :=
  (* only public msg need *)
  if negb (Method msg =? "publickey") then ret (Some msg, None)
  else
    let user := User msg in
    match parsePublicKeyMsg msg with
    | Err err => ret (None, Some err)
    | Ok (downKey, isQuery, sig) =>
        '(signer, err) <- call (MapPublicKey piper (pc_downstream p) downKey) ;;
        (* no mapped user change it to none or error occur *)
        match signer with
        | None => ret (Some (noneAuthMsg user), None)
        | Some signer =>
            if isSome err then ret (Some (noneAuthMsg user), None)
            else
              let upKey := signer_PublicKey signer in
              let finish (msg : option userAuthRequestMsg)
                         (err : option error) :=
                match err with
                | Some e => ret (None, Some e)
                | None => ret (msg, None)
                end in
              if (isQuery : bool) then
                (* reply for query msg *)
                '(msg, err) <- validAndAck p upKey downKey ;;
                finish msg err
              else
                '(ok, err') <- checkPublicKey p msg downKey sig ;;
                match err' with
                | Some e => ret (None, Some e)
                | None =>
                    if negb ok then ret (Some (noneAuthMsg user), None)
                    else
                      '(msg, err') <- signAgain p msg signer downKey ;;
                      finish msg err
                end
        end
    end.

Definition sendAuthReq : M (option error) :=
  err <- writePacket Up (Marshal (MServiceRequest serviceUserAuth)) ;;
  match err with
  | Some e => ret (Some e)
  | None =>
      r <- readPacket Up ;;
      match r with
      | Err e => ret (Some e)
      | Ok packet => ret (Unmarshal_serviceAccept packet)
      end
  end.

Definition zero_userAuthRequestMsg : userAuthRequestMsg :=
  {| User := ""; Service := ""; Method := ""; Payload := [] |}.

Definition nextAuthMsg : M (result userAuthRequestMsg) :=
  r <- readPacket Down ;;
  match r with
  | Err e => ret (Err e)
  | Ok packet =>
      let '(userAuthReq, err) :=
        Unmarshal_userAuthRequest packet zero_userAuthRequestMsg in
      match err with
      | Some e => ret (Err e)
      | None =>
          if negb (Service userAuthReq =? serviceSSH) then
            ret (Err (errors_New
                        ("ssh: client attempted to negotiate for unknown service: "
                           ++ Service userAuthReq)))
          else ret (Ok userAuthReq)
      end
  end.

(** One turn of the [for] of [pipeAuth]: it leaves the function with an
    error or [nil], or goes round with the next request of the downstream. *)
Inductive turn :=
| Return (err : option error)
| Continue (userAuthMsg : userAuthRequestMsg).

(** The tail of the [for]: read the next request of the downstream. *)
Definition pipeAuth_next : M turn :=
  r <- nextAuthMsg ;;
  match r with
  | Err e => ret (Return (Some e))
  | Ok userAuthMsg => ret (Continue userAuthMsg)
  end.

Definition pipeAuth_turn (processAuthMsg :
    userAuthRequestMsg -> M (option userAuthRequestMsg * option error))
  (userAuthMsg : userAuthRequestMsg) : M turn :=
  (* hook msg *)
  '(userAuthMsg, err) <- processAuthMsg userAuthMsg ;;
  match err with
  | Some e => ret (Return (Some e))
  | None =>
      (* nil for ignore *)
      match userAuthMsg with
      | None => pipeAuth_next
      | Some userAuthMsg =>
          err <- writePacket Up (Marshal (MUserAuthRequest userAuthMsg)) ;;
          match err with
          | Some e => ret (Return (Some e))
          | None =>
              r <- readPacket Up ;;
              match r with
              | Err e => ret (Return (Some e))
              | Ok [] => panic "index out of range"
              | Ok ((b0 :: _) as packet) =>
                  let success := Byte.eqb b0 msgUserAuthSuccess in
                  err <- writePacket Down packet ;;
                  match err with
                  | Some e => ret (Return (Some e))
                  | None =>
                      if success then ret (Return None) else pipeAuth_next
                  end
              end
          end
      end
  end.

Fixpoint pipeAuth_for (fuel : nat) (processAuthMsg :
    userAuthRequestMsg -> M (option userAuthRequestMsg * option error))
  (userAuthMsg : userAuthRequestMsg) : M (option error) :=
  match fuel with
  | O => out_of_fuel
  | S fuel =>
      t <- pipeAuth_turn processAuthMsg userAuthMsg ;;
      match t with
      | Return err => ret err
      | Continue userAuthMsg => pipeAuth_for fuel processAuthMsg userAuthMsg
      end
  end.

Definition pipeAuth (fuel : nat) (processAuthMsg :
    userAuthRequestMsg -> M (option userAuthRequestMsg * option error))
  (initUserAuthMsg : userAuthRequestMsg) : M (option error) :=
  err <- sendAuthReq ;;
  match err with
  | Some e => ret (Some e)
  | None => pipeAuth_for fuel processAuthMsg initUserAuthMsg
  end.

(** [pipe.Close()] *)
Definition pipe_Close : M unit :=
  _ <- Close Up ;; Close Down.

(** [piping(dst, src)], run on its own. *)
Fixpoint piping (fuel : nat) (dst src : side) : M error :=
  match fuel with
  | O => out_of_fuel
  | S fuel =>
      r <- readPacket src ;;
      match r with
      | Err err => ret err
      | Ok p =>
          err <- writePacket dst p ;;
          match err with
          | Some err => ret err
          | None => piping fuel dst src
          end
      end
  end.

(** The forwarding loop runs [piping] twice, concurrently, and returns what
    the first of the two to end sends on the channel.  Here the two are
    run one step at a time (a read or a write), the copier that reads
    [hd Down schedule] moving next, up to the first error; a copier that is
    always scheduled is [piping] (see [forward_alone]). *)
Inductive copier :=
| Reading
| Writing (p : bytes).

Definition piping_step (dst src : side) (c : copier) : M (copier + error) :=
  match c with
  | Reading =>
      r <- readPacket src ;;
      match r with
      | Err e => ret (inr e)
      | Ok p => ret (inl (Writing p))
      end
  | Writing p =>
      err <- writePacket dst p ;;
      match err with
      | Some e => ret (inr e)
      | None => ret (inl Reading)
      end
  end.

Definition next_scheduled : M side :=
  fun w =>
    (Val (hd Down (schedule w)),
     {| downstream := downstream w; upstream := upstream w;
        schedule := tl (schedule w); trace := trace w |}).

Fixpoint forward (fuel : nat) (fromDown fromUp : copier) : M error :=
  match fuel with
  | O => out_of_fuel
  | S fuel =>
      src <- next_scheduled ;;
      match src with
      | Down =>
          r <- piping_step Up Down fromDown ;;
          match r with
          | inr e => ret e
          | inl c => forward fuel c fromUp
          end
      | Up =>
          r <- piping_step Down Up fromUp ;;
          match r with
          | inr e => ret e
          | inl c => forward fuel fromDown c
          end
      end
  end.

Definition loop (fuel : nat) : M (option error) :=
  _ <- emit EvForwarding ;;
  defer pipe_Close
    (* wait until either connection closed *)
    (e <- forward fuel Reading Reading ;; ret (Some e)).

Definition newDownstream (c : netConn) : M (result ConnMetadata) :=
  hs <- handshake_of Down ;;
  match hs with
  | Some err => _ <- Close Down ;; ret (Err err)
  | None =>
      sid <- sessionID_of Down ;;
      ret (Ok {| cm_User := ""; cm_RemoteAddr := RemoteAddr c;
                 cm_SessionID := sid |})
  end.

Definition newUpstream (c : netConn) (addr : string) : M (option error) :=
  hs <- handshake_of Up ;;
  match hs with
  | Some err => _ <- Close Up ;; ret (Some err)
  | None => ret None
  end.

(** Modelled from the spec: the prompter [sshClientKeyboardInteractive] of
    package [ssh] is not among the sources.  Spec 4.2: given prompts, it
    emits an INFO_REQUEST to the downstream and reads back an
    INFO_RESPONSE. *)
Definition Challenge (user instruction : string) (questions : list string)
  (echos : list bool) : M (list string * option error) :=
  err <- writePacket Down
           (Marshal (MUserAuthInfoRequest user instruction questions echos)) ;;
  match err with
  | Some e => ret ([], Some e)
  | None =>
      r <- readPacket Down ;;
      match r with
      | Err e => ret ([], Some e)
      | Ok packet =>
          match Unmarshal_userAuthInfoResponse packet with
          | Err e => ret ([], Some e)
          | Ok answers => ret (answers, None)
          end
      end
  end.

(** [piper.AdditionalChallenge(d, prompter.Challenge)] *)
Fixpoint call_AdditionalChallenge (c : challenge) : M (bool * option error) :=
  match c with
  | Answer ok err => _ <- emit (EvChallenge ok err) ;; ret (ok, err)
  | Ask user instruction questions echos k =>
      '(answers, err) <- Challenge user instruction questions echos ;;
      call_AdditionalChallenge (k answers err)
  end.

Definition call_FindUpstream (piper : SSHPiper) (d : ConnMetadata)
  : M (result netConn) :=
  let r := FindUpstream piper d in
  _ <- emit (EvFindUpstream (match r with Ok _ => None | Err e => Some e end)) ;;
  ret r.

(** The [for] of the additional challenge in [Serve]. *)
Fixpoint coerce (fuel : nat) : M (option error) :=
  match fuel with
  | O => out_of_fuel
  | S fuel =>
      err <- writePacket Down
               (Marshal (MUserAuthFailure
                           {| Methods := ["keyboard-interactive"];
                              PartialSuccess := false |})) ;;
      match err with
      | Some e => ret (Some e)
      | None =>
          r <- nextAuthMsg ;;
          match r with
          | Err e => ret (Some e)
          | Ok userAuthReq =>
              if Method userAuthReq =? "keyboard-interactive" then ret None
              else coerce fuel
          end
      end
  end.

Definition set_user (user : string) (d : ConnMetadata) : ConnMetadata :=
  {| cm_User := user; cm_RemoteAddr := cm_RemoteAddr d;
     cm_SessionID := cm_SessionID d |}.

(** The block [if piper.AdditionalChallenge != nil] of [Serve]. *)
Definition additional_challenge (fuel : nat) (piper : SSHPiper)
  (d : ConnMetadata) : M (option error) :=
  match AdditionalChallenge piper with
  | None => ret None
  | Some challenger =>
      err <- coerce fuel ;;
      match err with
      | Some e => ret (Some e)
      | None =>
          '(ok, err) <- call_AdditionalChallenge (challenger d) ;;
          match err with
          | Some e => ret (Some e)
          | None =>
              if negb ok then
                ret (Some (Errorf "additional challenge failed" []))
              else ret None
          end
      end
  end.

(** What follows [defer u.Close()] in [Serve]. *)
Definition Serve_piped (fuel : nat) (piper : SSHPiper) (d : ConnMetadata)
  (userAuthReq : userAuthRequestMsg) : M (option error) :=
  let p := {| pc_downstream := d |} in
  err <- pipeAuth fuel (processAuthMsg piper p) userAuthReq ;;
  match err with
  | Some e => ret (Some e)
  | None =>
      (* block until connection closed or errors occur *)
      loop fuel
  end.

Definition Serve (fuel : nat) (piper : SSHPiper) (conn : netConn)
  : M (option error) :=
  r <- newDownstream conn ;;
  match r with
  | Err err => ret (Some err)
  | Ok d =>
      defer (Close Down)
        (r <- nextAuthMsg ;;
         match r with
         | Err err => ret (Some err)
         | Ok userAuthReq =>
             let d := set_user (User userAuthReq) d in
             (* need additional challenge *)
             err <- additional_challenge fuel piper d ;;
             match err with
             | Some e => ret (Some e)
             | None =>
                 r <- call_FindUpstream piper d ;;
                 match r with
                 | Err err => ret (Some err)
                 | Ok upconn =>
                     let addr := RemoteAddr upconn in
                     err <- newUpstream upconn addr ;;
                     match err with
                     | Some e => ret (Some e)
                     | None =>
                         defer (Close Up)
                           (Serve_piped fuel piper d userAuthReq)
                     end
                 end
             end
         end)
  end.

End Piper.

(** ** Package [main]: [sshpiperd.go] *)

(** What [sshpiperd.go] asks of the operating system, of the Go library and
    of package [ssh].  A [File] is an open file; [os.FileMode] is a
    [uint32]. *)
Class OS := {
  File : Type;
  os_Open : string -> result File;
  File_Stat : File -> result N;
  ioutil_ReadFile : string -> result bytes;
  net_Dial : string -> string -> result netConn;
  strings_TrimSpace : string -> string;
  (* [ParseAuthorizedKey(in) (out, comment, options, rest, err)] *)
  ParseAuthorizedKey : bytes -> result (PublicKey * bytes);
  ParsePrivateKey : bytes -> result Signer;
  (* the flag [-w] *)
  WorkingDir : string
}.

Definition userFile := string.

Definition UserAuthorizedKeysFile : userFile := "authorized_keys".
Definition UserKeyFile : userFile := "id_rsa".
Definition UserUpstreamFile : userFile := "sshpiper_upstream".

(** [os.ModePerm = 0777] and [FileMode.Perm]; the octal [0400] of
    [check400] is 256. *)
Definition ModePerm : N := 511.
Definition mode0400 : N := 256.
Definition Perm (m : N) : N := N.land m ModePerm.

Fixpoint bytes_Equal (a b : bytes) : bool :=
  match a, b with
  | [], [] => true
  | x :: a, y :: b => Byte.eqb x y && bytes_Equal a b
  | _, _ => false
  end.

Section Sshpiperd.
Context {sys : OS}.

Definition userSpecFile (user file : string) : string :=
  WorkingDir ++ "/" ++ user ++ "/" ++ file.

Definition read (file : userFile) (user : string) : result bytes :=
  ioutil_ReadFile (userSpecFile user file).

Definition realPath (file : userFile) (user : string) : string :=
  userSpecFile user file.

(** return error if not 400, nil if 400 and no err occurs *)
Definition check400 (file : userFile) (user : string) : option error :=
  let filename := userSpecFile user file in
  match os_Open filename with
  | Err err => Some err
  | Ok f =>
      match File_Stat f with
      | Err err => Some err
      | Ok mode =>
          if negb (Perm mode =? mode0400)%N then
            Some (Errorf "%v's perm is too open, change it to 400" [filename])
          else None
      end
  end.

Definition findUpstreamFromUserfile (conn : ConnMetadata) : result netConn :=
  let user := cm_User conn in
  match check400 UserUpstreamFile user with
  | Some err => Err err
  | None =>
      match read UserUpstreamFile user with
      | Err err => Err err
      | Ok addr =>
          let saddr := strings_TrimSpace (string_of_list_byte addr) in
          match net_Dial "tcp" saddr with
          | Err err => Err err
          | Ok c => Ok c
          end
      end
  end.

(** The [for len(rest) > 0] of [mapPublicKeyFromUserfile]. *)
Fixpoint mapPublicKey_for (fuel : nat) (user : string) (keydata rest : bytes)
  : outcome (option Signer * option error) :=
  match rest with
  | [] => Val (None, None)
  | _ :: _ =>
      match fuel with
      | O => OutOfFuel
      | S fuel =>
          match ParseAuthorizedKey rest with
          | Err err => Val (None, Some err)
          | Ok (authedPubkey, rest) =>
              if bytes_Equal (pk_Marshal authedPubkey) keydata then
                match check400 UserKeyFile user with
                | Some err => Val (None, Some err)
                | None =>
                    match read UserKeyFile user with
                    | Err err => Val (None, Some err)
                    | Ok privateBytes =>
                        match ParsePrivateKey privateBytes with
                        | Err err => Val (None, Some err)
                        | Ok private => Val (Some private, None)
                        end
                    end
                end
              else mapPublicKey_for fuel user keydata rest
          end
      end
  end.

Definition mapPublicKeyFromUserfile (fuel : nat) (conn : ConnMetadata)
  (key : PublicKey) : outcome (option Signer * option error) :=
  let user := cm_User conn in
  match check400 UserAuthorizedKeysFile user with
  | Some err => Val (None, Some err)
  | None =>
      let keydata := pk_Marshal key in
      match read UserAuthorizedKeysFile user with
      | Err err => Val (None, Some err)
      | Ok rest => mapPublicKey_for fuel user keydata rest
      end
  end.

(** The piper [main] builds, without the challenger of the flag [-c]. *)
Definition piper_of_main (fuel : nat) : SSHPiper :=
  {| AdditionalChallenge := None;
     FindUpstream := findUpstreamFromUserfile;
     MapPublicKey := mapPublicKeyFromUserfile fuel |}.

End Sshpiperd.

(** ** An implementation of the interfaces, for the examples *)

(** Modelled from the spec: the codec, the key parser and the builder of
    the signed data of package [ssh] are not among the sources.  Spec 6
    asks for the wire format of RFC 4252, so [Wire] encodes messages as
    RFC 4251 and RFC 4252 lay them out (a [string] is a 32-bit big-endian
    length followed by the bytes).  Its keys are not cryptography: a key
    is its blob, and the signature of [data] under a key is the blob
    followed by [data].  No theorem depends on [Wire]; the sample sessions
    are run with it. *)
Module Wire.

Definition byte_of_N (n : N) : byte :=
  match Byte.of_N (n mod 256) with
  | Some b => b
  | None => x00
  end.

Definition uint32 (n : nat) : bytes :=
  let v := N.of_nat n in
  [byte_of_N (v / 16777216); byte_of_N (v / 65536); byte_of_N (v / 256);
   byte_of_N v].

Definition str (s : bytes) : bytes := uint32 (List.length s) ++ s.
Definition text (s : string) : bytes := str (list_byte_of_string s).
Definition flag (b : bool) : bytes := [if b then x01 else x00].

Definition parseUint32 (b : bytes) : option (nat * bytes) :=
  match b with
  | b3 :: b2 :: b1 :: b0 :: rest =>
      Some (N.to_nat (Byte.to_N b3 * 16777216 + Byte.to_N b2 * 65536
                      + Byte.to_N b1 * 256 + Byte.to_N b0), rest)
  | _ => None
  end.

Definition parseString (b : bytes) : option (bytes * bytes) :=
  match parseUint32 b with
  | None => None
  | Some (n, rest) =>
      if (List.length rest <? n)%nat then None
      else Some (firstn n rest, skipn n rest)
  end.

Definition join (l : list string) : string := String.concat "," l.

Fixpoint prompts (questions : list string) (echos : list bool) : bytes :=
  match questions, echos with
  | q :: questions, e :: echos => text q ++ flag e ++ prompts questions echos
  | _, _ => []
  end.

Definition Marshal (m : message) : bytes :=
  match m with
  | MUserAuthRequest m =>
      msgUserAuthRequest :: text (User m) ++ text (Service m)
        ++ text (Method m) ++ Payload m
  | MUserAuthFailure m =>
      msgUserAuthFailure :: text (join (Methods m)) ++ flag (PartialSuccess m)
  | MUserAuthPubKeyOk m =>
      msgUserAuthPubKeyOk :: text (Algo m) ++ str (PubKey m)
  | MPublickeyAuth m =>
      msgUserAuthRequest :: text (pk_User m) ++ text (pk_Service m)
        ++ text (pk_Method m) ++ flag (HasSig m) ++ text (Algoname m)
        ++ str (pk_PubKey m) ++ Sig m
  | MServiceRequest service => x05 :: text service
  | MSignature s => text (Format s) ++ str (Blob s)
  | MUserAuthInfoRequest user instruction questions echos =>
      x3c :: text user ++ text instruction ++ text ""
        ++ uint32 (List.length questions) ++ prompts questions echos
  end.

(** Fields are filled in order; a short packet leaves the later ones as
    they were. *)
Definition Unmarshal_userAuthRequest (packet : bytes)
  (old : userAuthRequestMsg) : userAuthRequestMsg * option error :=
  match packet with
  | [] => (old, Some (parseError msgUserAuthRequest))
  | b :: rest =>
      if negb (Byte.eqb b msgUserAuthRequest) then
        (old, Some (IOError "ssh: unexpected message type"))
      else
        match parseString rest with
        | None => (old, Some (parseError msgUserAuthRequest))
        | Some (u, rest) =>
            let m1 := {| User := string_of_list_byte u; Service := Service old;
                         Method := Method old; Payload := Payload old |} in
            match parseString rest with
            | None => (m1, Some (parseError msgUserAuthRequest))
            | Some (s, rest) =>
                let m2 := {| User := User m1;
                             Service := string_of_list_byte s;
                             Method := Method old; Payload := Payload old |} in
                match parseString rest with
                | None => (m2, Some (parseError msgUserAuthRequest))
                | Some (m, rest) =>
                    ({| User := User m1; Service := Service m2;
                        Method := string_of_list_byte m; Payload := rest |},
                     None)
                end
            end
        end
  end.

Definition Unmarshal_serviceAccept (packet : bytes) : option error :=
  match packet with
  | [] => Some (parseError x06)
  | b :: rest =>
      if negb (Byte.eqb b x06) then
        Some (IOError "ssh: unexpected message type")
      else
        match parseString rest with
        | None => Some (parseError x06)
        | Some (_, []) => None
        | Some (_, _ :: _) => Some (parseError x06)
        end
  end.

Fixpoint parseStrings (n : nat) (b : bytes) : option (list string) :=
  match n with
  | O => match b with [] => Some [] | _ :: _ => None end
  | S n =>
      match parseString b with
      | None => None
      | Some (s, rest) =>
          match parseStrings n rest with
          | None => None
          | Some l => Some (string_of_list_byte s :: l)
          end
      end
  end.

Definition Unmarshal_userAuthInfoResponse (packet : bytes)
  : result (list string) :=
  match packet with
  | [] => Err (parseError x3d)
  | b :: rest =>
      if negb (Byte.eqb b x3d) then
        Err (IOError "ssh: unexpected message type")
      else
        match parseUint32 rest with
        | None => Err (parseError x3d)
        | Some (n, rest) =>
            match parseStrings n rest with
            | None => Err (parseError x3d)
            | Some answers => Ok answers
            end
        end
  end.

Definition buildDataSignedForAuth (sessionId : bytes)
  (req : userAuthRequestMsg) (algo pubKey : bytes) : bytes :=
  str sessionId ++ msgUserAuthRequest :: text (User req)
    ++ text (Service req) ++ text (Method req) ++ flag true
    ++ str algo ++ str pubKey.

Definition acceptable : list string :=
  ["ssh-rsa"; "ssh-dss"; "ecdsa-sha2-nistp256"; "ecdsa-sha2-nistp384";
   "ecdsa-sha2-nistp521"; "ssh-ed25519"].

Definition isAcceptableAlgo (algo : string) : bool :=
  existsb (String.eqb algo) acceptable.

Definition key_of (algo : string) (blob : bytes) : PublicKey :=
  {| pk_Type := algo;
     pk_Marshal := blob;
     pk_Verify := fun data sig =>
       if bytes_Equal (Blob sig) (blob ++ data) then None
       else Some (IOError "ssh: signature did not verify") |}.

(** A key blob is the algorithm name, as a string, and key material. *)
Definition ParsePublicKey (blob : bytes) : result PublicKey :=
  match parseString blob with
  | None => Err (IOError "ssh: short read")
  | Some (algo, _) => Ok (key_of (string_of_list_byte algo) blob)
  end.

Definition parseSignature (b : bytes) : option (Signature * bytes) :=
  match parseString b with
  | None => None
  | Some (sigBytes, rest) =>
      match parseString sigBytes with
      | None => None
      | Some (format, body) =>
          match parseString body with
          | Some (blob, []) =>
              Some ({| Format := string_of_list_byte format; Blob := blob |},
                    rest)
          | _ => None
          end
      end
  end.

Definition stringLength (n : nat) : nat := 4 + n.

Definition marshalString (to s : bytes) : bytes :=
  let w := str s in
  firstn (List.length to) w ++ skipn (List.length w) to.

#[export] Instance lib : SSHLib :=
  Build_SSHLib isAcceptableAlgo ParsePublicKey parseString parseSignature
    buildDataSignedForAuth Marshal Unmarshal_userAuthRequest
    Unmarshal_serviceAccept Unmarshal_userAuthInfoResponse stringLength
    marshalString.

End Wire.

(** [Disk] is a file tree given as a list of paths, each with its mode and
    its bytes; every file in it can be opened and read. *)
Module Disk.

Definition files := list (string * (N * bytes)).

Fixpoint lookup (name : string) (fs : files) : option (N * bytes) :=
  match fs with
  | [] => None
  | (n, f) :: fs => if String.eqb n name then Some f else lookup name fs
  end.

Definition os_Open (fs : files) (name : string) : result (N * bytes) :=
  match lookup name fs with
  | Some f => Ok f
  | None => Err (IOError "no such file or directory")
  end.

Definition ReadFile (fs : files) (name : string) : result bytes :=
  match lookup name fs with
  | Some f => Ok (snd f)
  | None => Err (IOError "no such file or directory")
  end.

Definition is_space (c : ascii) : bool :=
  existsb (Ascii.eqb c) [" "%char; "009"%char; "010"%char; "013"%char].

Fixpoint trim_left (s : string) : string :=
  match s with
  | String c s' => if is_space c then trim_left s' else s
  | EmptyString => EmptyString
  end.

Fixpoint trim_right (s : string) : string :=
  match s with
  | String c s' =>
      match trim_right s' with
      | EmptyString => if is_space c then EmptyString else String c EmptyString
      | t => String c t
      end
  | EmptyString => EmptyString
  end.

Definition TrimSpace (s : string) : string := trim_right (trim_left s).

(** One key blob a line. *)
Fixpoint line (b : bytes) : bytes * bytes :=
  match b with
  | [] => ([], [])
  | c :: b' =>
      if Byte.eqb c x0a then ([], b')
      else let (l, rest) := line b' in (c :: l, rest)
  end.

Definition ParseAuthorizedKey (b : bytes) : result (PublicKey * bytes) :=
  let (l, rest) := line b in
  match Wire.ParsePublicKey l with
  | Ok key => Ok (key, rest)
  | Err _ => Err (IOError "ssh: no key found")
  end.

Definition signer_of (key : PublicKey) : Signer :=
  {| signer_PublicKey := key;
     signer_Sign := fun rand data =>
       Ok {| Format := pk_Type key; Blob := pk_Marshal key ++ data |} |}.

Definition ParsePrivateKey (b : bytes) : result Signer :=
  match Wire.ParsePublicKey b with
  | Ok key => Ok (signer_of key)
  | Err e => Err e
  end.

Definition os (fs : files) : OS :=
  Build_OS (os_Open fs) (fun f => Ok (fst f)) (ReadFile fs)
    (fun network addr => Ok {| RemoteAddr := addr |})
    TrimSpace ParseAuthorizedKey ParsePrivateKey "/var/sshpiper".

End Disk.

(** Sample sessions. *)
Module Sample.
Import Wire.

Definition ascii_bytes (s : string) : bytes := list_byte_of_string s.

Definition downBlob : bytes := text "ssh-rsa" ++ ascii_bytes "client".
Definition upBlob : bytes := text "ssh-rsa" ++ ascii_bytes "backend".
Definition downKey : PublicKey := key_of "ssh-rsa" downBlob.
Definition upKey : PublicKey := key_of "ssh-rsa" upBlob.
Definition signer : Signer := Disk.signer_of upKey.

(** A signer that cannot sign (an agent that went away, say). *)
Definition deadSigner : Signer :=
  {| signer_PublicKey := upKey;
     signer_Sign := fun rand data => Err (IOError "agent: failure") |}.

Definition request (method : string) (payload : bytes) : userAuthRequestMsg :=
  {| User := "alice"; Service := serviceSSH; Method := method;
     Payload := payload |}.

Definition sidDown : bytes := ascii_bytes "session-of-the-client".
Definition sidUp : bytes := ascii_bytes "session-of-the-backend".

Definition query : userAuthRequestMsg :=
  request "publickey" (flag false ++ text "ssh-rsa" ++ str downBlob).

Definition signature_over (blob data : bytes) : bytes :=
  str (text "ssh-rsa" ++ str (blob ++ data)).

(** The signed request a client holding [downKey] sends on the session
    [sidDown]. *)
Definition signed : userAuthRequestMsg :=
  request "publickey"
    (flag true ++ text "ssh-rsa" ++ str downBlob
       ++ signature_over downBlob
            (buildDataSignedForAuth sidDown (request "publickey" [])
               (ascii_bytes "ssh-rsa") downBlob)).



Definition empty : userAuthRequestMsg := request "publickey" [].

Definition packet (m : userAuthRequestMsg) : result bytes :=
  Ok (Marshal (MUserAuthRequest m)).

Definition serviceAccept : result bytes := Ok (x06 :: text serviceUserAuth).
Definition success : result bytes := Ok [msgUserAuthSuccess].
Definition failure : result bytes :=
  Ok (Marshal (MUserAuthFailure
                 {| Methods := ["publickey"]; PartialSuccess := false |})).
Definition pkOk : result bytes :=
  Ok (Marshal (MUserAuthPubKeyOk {| Algo := "ssh-rsa"; PubKey := upBlob |})).

Definition peer (sid : bytes) (packets : list (result bytes)) : transport :=
  {| getSessionID := sid; rx := packets; tx := []; handshake := None;
     Rand := [] |}.

(** A peer whose next [writePacket] fails. *)
Definition gone (sid : bytes) (packets : list (result bytes)) : transport :=
  {| getSessionID := sid; rx := packets; tx := [Some (IOError "broken pipe")];
     handshake := None; Rand := [] |}.

Definition world (down up : list (result bytes)) : World :=
  {| downstream := peer sidDown down; upstream := peer sidUp up;
     schedule := []; trace := [] |}.

Definition client : netConn := {| RemoteAddr := "192.0.2.7:50000" |}.
Definition backend : netConn := {| RemoteAddr := "198.51.100.1:22" |}.

Definition piper (s : option Signer) : SSHPiper :=
  {| AdditionalChallenge := None;
     FindUpstream := fun _ => Ok backend;
     MapPublicKey := fun _ _ => Val (s, None) |}.

Definition pipe : pipedConn :=
  {| pc_downstream := {| cm_User := "alice";
                         cm_RemoteAddr := RemoteAddr client;
                         cm_SessionID := sidDown |} |}.

(** A challenger asking one question and accepting one answer. *)
Definition otp (d : ConnMetadata) : challenge :=
  Ask (cm_User d) "one-time password" ["code: "] [false]
    (fun answers err =>
       match err, answers with
       | Some e, _ => Answer false (Some e)
       | None, [a] => Answer (String.eqb a "424242") None
       | None, _ => Answer false None
       end).

Definition challenged : SSHPiper :=
  {| AdditionalChallenge := Some otp;
     FindUpstream := fun _ => Ok backend;
     MapPublicKey := fun _ _ => Val (Some signer, None) |}.

Definition infoResponse (answer : string) : result bytes :=
  Ok (x3d :: uint32 1 ++ text answer).

(** The working directory of [alice], her files having the given mode. *)
Definition disk (mode : N) : Disk.files :=
  [("/var/sshpiper/alice/authorized_keys", (mode, downBlob ++ [x0a]));
   ("/var/sshpiper/alice/id_rsa", (mode, upBlob));
   ("/var/sshpiper/alice/sshpiper_upstream",
    (mode, ascii_bytes "198.51.100.1:22" ++ [x0a]))].

End Sample.

(** ** Vocabulary of the statements *)

Definition with_sessionID (s : side) (sid : bytes) (w : World) : World :=
  let t := side_of s w in
  set_side s {| getSessionID := sid; rx := rx t; tx := tx t;
                handshake := handshake t; Rand := Rand t |} w.

Definition sessions (w : World) : bytes * bytes :=
  (getSessionID (downstream w), getSessionID (upstream w)).

(** What the peers have sent and the piper has not read yet. *)
Definition unread (s : side) (w : World) : nat := List.length (rx (side_of s w)).

(** From [w] to [w'] the session identifiers are the same and nothing was
    added to what is to be read. *)
Definition steady (w w' : World) : Prop :=
  sessions w' = sessions w /\
  unread Down w' <= unread Down w /\
  unread Up w' <= unread Up w.

(** How often [Close] was called on the socket of a side. *)
Fixpoint closes (s : side) (tr : list event) : nat :=
  match tr with
  | [] => 0
  | EvClose s' :: tr => (if side_eqb s s' then 1 else 0) + closes s tr
  | _ :: tr => closes s tr
  end.

Definition is_forwarding (e : event) : bool :=
  match e with EvForwarding => true | _ => false end.

(** [FindUpstream] gave a connection: the upstream socket exists. *)
Definition is_dialed (e : event) : bool :=
  match e with EvFindUpstream None => true | _ => false end.

Definition is_FindUpstream (e : event) : bool :=
  match e with EvFindUpstream _ => true | _ => false end.

Definition is_close (e : event) : bool :=
  match e with EvClose _ => true | _ => false end.

Definition is_challenge (e : event) : bool :=
  match e with EvChallenge _ _ => true | _ => false end.

(** Anything that concerns the upstream: the call of [FindUpstream] and
    whatever is done with its transport or socket. *)
Definition on_upstream (e : event) : bool :=
  match e with
  | EvFindUpstream _ | EvRead Up _ | EvWrite Up _ _ | EvClose Up
  | EvSign _ _ | EvForwarding => true
  | _ => false
  end.

Definition is_write_up (e : event) : bool :=
  match e with EvWrite Up _ _ => true | _ => false end.

(** Reading from or writing to the downstream. *)
Definition down_io (e : event) : bool :=
  match e with EvRead Down _ | EvWrite Down _ _ => true | _ => false end.

(** What the authentication phase may do. *)
Definition auth_io (e : event) : bool :=
  match e with
  | EvRead _ _ | EvWrite _ _ _ | EvVerify _ _ _ _ | EvSign _ _ => true
  | _ => false
  end.

(** A verification or a signature. *)
Definition is_crypto (e : event) : bool :=
  match e with EvVerify _ _ _ _ | EvSign _ _ => true | _ => false end.

Definition packet_io (e : event) : bool :=
  match e with EvRead _ _ | EvWrite _ _ _ => true | _ => false end.

Definition isNone {A} (o : option A) : bool := negb (isSome o).

(** A copier holding a packet it has read and not written yet. *)
Definition holding (c : copier) : nat :=
  match c with Writing _ => 1 | Reading => 0 end.

(** [m] does not run out of fuel in a world where at most [n] packets are
    still to be read. *)
Definition returns {A} (n : nat) (m : M A) : Prop :=
  forall w, unread Down w + unread Up w <= n -> fst (m w) <> OutOfFuel.

(** What the gate of the additional challenge may do. *)
Definition gate_io (e : event) : bool := down_io e || is_challenge e.

(** A stretch of trace in which no socket is closed, no upstream is
    obtained and the forwarding does not start. *)
Definition quiet (tr : list event) : Prop :=
  closes Down tr = 0 /\ closes Up tr = 0 /\
  existsb is_forwarding tr = false /\ existsb is_dialed tr = false.

Section Vocabulary.
Context {L : SSHLib}.

(** A computation adds to the trace, events that all satisfy [Q] (which
    may refer to the two session identifiers), and leaves the world
    [steady]. *)
Definition emits {A} (Q : bytes * bytes -> event -> Prop) (m : M A) : Prop :=
  forall w,
    steady w (snd (m w)) /\
    exists tr, trace (snd (m w)) = trace w ++ tr /\ Forall (Q (sessions w)) tr.

(** The blob of a verification is built with the first identifier, the
    blob of a signature with the second. *)
Definition bound_to (sids : bytes * bytes) (e : event) : Prop :=
  match e with
  | EvVerify key data _ _ =>
      exists msg algo,
        data = buildDataSignedForAuth (fst sids) msg algo key
  | EvSign key data =>
      exists msg algo,
        data = buildDataSignedForAuth (snd sids) msg algo key
  | _ => True
  end.

(** The events of the authentication phase, each verification and each
    signature bound to the session identifier of its side. *)
Definition authQ (sids : bytes * bytes) (e : event) : Prop :=
  auth_io e = true /\ bound_to sids e.

(** What [nextAuthMsg] makes of a packet. *)
Definition decode (packet : bytes) : result userAuthRequestMsg :=
  let '(userAuthReq, err) :=
    Unmarshal_userAuthRequest packet zero_userAuthRequestMsg in
  match err with
  | Some e => Err e
  | None =>
      if negb (Service userAuthReq =? serviceSSH) then
        Err (errors_New
               ("ssh: client attempted to negotiate for unknown service: "
                  ++ Service userAuthReq))
      else Ok userAuthReq
  end.

Definition failureKI : bytes :=
  Marshal (MUserAuthFailure {| Methods := ["keyboard-interactive"];
                               PartialSuccess := false |}).

(** The exchanges of the coercion loop and how it ends: each round is a
    USERAUTH_FAILURE naming keyboard-interactive alone, then a read; the
    loop goes on while what is read is a request of another method. *)
Inductive coerced : list event -> option error -> Prop :=
| coerced_write_fails e :
    coerced [EvWrite Down failureKI (Some e)] (Some e)
| coerced_read_fails e :
    coerced [EvWrite Down failureKI None; EvRead Down (Err e)] (Some e)
| coerced_bad_packet p e :
    decode p = Err e ->
    coerced [EvWrite Down failureKI None; EvRead Down (Ok p)] (Some e)
| coerced_done p req :
    decode p = Ok req ->
    Method req = "keyboard-interactive" ->
    coerced [EvWrite Down failureKI None; EvRead Down (Ok p)] None
| coerced_again p req tr r :
    decode p = Ok req ->
    Method req <> "keyboard-interactive" ->
    coerced tr r ->
    coerced (EvWrite Down failureKI None :: EvRead Down (Ok p) :: tr) r.

(** [turns proc n msg w msg' w']: from the request [msg] in the world [w],
    the loop of [pipeAuth] goes round [n] times and is then at the request
    [msg'] in the world [w']. *)
Inductive turns
  (proc : userAuthRequestMsg -> M (option userAuthRequestMsg * option error))
  : nat -> userAuthRequestMsg -> World -> userAuthRequestMsg -> World -> Prop :=
| turns_here msg w : turns proc 0 msg w msg w
| turns_next n msg w msg1 w1 msg' w' :
    pipeAuth_turn proc msg w = (Val (Continue msg1), w1) ->
    turns proc n msg1 w1 msg' w' ->
    turns proc (S n) msg w msg' w'.

(** [Serve] gets as far as the loop of [pipeAuth]: both handshakes, the
    first request, the additional challenge if there is one, the upstream
    and the service request went well. *)
Definition reaches_pipeAuth (fuel : nat) (piper : SSHPiper) (conn : netConn)
  (w : World) (d : ConnMetadata) (userAuthReq : userAuthRequestMsg)
  (w' : World) : Prop :=
  exists d0 w1 w2 w3 upconn w4 w5,
    newDownstream conn w = (Val (Ok d0), w1) /\
    nextAuthMsg w1 = (Val (Ok userAuthReq), w2) /\
    d = set_user (User userAuthReq) d0 /\
    additional_challenge fuel piper d w2 = (Val None, w3) /\
    call_FindUpstream piper d w3 = (Val (Ok upconn), w4) /\
    newUpstream upconn (RemoteAddr upconn) w4 = (Val None, w5) /\
    sendAuthReq w5 = (Val None, w').

(** [Serve] gets as far as calling [FindUpstream]. *)
Definition reaches_FindUpstream (fuel : nat) (piper : SSHPiper) (conn : netConn)
  (w : World) (d : ConnMetadata) (w' : World) : Prop :=
  exists d0 w1 userAuthReq w2,
    newDownstream conn w = (Val (Ok d0), w1) /\
    nextAuthMsg w1 = (Val (Ok userAuthReq), w2) /\
    d = set_user (User userAuthReq) d0 /\
    additional_challenge fuel piper d w2 = (Val None, w').

(** What [Serve] makes of the answer of the challenger. *)
Definition verdict (ok : bool) (err : option error) : option error :=
  match err with
  | Some e => Some e
  | None => if ok then None else Some (Errorf "additional challenge failed" [])
  end.

(** The additional challenge as a gate: what it adds to the trace, and the
    error it stops the session with ([None]: the session goes on).  With a
    challenger, the gate is the coercion loop, then the questions of the
    challenger, then its answer. *)
Inductive gate (piper : SSHPiper) : option error -> list event -> Prop :=
| gate_absent :
    AdditionalChallenge piper = None -> gate piper None []
| gate_not_coerced tr e :
    AdditionalChallenge piper <> None ->
    coerced tr (Some e) ->
    gate piper (Some e) tr
| gate_answered trc trq ok err :
    AdditionalChallenge piper <> None ->
    coerced trc None ->
    Forall (fun e => down_io e = true) trq ->
    gate piper (verdict ok err) (trc ++ trq ++ [EvChallenge ok err]).

(** The traces of [Serve], by the place it returns from, with its
    result. *)
Inductive session (piper : SSHPiper)
  : outcome (option error) -> list event -> Prop :=
| session_no_handshake e :
    session piper (Val (Some e)) [EvClose Down]
| session_no_request r e :
    match r with Err e' => e' = e | Ok p => decode p = Err e end ->
    session piper (Val (Some e)) [EvRead Down r; EvClose Down]
| session_gate_shut p trg e :
    gate piper (Some e) trg ->
    session piper (Val (Some e)) (EvRead Down (Ok p) :: trg ++ [EvClose Down])
| session_no_upstream p trg e :
    gate piper None trg ->
    session piper (Val (Some e))
      (EvRead Down (Ok p) :: trg ++ [EvFindUpstream (Some e); EvClose Down])
| session_no_upstream_handshake p trg e :
    gate piper None trg ->
    session piper (Val (Some e))
      (EvRead Down (Ok p) :: trg
         ++ [EvFindUpstream None; EvClose Up; EvClose Down])
| session_not_authenticated p trg tra r :
    gate piper None trg ->
    Forall (fun e => auth_io e = true) tra ->
    r <> Val None ->
    session piper r
      (EvRead Down (Ok p) :: trg ++ EvFindUpstream None :: tra
         ++ [EvClose Up; EvClose Down])
| session_forwarded p trg tra trf r :
    gate piper None trg ->
    Forall (fun e => auth_io e = true) tra ->
    Forall (fun e => packet_io e = true) trf ->
    session piper r
      (EvRead Down (Ok p) :: trg ++ EvFindUpstream None :: tra
         ++ EvForwarding :: trf
         ++ [EvClose Up; EvClose Down; EvClose Up; EvClose Down]).

(** Both sockets closed, the upstream first: what the two [defer]s of
    [Serve] do. *)
Definition closed_both (w : World) : World :=
  log (EvClose Down) (log (EvClose Up) w).

End Vocabulary.

(** ** Vocabulary of the statements about relaying and about the key files *)

Definition is_sign (e : event) : bool :=
  match e with EvSign _ _ => true | _ => false end.

(** The packets read from a side, in the order they were read. *)
Fixpoint reads (s : side) (tr : list event) : list bytes :=
  match tr with
  | [] => []
  | EvRead s' (Ok p) :: tr =>
      if side_eqb s s' then p :: reads s tr else reads s tr
  | _ :: tr => reads s tr
  end.

(** The packets [writePacket] was called with on a side, in order. *)
Fixpoint writes (s : side) (tr : list event) : list bytes :=
  match tr with
  | [] => []
  | EvWrite s' p _ :: tr =>
      if side_eqb s s' then p :: writes s tr else writes s tr
  | _ :: tr => writes s tr
  end.

(** The packet a copier has read and not written yet. *)
Definition pending (c : copier) : list bytes :=
  match c with Writing p => [p] | Reading => [] end.

(** Every event of [tr] that is marked has, in what comes before it in
    [tr], what [R] asks for. *)
Definition preceded (mark : event -> bool)
  (R : list event -> event -> Prop) (tr : list event) : Prop :=
  forall tr1 e tr2, tr = tr1 ++ e :: tr2 -> mark e = true -> R tr1 e.

(** A computation adds to the trace a stretch that satisfies [P]. *)
Definition adds {A} (P : list event -> Prop) (m : M A) : Prop :=
  forall w, exists tr, trace (snd (m w)) = trace w ++ tr /\ P tr.

(** The last thing that happened is a verification that went well, of a
    signature under a key that [MapPublicKey] maps to the signer whose key
    the event [e] signs with. *)
Definition verified_just_before (piper : SSHPiper) (tr1 : list event)
  (e : event) : Prop :=
  exists tr0 d downKey signer data sig data',
    tr1 = tr0 ++ [EvVerify (pk_Marshal downKey) data sig None] /\
    e = EvSign (pk_Marshal (signer_PublicKey signer)) data' /\
    MapPublicKey piper d downKey = Val (Some signer, None).

(** The last two things that happened: a USERAUTH_SUCCESS was read from
    the upstream and written, as it is, to the downstream. *)
Definition success_just_relayed (tr1 : list event) (e : event) : Prop :=
  exists tr0 rest,
    tr1 = tr0 ++ [EvRead Up (Ok (msgUserAuthSuccess :: rest));
                  EvWrite Down (msgUserAuthSuccess :: rest) None].

(** Something done with the upstream once there is one: anything of
    [on_upstream] but the call of [FindUpstream]. *)
Definition uses_upstream (e : event) : bool :=
  on_upstream e && negb (is_FindUpstream e).

Section Scan.
Context {sys : OS}.

(** [scanned keydata n rest rest']: the loop of [mapPublicKeyFromUserfile]
    goes round [n] times from [rest] and is then at [rest']: each of the
    [n] entries parsed, and none is the key [keydata]. *)
Inductive scanned (keydata : bytes) : nat -> bytes -> bytes -> Prop :=
| scanned_none rest : scanned keydata 0 rest rest
| scanned_next n rest authedPubkey rest1 rest' :
    rest <> [] ->
    ParseAuthorizedKey rest = Ok (authedPubkey, rest1) ->
    pk_Marshal authedPubkey <> keydata ->
    scanned keydata n rest1 rest' ->
    scanned keydata (S n) rest rest'.

(** The key [keydata] is an entry of the file [rest], and every entry
    before it parses. *)
Definition listed (keydata rest : bytes) : Prop :=
  exists n rest' authedPubkey rest'',
    scanned keydata n rest rest' /\
    rest' <> [] /\
    ParseAuthorizedKey rest' = Ok (authedPubkey, rest'') /\
    pk_Marshal authedPubkey = keydata.

(** What [mapPublicKeyFromUserfile] does once it found the key: the
    private key of the user, if its file is 0400, is read and parses. *)
Definition private_key (user : string) (private : Signer) : Prop :=
  check400 UserKeyFile user = None /\
  exists privateBytes,
    read UserKeyFile user = Ok privateBytes /\
    ParsePrivateKey privateBytes = Ok private.

(** What the loop does at an entry that is the key. *)
Definition found_key (user : string) : outcome (option Signer * option error) :=
  match check400 UserKeyFile user with
  | Some err => Val (None, Some err)
  | None =>
      match read UserKeyFile user with
      | Err err => Val (None, Some err)
      | Ok privateBytes =>
          match ParsePrivateKey privateBytes with
          | Err err => Val (None, Some err)
          | Ok private => Val (Some private, None)
          end
      end
  end.

End Scan.

(** * Proofs *)

Unset Implicit Arguments.

(** ** The monad and the primitives *)

Lemma bind_val A B (m : M A) (k : A -> M B) w a w' :
  m w = (Val a, w') -> bind m k w = k a w'.
Proof. unfold bind; intros ->; reflexivity. Qed.

Lemma bind_panic A B (m : M A) (k : A -> M B) w t w' :
  m w = (Panic t, w') -> bind m k w = (Panic t, w').
Proof. unfold bind; intros ->; reflexivity. Qed.

Lemma bind_out_of_fuel A B (m : M A) (k : A -> M B) w w' :
  m w = (OutOfFuel, w') -> bind m k w = (OutOfFuel, w').
Proof. unfold bind; intros ->; reflexivity. Qed.

Lemma defer_bind_val A B (fin : M unit) (m : M A) (k : A -> M B) w a w' :
  m w = (Val a, w') -> defer fin (bind m k) w = defer fin (k a) w'.
Proof. unfold defer, bind; intros ->; reflexivity. Qed.

Lemma trace_log e w : trace (log e w) = trace w ++ [e].
Proof. reflexivity. Qed.

Lemma sessions_log e w : sessions (log e w) = sessions w.
Proof. reflexivity. Qed.

Lemma closes_app s tr1 tr2 : closes s (tr1 ++ tr2) = closes s tr1 + closes s tr2.
Proof.
  induction tr1 as [|e tr1 IH]; simpl; [reflexivity|].
  destruct e; simpl; rewrite IH; auto using Nat.add_assoc.
Qed.

Lemma closes_none s tr : Forall (fun e => is_close e = false) tr -> closes s tr = 0.
Proof.
  induction 1 as [|e tr He _ IH]; simpl; [reflexivity|].
  destruct e; simpl in *; auto; discriminate.
Qed.

Lemma existsb_none (f : event -> bool) tr :
  Forall (fun e => f e = false) tr -> existsb f tr = false.
Proof.
  induction 1 as [|e tr He _ IH]; simpl; [reflexivity|].
  rewrite He, IH; reflexivity.
Qed.

Lemma writePacket_run s p w :
  exists e w',
    writePacket s p w = (Val e, w') /\
    trace w' = trace w ++ [EvWrite s p e] /\
    sessions w' = sessions w /\
    rx (downstream w') = rx (downstream w) /\
    rx (upstream w') = rx (upstream w).
Proof.
  unfold writePacket.
  destruct (tx (side_of s w)) as [|e rest] eqn:E.
  - exists None, (log (EvWrite s p None) w); auto.
  - eexists e, _; split; [reflexivity|]. destruct s; simpl; auto.
Qed.

Lemma readPacket_run s w :
  exists r w',
    readPacket s w = (Val r, w') /\
    trace w' = trace w ++ [EvRead s r] /\
    sessions w' = sessions w.
Proof.
  unfold readPacket.
  destruct (rx (side_of s w)) as [|r rest] eqn:E.
  - exists (Err EOF), (log (EvRead s (Err EOF)) w); auto.
  - eexists r, _; split; [reflexivity|]. destruct s; simpl; auto.
Qed.

Lemma steady_refl w : steady w w.
Proof. unfold steady; auto. Qed.

Lemma steady_trans w1 w2 w3 : steady w1 w2 -> steady w2 w3 -> steady w1 w3.
Proof.
  unfold steady. intros (S1 & D1 & U1) (S2 & D2 & U2).
  split; [congruence|]. split; eapply Nat.le_trans; eassumption.
Qed.

Lemma steady_log e w : steady w (log e w).
Proof. unfold steady; auto. Qed.

Lemma writePacket_steady s p w : steady w (snd (writePacket s p w)).
Proof.
  destruct (writePacket_run s p w) as (e & w' & -> & _ & S & D & U).
  unfold steady, unread. simpl. rewrite S, D, U. auto.
Qed.

Lemma readPacket_steady s w : steady w (snd (readPacket s w)).
Proof.
  unfold readPacket, steady, unread.
  destruct (rx (side_of s w)) as [|r rest] eqn:E; [simpl; auto|].
  destruct s; simpl in *; rewrite E; simpl; auto.
Qed.

Section Laws.
Context {L : SSHLib}.

(** ** What each computation adds to the trace *)

Lemma emits_still A Q (m : M A) :
  (forall w, snd (m w) = w) -> emits Q m.
Proof.
  intros H w. rewrite H. split; [apply steady_refl|].
  exists []; rewrite app_nil_r; auto.
Qed.

Lemma emits_ret A Q (a : A) : emits Q (ret a).
Proof. apply emits_still; reflexivity. Qed.

Lemma emits_panic A Q t : emits Q (@panic A t).
Proof. apply emits_still; reflexivity. Qed.

Lemma emits_out_of_fuel A Q : emits Q (@out_of_fuel A).
Proof. apply emits_still; reflexivity. Qed.

Lemma emits_call A Q (o : outcome A) : emits Q (call o).
Proof. apply emits_still; reflexivity. Qed.

Lemma emits_bind A B Q (m : M A) (k : A -> M B) :
  emits Q m -> (forall a, emits Q (k a)) -> emits Q (bind m k).
Proof.
  intros Hm Hk w. unfold bind.
  destruct (Hm w) as (Hs & tr & Ht & HQ).
  destruct (m w) as [[a| |] w1]; simpl in *; try (split; [assumption|eauto]).
  destruct (Hk a w1) as (Hs' & tr' & Ht' & HQ').
  split; [exact (steady_trans _ _ _ Hs Hs')|].
  exists (tr ++ tr'). rewrite Ht', Ht, app_assoc. split; [reflexivity|].
  apply Forall_app; split; [assumption|].
  rewrite <- (proj1 Hs); assumption.
Qed.

Lemma emits_weaken A (Q Q' : bytes * bytes -> event -> Prop) (m : M A) :
  (forall sids e, Q sids e -> Q' sids e) -> emits Q m -> emits Q' m.
Proof.
  intros HQ Hm w. destruct (Hm w) as (Hs & tr & Ht & H).
  split; [assumption|]. exists tr; split; [assumption|].
  eapply Forall_impl; [|eassumption]. auto.
Qed.

Lemma emits_emit Q e : (forall sids, Q sids e) -> emits Q (emit e).
Proof.
  intros H w; split; [apply steady_log|].
  exists [e]; split; [reflexivity|]. auto.
Qed.

Lemma emits_defer A Q (fin : M unit) (m : M A) :
  emits Q m -> emits Q fin -> emits Q (defer fin m).
Proof.
  intros Hm Hf w. unfold defer.
  destruct (Hm w) as (Hs & tr & Ht & HQ).
  destruct (m w) as [[a|t|] w1]; simpl in *; try (split; [assumption|eauto]).
  all: destruct (Hf w1) as (Hs' & tr' & Ht' & HQ');
    (split; [exact (steady_trans _ _ _ Hs Hs')|]);
    exists (tr ++ tr'); rewrite Ht', Ht, app_assoc; (split; [reflexivity|]);
    apply Forall_app; (split; [assumption|]);
    rewrite <- (proj1 Hs); assumption.
Qed.

Lemma emits_write Q s p :
  (forall sids e, Q sids (EvWrite s p e)) -> emits Q (writePacket s p).
Proof.
  intros H w. split; [apply writePacket_steady|].
  destruct (writePacket_run s p w) as (e & w' & -> & Ht & _).
  exists [EvWrite s p e]; auto.
Qed.

Lemma emits_read Q s :
  (forall sids r, Q sids (EvRead s r)) -> emits Q (readPacket s).
Proof.
  intros H w. split; [apply readPacket_steady|].
  destruct (readPacket_run s w) as (r & w' & -> & Ht & _).
  exists [EvRead s r]; auto.
Qed.

Lemma emits_sessionID_of Q s : emits Q (sessionID_of s).
Proof. apply emits_still; reflexivity. Qed.

Lemma emits_rand_of Q s : emits Q (rand_of s).
Proof. apply emits_still; reflexivity. Qed.

Lemma emits_handshake_of Q s : emits Q (handshake_of s).
Proof. apply emits_still; reflexivity. Qed.

Lemma emits_next_scheduled Q : emits Q next_scheduled.
Proof.
  intros w. split; [unfold steady; auto|].
  exists []; rewrite app_nil_r; auto.
Qed.

End Laws.

(** Breaks a computation down to the primitives; what is left is to show
    that each event it may add is allowed. *)
Ltac emits_step :=
  first
    [ apply emits_ret
    | apply emits_panic
    | apply emits_out_of_fuel
    | apply emits_call
    | apply emits_sessionID_of
    | apply emits_rand_of
    | apply emits_handshake_of
    | apply emits_next_scheduled
    | apply emits_bind; [|intros]
    | apply emits_defer
    | apply emits_write; intros
    | apply emits_read; intros
    | apply emits_emit; intros
    | match goal with
      | |- emits _ (match ?x with _ => _ end) => destruct x
      | |- emits _ (let (_, _) := ?x in _) => destruct x
      end ].

Ltac emits_steps := repeat emits_step.

(** Closes [trace w' = trace w ++ tr] from the equations of the steps
    between [w] and [w']. *)
Ltac trace_eq :=
  simpl;
  repeat match goal with
         | H : trace _ = _ |- _ => rewrite H; clear H
         end;
  rewrite <- ?app_assoc; simpl;
  first [reflexivity|symmetry; apply app_nil_r|rewrite app_nil_r; reflexivity].

Section Rewriter.
Context {L : SSHLib}.

(** ** [pipeAuth]: one turn of the loop *)

Lemma nextAuthMsg_run w :
  exists r w',
    readPacket Down w = (Val r, w') /\
    trace w' = trace w ++ [EvRead Down r] /\
    sessions w' = sessions w /\
    nextAuthMsg w =
      (Val (match r with Err e => Err e | Ok p => decode p end), w').
Proof.
  destruct (readPacket_run Down w) as (r & w' & Hr & Ht & Hs).
  exists r, w'. repeat split; try assumption.
  unfold nextAuthMsg. rewrite (bind_val _ _ _ _ _ _ _ Hr).
  destruct r as [p|e]; [|reflexivity].
  unfold decode.
  destruct (Unmarshal_userAuthRequest p zero_userAuthRequestMsg) as [req [e|]];
    [reflexivity|].
  destruct (negb (Service req =? serviceSSH)); reflexivity.
Qed.

Lemma pipeAuth_next_run w :
  exists r w',
    readPacket Down w = (Val r, w') /\
    trace w' = trace w ++ [EvRead Down r] /\
    sessions w' = sessions w /\
    pipeAuth_next w =
      (Val (match r with
            | Err e => Return (Some e)
            | Ok p => match decode p with
                      | Err e => Return (Some e)
                      | Ok m => Continue m
                      end
            end), w').
Proof.
  destruct (nextAuthMsg_run w) as (r & w' & Hr & Ht & Hs & Hn).
  exists r, w'. repeat split; try assumption.
  unfold pipeAuth_next. rewrite (bind_val _ _ _ _ _ _ _ Hn).
  destruct r as [p|e]; [destruct (decode p)|]; reflexivity.
Qed.

(** [pipeAuth_next] never leaves the loop with [nil]. *)
Lemma pipeAuth_next_not_success w : fst (pipeAuth_next w) <> Val (Return None).
Proof.
  destruct (pipeAuth_next_run w) as (r & w' & _ & _ & _ & ->). simpl.
  destruct r as [p|e]; [destruct (decode p)|]; discriminate.
Qed.

Lemma pipeAuth_turn_error proc msg w m e w1 :
  proc msg w = (Val (m, Some e), w1) ->
  pipeAuth_turn proc msg w = (Val (Return (Some e)), w1).
Proof.
  intros H. unfold pipeAuth_turn. rewrite (bind_val _ _ _ _ _ _ _ H). reflexivity.
Qed.

Lemma pipeAuth_turn_suppressed proc msg w w1 :
  proc msg w = (Val (None, None), w1) ->
  pipeAuth_turn proc msg w = pipeAuth_next w1.
Proof.
  intros H. unfold pipeAuth_turn. rewrite (bind_val _ _ _ _ _ _ _ H). reflexivity.
Qed.

Lemma pipeAuth_turn_relayed proc msg w req w1 w2 b0 rest w3 w4 :
  proc msg w = (Val (Some req, None), w1) ->
  writePacket Up (Marshal (MUserAuthRequest req)) w1 = (Val None, w2) ->
  readPacket Up w2 = (Val (Ok (b0 :: rest)), w3) ->
  writePacket Down (b0 :: rest) w3 = (Val None, w4) ->
  pipeAuth_turn proc msg w =
    if Byte.eqb b0 msgUserAuthSuccess then (Val (Return None), w4)
    else pipeAuth_next w4.
Proof.
  intros H1 H2 H3 H4. unfold pipeAuth_turn.
  rewrite (bind_val _ _ _ _ _ _ _ H1). cbn beta iota.
  rewrite (bind_val _ _ _ _ _ _ _ H2). cbn beta iota.
  rewrite (bind_val _ _ _ _ _ _ _ H3). cbn beta iota.
  rewrite (bind_val _ _ _ _ _ _ _ H4). cbn beta iota.
  destruct (Byte.eqb b0 msgUserAuthSuccess); reflexivity.
Qed.

(** Whatever comes of it, a request the hook returns is what the turn
    writes upstream, before anything else, and it writes nothing else
    there. *)
Lemma pipeAuth_turn_writes proc msg w req w1 :
  proc msg w = (Val (Some req, None), w1) ->
  exists e tr,
    trace (snd (pipeAuth_turn proc msg w)) =
      trace w1 ++ EvWrite Up (Marshal (MUserAuthRequest req)) e :: tr /\
    Forall (fun ev => is_write_up ev = false) tr.
Proof.
  intros H1. unfold pipeAuth_turn.
  rewrite (bind_val _ _ _ _ _ _ _ H1). cbn beta iota.
  destruct (writePacket_run Up (Marshal (MUserAuthRequest req)) w1)
    as (e & w2 & H2 & T2 & _).
  rewrite (bind_val _ _ _ _ _ _ _ H2). exists e.
  destruct e as [e|]; [eexists; split; [trace_eq|constructor]|].
  destruct (readPacket_run Up w2) as (r & w3 & H3 & T3 & _).
  rewrite (bind_val _ _ _ _ _ _ _ H3).
  destruct r as [[|b0 rest]|e];
    try (eexists; split; [trace_eq|repeat constructor]).
  destruct (writePacket_run Down (b0 :: rest) w3) as (e' & w4 & H4 & T4 & _).
  rewrite (bind_val _ _ _ _ _ _ _ H4).
  destruct e' as [e'|];
    [|destruct (Byte.eqb b0 msgUserAuthSuccess)];
    try (eexists; split; [trace_eq|repeat constructor]).
  destruct (pipeAuth_next_run w4) as (r & w5 & _ & T5 & _ & ->).
  eexists; split; [trace_eq|repeat constructor].
Qed.

End Rewriter.

Lemma writePacket_trace s p w e w' :
  writePacket s p w = (Val e, w') -> trace w' = trace w ++ [EvWrite s p e].
Proof.
  destruct (writePacket_run s p w) as (e0 & w0 & -> & T & _).
  intros [= <- <-]; exact T.
Qed.

Lemma readPacket_trace s w r w' :
  readPacket s w = (Val r, w') -> trace w' = trace w ++ [EvRead s r].
Proof.
  destruct (readPacket_run s w) as (r0 & w0 & -> & T & _).
  intros [= <- <-]; exact T.
Qed.

Lemma byte_eqb_iff (a b : byte) : Byte.eqb a b = true <-> a = b.
Proof. split; [apply Byte.byte_dec_bl|apply Byte.byte_dec_lb]. Qed.

Section Hook.
Context {L : SSHLib}.

(** ** [processAuthMsg], case by case *)

Lemma publickey_eqb : negb ("publickey" =? "publickey") = false.
Proof. reflexivity. Qed.

Lemma processAuthMsg_other piper p msg w :
  Method msg <> "publickey" ->
  processAuthMsg piper p msg w = (Val (Some msg, None), w).
Proof.
  intros H. unfold processAuthMsg.
  destruct (String.eqb_spec (Method msg) "publickey"); [contradiction|reflexivity].
Qed.

Lemma processAuthMsg_parse_error piper p msg w e :
  Method msg = "publickey" ->
  parsePublicKeyMsg msg = Err e ->
  processAuthMsg piper p msg w = (Val (None, Some e), w).
Proof.
  intros Hm Hp. unfold processAuthMsg.
  rewrite Hm, Hp, publickey_eqb. reflexivity.
Qed.

Lemma processAuthMsg_unmapped piper p msg w downKey isQuery sig signer err :
  Method msg = "publickey" ->
  parsePublicKeyMsg msg = Ok (downKey, isQuery, sig) ->
  MapPublicKey piper (pc_downstream p) downKey = Val (signer, err) ->
  signer = None \/ err <> None ->
  processAuthMsg piper p msg w = (Val (Some (noneAuthMsg (User msg)), None), w).
Proof.
  intros Hm Hp Hk H. unfold processAuthMsg.
  rewrite Hm, Hp, publickey_eqb. cbv beta iota zeta.
  unfold bind, call. rewrite Hk.
  destruct signer as [signer|]; [|reflexivity].
  destruct err as [e|]; [reflexivity|].
  destruct H; [discriminate|contradiction].
Qed.

Lemma processAuthMsg_query piper p msg w downKey sig signer :
  Method msg = "publickey" ->
  parsePublicKeyMsg msg = Ok (downKey, true, sig) ->
  MapPublicKey piper (pc_downstream p) downKey = Val (Some signer, None) ->
  processAuthMsg piper p msg w =
    bind (validAndAck p (signer_PublicKey signer) downKey)
      (fun r => match snd r with
                | Some e => ret (None, Some e)
                | None => ret (fst r, None)
                end) w.
Proof.
  intros Hm Hp Hk. unfold processAuthMsg.
  rewrite Hm, Hp, publickey_eqb. cbv beta iota zeta.
  unfold bind at 1. unfold call. rewrite Hk. cbn [isSome]. cbv beta iota.
  unfold bind. destruct (validAndAck p (signer_PublicKey signer) downKey w)
    as [[[m e]| |] w1]; reflexivity.
Qed.

(** The branch of a signed request.  The error of [signAgain] does not
    reach the test after the [if]/[else]. *)
Lemma processAuthMsg_signed piper p msg w downKey sig signer :
  Method msg = "publickey" ->
  parsePublicKeyMsg msg = Ok (downKey, false, sig) ->
  MapPublicKey piper (pc_downstream p) downKey = Val (Some signer, None) ->
  processAuthMsg piper p msg w =
    bind (checkPublicKey p msg downKey sig)
      (fun r => match snd r with
                | Some e => ret (None, Some e)
                | None =>
                    if negb (fst r) then ret (Some (noneAuthMsg (User msg)), None)
                    else bind (signAgain p msg signer downKey)
                           (fun r' => ret (fst r', None))
                end) w.
Proof.
  intros Hm Hp Hk. unfold processAuthMsg.
  rewrite Hm, Hp, publickey_eqb. cbv beta iota zeta.
  unfold bind at 1. unfold call. rewrite Hk. cbn [isSome]. cbv beta iota.
  unfold bind at 1 3. destruct (checkPublicKey p msg downKey sig w)
    as [[[ok e]| |] w1]; try reflexivity.
  cbn [fst snd]. destruct e; [reflexivity|]. destruct ok; [|reflexivity].
  cbn [negb]. cbv beta iota.
  unfold bind. destruct (signAgain p msg signer downKey w1)
    as [[[m e]| |] w2]; reflexivity.
Qed.

Lemma validAndAck_run p upKey downKey w ok verr w1 :
  validateKey upKey (cm_User (pc_downstream p)) Up w = (Val (ok, verr), w1) ->
  validAndAck p upKey downKey w =
    if ok then
      bind (writePacket Down
              (Marshal (MUserAuthPubKeyOk
                          {| Algo := pk_Type downKey;
                             PubKey := pk_Marshal downKey |})))
        (fun err => ret (None, err)) w1
    else (Val (Some (noneAuthMsg (cm_User (pc_downstream p))), None), w1).
Proof.
  intros H. unfold validAndAck. rewrite (bind_val _ _ _ _ _ _ _ H).
  destruct ok; [|reflexivity].
  unfold bind. destruct (writePacket Down _ w1) as [[[e|]| |] w2]; reflexivity.
Qed.

Lemma checkPublicKey_run p msg pubkey sig w :
  checkPublicKey p msg pubkey (Some sig) w =
    if isAcceptableAlgo (Format sig) then
      let data :=
        buildDataSignedForAuth (getSessionID (downstream w)) msg
          (list_byte_of_string (pk_Type pubkey)) (pk_Marshal pubkey) in
      (Val (isNone (pk_Verify pubkey data sig), None),
       log (EvVerify (pk_Marshal pubkey) data sig (pk_Verify pubkey data sig)) w)
    else (Val (false, None), w).
Proof.
  unfold checkPublicKey.
  destruct (isAcceptableAlgo (Format sig)); [|reflexivity]. cbn.
  destruct (pk_Verify pubkey _ sig); reflexivity.
Qed.

Lemma signAgain_run p msg signer downKey w :
  let upKey := signer_PublicKey signer in
  let data :=
    buildDataSignedForAuth (getSessionID (upstream w))
      {| User := cm_User (pc_downstream p); Service := serviceSSH;
         Method := "publickey"; Payload := [] |}
      (list_byte_of_string (pk_Type upKey)) (pk_Marshal upKey) in
  snd (signAgain p msg signer downKey w) = log (EvSign (pk_Marshal upKey) data) w /\
  match signer_Sign signer (Rand (upstream w)) data with
  | Err e => fst (signAgain p msg signer downKey w) = Val (None, Some e)
  | Ok _ => exists m, fst (signAgain p msg signer downKey w) = Val (Some m, None)
  end.
Proof.
  unfold signAgain. cbn.
  destruct (signer_Sign signer _ _); cbn; eauto.
Qed.

End Hook.

Section Crypto.
Context {L : SSHLib}.

Lemma emits_run A Q (m : M A) w r w' :
  emits Q m -> m w = (r, w') ->
  exists tr, trace w' = trace w ++ tr /\ Forall (Q (sessions w)) tr /\
             steady w w'.
Proof.
  intros H E. destruct (H w) as (Hs & tr & Ht & HQ). rewrite E in *.
  exists tr; auto.
Qed.

Lemma emits_checkPublicKey p msg pubkey sig :
  emits (fun sids e => is_crypto e = true /\ bound_to sids e)
    (checkPublicKey p msg pubkey sig).
Proof.
  destruct sig as [sig|]; [|apply emits_panic].
  intros w. rewrite checkPublicKey_run.
  destruct (isAcceptableAlgo (Format sig)).
  - split; [apply steady_log|]. eexists; split; [reflexivity|].
    constructor; [|constructor]. split; [reflexivity|].
    simpl. eauto.
  - split; [apply steady_refl|]. exists []. rewrite app_nil_r. auto.
Qed.

Lemma emits_signAgain p msg signer downKey :
  emits (fun sids e => is_crypto e = true /\ bound_to sids e)
    (signAgain p msg signer downKey).
Proof.
  intros w. destruct (signAgain_run p msg signer downKey w) as (-> & _).
  split; [apply steady_log|]. eexists; split; [reflexivity|].
  constructor; [|constructor]. split; [reflexivity|].
  simpl. eauto.
Qed.

End Crypto.

Section Claims_of_the_rewriter.
Context {L : SSHLib}.

(** C5.  When [MapPublicKey] gives no signer, or gives an error, for the
    key of a publickey request, [processAuthMsg] returns a request of
    method "none", of the ssh-connection service and of the user of the
    request it was given; and that request, marshalled, is what the turn of
    [pipeAuth] writes to the upstream, the only thing it writes there. *)
Theorem unmapped_key_is_sent_as_none
  (piper : SSHPiper) (p : pipedConn) (msg : userAuthRequestMsg)
  (downKey : PublicKey) (isQuery : bool) (sig : option Signature)
  (signer : option Signer) (err : option error) (w : World) :
  Method msg = "publickey" ->
  parsePublicKeyMsg msg = Ok (downKey, isQuery, sig) ->
  MapPublicKey piper (pc_downstream p) downKey = Val (signer, err) ->
  signer = None \/ err <> None ->
  let none := noneAuthMsg (User msg) in
  Method none = "none" /\ Service none = serviceSSH /\ User none = User msg /\
  processAuthMsg piper p msg w = (Val (Some none, None), w) /\
  exists e tr,
    trace (snd (pipeAuth_turn (processAuthMsg piper p) msg w)) =
      trace w ++ EvWrite Up (Marshal (MUserAuthRequest none)) e :: tr /\
    Forall (fun ev => is_write_up ev = false) tr.
Proof.
  intros Hm Hp Hk H none.
  assert (Hhook := processAuthMsg_unmapped piper p msg w _ _ _ _ _ Hm Hp Hk H).
  repeat split; try reflexivity; [exact Hhook|].
  exact (pipeAuth_turn_writes _ _ _ _ _ Hhook).
Qed.

(** C4, amended.  A turn of [pipeAuth] in which the hook returns a request
    [req] and no error.  The first thing the turn does is to write [req]
    to the upstream, and it writes nothing else there.  When that write
    fails the turn returns its error and has read nothing.  Otherwise the
    turn reads one packet from the upstream; when the read fails the turn
    returns its error, and a reply of no byte makes it panic.  Otherwise
    the turn writes that packet, as it is, to the downstream; when this
    write fails the turn returns its error, also when the reply is a
    USERAUTH_SUCCESS.  Otherwise the turn leaves [pipeAuth] with [nil] if
    the first byte of the reply is USERAUTH_SUCCESS, and reads the next
    request of the downstream if it is not.  So the turn leaves [pipeAuth]
    with [nil] exactly when the two writes and the read went well and the
    first byte of the reply is USERAUTH_SUCCESS.  When the hook returns
    [nil] and no error, the turn only reads the next request of the
    downstream. *)
Theorem relay_of_one_turn
  (proc : userAuthRequestMsg -> M (option userAuthRequestMsg * option error))
  (msg : userAuthRequestMsg) (w : World)
  (m : option userAuthRequestMsg) (w1 : World) :
  proc msg w = (Val (m, None), w1) ->
  match m with
  | Some req =>
      let request := Marshal (MUserAuthRequest req) in
      let turn := pipeAuth_turn proc msg w in
      (exists e tr,
          trace (snd turn) = trace w1 ++ EvWrite Up request e :: tr /\
          Forall (fun ev => is_write_up ev = false) tr) /\
      (exists e1 w2,
          writePacket Up request w1 = (Val e1, w2) /\
          trace w2 = trace w1 ++ [EvWrite Up request e1] /\
          match e1 with
          | Some err => turn = (Val (Return (Some err)), w2)
          | None =>
              exists r w3,
                readPacket Up w2 = (Val r, w3) /\
                trace w3 = trace w2 ++ [EvRead Up r] /\
                match r with
                | Err err => turn = (Val (Return (Some err)), w3)
                | Ok [] => turn = (Panic "index out of range", w3)
                | Ok (b0 :: rest) =>
                    exists e2 w4,
                      writePacket Down (b0 :: rest) w3 = (Val e2, w4) /\
                      trace w4 = trace w3 ++ [EvWrite Down (b0 :: rest) e2] /\
                      match e2 with
                      | Some err => turn = (Val (Return (Some err)), w4)
                      | None =>
                          turn =
                            (if Byte.eqb b0 msgUserAuthSuccess
                             then (Val (Return None), w4)
                             else pipeAuth_next w4) /\
                          (b0 <> msgUserAuthSuccess ->
                           exists r',
                             trace (snd turn) = trace w4 ++ [EvRead Down r'])
                      end
                end
          end) /\
      (fst turn = Val (Return None) <->
       exists w2 rest w3 w4,
         writePacket Up request w1 = (Val None, w2) /\
         readPacket Up w2 = (Val (Ok (msgUserAuthSuccess :: rest)), w3) /\
         writePacket Down (msgUserAuthSuccess :: rest) w3 = (Val None, w4))
  | None =>
      pipeAuth_turn proc msg w = pipeAuth_next w1 /\
      exists r,
        trace (snd (pipeAuth_turn proc msg w)) = trace w1 ++ [EvRead Down r]
  end.
Proof.
  intros H. destruct m as [req|].
  2:{ rewrite (pipeAuth_turn_suppressed _ _ _ _ H). split; [reflexivity|].
      destruct (pipeAuth_next_run w1) as (r & w' & _ & T & _ & ->).
      exists r. exact T. }
  cbv zeta. split; [exact (pipeAuth_turn_writes _ _ _ _ _ H)|].
  assert (Hturn : pipeAuth_turn proc msg w =
            bind (writePacket Up (Marshal (MUserAuthRequest req)))
              (fun err =>
                 match err with
                 | Some e => ret (Return (Some e))
                 | None =>
                     bind (readPacket Up)
                       (fun r =>
                          match r with
                          | Err e => ret (Return (Some e))
                          | Ok [] => panic "index out of range"
                          | Ok ((b0 :: _) as packet) =>
                              bind (writePacket Down packet)
                                (fun err =>
                                   match err with
                                   | Some e => ret (Return (Some e))
                                   | None =>
                                       if Byte.eqb b0 msgUserAuthSuccess
                                       then ret (Return None)
                                       else pipeAuth_next
                                   end)
                          end)
                 end) w1).
  { unfold pipeAuth_turn. rewrite (bind_val _ _ _ _ _ _ _ H). reflexivity. }
  rewrite Hturn. clear Hturn.
  destruct (writePacket_run Up (Marshal (MUserAuthRequest req)) w1)
    as (e1 & w2 & H2 & T2 & _).
  rewrite (bind_val _ _ _ _ _ _ _ H2).
  destruct e1 as [err1|].
  { split.
    - exists (Some err1), w2. auto.
    - split; [discriminate|].
      intros (w2' & rest & w3 & w4 & H2' & _). congruence. }
  destruct (readPacket_run Up w2) as (r & w3 & H3 & T3 & _).
  rewrite (bind_val _ _ _ _ _ _ _ H3).
  destruct r as [[|b0 rest]|err3].
  1,3: split;
    [exists None, w2; split; [exact H2|]; split; [exact T2|];
     eexists _, w3; split; [exact H3|]; split; [exact T3|reflexivity]
    |split; [discriminate|];
     intros (w2' & rest' & w3' & w4 & H2' & H3' & _);
     rewrite H2 in H2'; injection H2' as <-;
     rewrite H3 in H3'; discriminate H3'].
  destruct (writePacket_run Down (b0 :: rest) w3) as (e2 & w4 & H4 & T4 & _).
  rewrite (bind_val _ _ _ _ _ _ _ H4).
  assert (Hsame : forall w2' rest' w3' w4',
             writePacket Up (Marshal (MUserAuthRequest req)) w1 = (Val None, w2') ->
             readPacket Up w2' = (Val (Ok (msgUserAuthSuccess :: rest')), w3') ->
             writePacket Down (msgUserAuthSuccess :: rest') w3' = (Val None, w4') ->
             b0 = msgUserAuthSuccess /\ e2 = None).
  { intros w2' rest' w3' w4' H2' H3' H4'.
    rewrite H2 in H2'. injection H2' as <-.
    rewrite H3 in H3'. injection H3' as -> -> <-.
    rewrite H4 in H4'. injection H4' as -> _. auto. }
  destruct e2 as [err2|].
  { split.
    - exists None, w2. split; [exact H2|]. split; [exact T2|].
      exists (Ok (b0 :: rest)), w3. split; [exact H3|]. split; [exact T3|].
      exists (Some err2), w4. auto.
    - split; [discriminate|].
      intros (w2' & rest' & w3' & w4' & H2' & H3' & H4').
      destruct (Hsame _ _ _ _ H2' H3' H4') as (_ & X). discriminate X. }
  destruct (Byte.eqb b0 msgUserAuthSuccess) eqn:E.
  - apply byte_eqb_iff in E. subst b0. split.
    + exists None, w2. split; [exact H2|]. split; [exact T2|].
      exists (Ok (msgUserAuthSuccess :: rest)), w3.
      split; [exact H3|]. split; [exact T3|].
      exists None, w4. split; [exact H4|]. split; [exact T4|].
      split; [reflexivity|]. intros X. contradiction.
    + split; [|reflexivity]. intros _. exists w2, rest, w3, w4. auto.
  - split.
    + exists None, w2. split; [exact H2|]. split; [exact T2|].
      exists (Ok (b0 :: rest)), w3. split; [exact H3|]. split; [exact T3|].
      exists None, w4. split; [exact H4|]. split; [exact T4|].
      rewrite ?E. split; [reflexivity|]. intros _.
      destruct (pipeAuth_next_run w4) as (r' & w5 & _ & T5 & _ & ->).
      exists r'. exact T5.
    + split.
      * intros F. exfalso. exact (pipeAuth_next_not_success _ F).
      * intros (w2' & rest' & w3' & w4' & H2' & H3' & H4').
        destruct (Hsame _ _ _ _ H2' H3' H4') as (-> & _).
        discriminate E.
Qed.

(** C2.  A publickey query (no signature) whose key [MapPublicKey] maps to
    a signer, [upKey] being the signer's key.  When the upstream accepts
    [upKey] ([validateKey] says so), the hook writes to the downstream a
    USERAUTH_PK_OK whose algorithm is [downKey.Type()] and whose key is
    [downKey.Marshal()], and returns [nil] with the error of that write;
    when the write went well, the turn of [pipeAuth] goes on to read the
    next request of the downstream, writing nothing to the upstream.  When
    the upstream does not accept [upKey], the hook returns a request of
    method "none". *)
Theorem query_is_acknowledged_with_downKey
  (piper : SSHPiper) (p : pipedConn) (msg : userAuthRequestMsg)
  (downKey : PublicKey) (sig : option Signature) (signer : Signer)
  (w : World) (ok : bool) (verr : option error) (w1 : World) :
  Method msg = "publickey" ->
  parsePublicKeyMsg msg = Ok (downKey, true, sig) ->
  MapPublicKey piper (pc_downstream p) downKey = Val (Some signer, None) ->
  validateKey (signer_PublicKey signer) (cm_User (pc_downstream p)) Up w =
    (Val (ok, verr), w1) ->
  if ok then
    let pkOk := Marshal (MUserAuthPubKeyOk {| Algo := pk_Type downKey;
                                             PubKey := pk_Marshal downKey |}) in
    exists e w2,
      writePacket Down pkOk w1 = (Val e, w2) /\
      trace w2 = trace w1 ++ [EvWrite Down pkOk e] /\
      processAuthMsg piper p msg w = (Val (None, e), w2) /\
      (e = None ->
       pipeAuth_turn (processAuthMsg piper p) msg w = pipeAuth_next w2 /\
       exists r,
         trace (snd (pipeAuth_turn (processAuthMsg piper p) msg w)) =
           trace w2 ++ [EvRead Down r])
  else
    let none := noneAuthMsg (cm_User (pc_downstream p)) in
    Method none = "none" /\
    processAuthMsg piper p msg w = (Val (Some none, None), w1).
Proof.
  intros Hm Hp Hk Hv.
  assert (Hq := processAuthMsg_query piper p msg w _ _ _ Hm Hp Hk).
  unfold bind at 1 in Hq. rewrite (validAndAck_run p _ downKey w _ _ _ Hv) in Hq.
  destruct ok; [|split; [reflexivity|exact Hq]].
  cbv zeta.
  destruct (writePacket_run Down
              (Marshal (MUserAuthPubKeyOk {| Algo := pk_Type downKey;
                                             PubKey := pk_Marshal downKey |})) w1)
    as (e & w2 & Hw & T & _).
  exists e, w2. rewrite (bind_val _ _ _ _ _ _ _ Hw) in Hq.
  assert (Hhook : processAuthMsg piper p msg w = (Val (None, e), w2))
    by (rewrite Hq; destruct e; reflexivity).
  repeat split; try assumption.
  - subst e. apply (pipeAuth_turn_suppressed _ _ _ _ Hhook).
  - subst e. rewrite (pipeAuth_turn_suppressed _ _ _ _ Hhook).
    destruct (pipeAuth_next_run w2) as (r & w' & _ & T' & _ & ->).
    exists r. exact T'.
Qed.

(** C9.  A signed publickey request that verifies, for a key mapped to a
    signer, whose re-signing fails: [signAgain] returns [nil] and the
    error, and [processAuthMsg] returns [nil] and no error, because the
    error went to the [err] declared inside the [else] branch.  The turn of
    [pipeAuth] is then that of a suppressed round trip: nothing was written
    to the upstream, no error is returned, and the next thing the piper
    does is to read from the downstream. *)
Theorem error_of_signAgain_is_dropped
  (piper : SSHPiper) (p : pipedConn) (msg : userAuthRequestMsg)
  (downKey : PublicKey) (sig : Signature) (signer : Signer)
  (w w1 w2 : World) (m : option userAuthRequestMsg) (e : error) :
  Method msg = "publickey" ->
  parsePublicKeyMsg msg = Ok (downKey, false, Some sig) ->
  MapPublicKey piper (pc_downstream p) downKey = Val (Some signer, None) ->
  checkPublicKey p msg downKey (Some sig) w = (Val (true, None), w1) ->
  signAgain p msg signer downKey w1 = (Val (m, Some e), w2) ->
  m = None /\
  processAuthMsg piper p msg w = (Val (None, None), w2) /\
  pipeAuth_turn (processAuthMsg piper p) msg w = pipeAuth_next w2 /\
  (exists tr, trace w2 = trace w ++ tr /\
              Forall (fun ev => is_write_up ev = false) tr) /\
  exists r,
    trace (snd (pipeAuth_turn (processAuthMsg piper p) msg w)) =
      trace w2 ++ [EvRead Down r].
Proof.
  intros Hm Hp Hk Hc Hs.
  assert (Hnil : m = None).
  { destruct (signAgain_run p msg signer downKey w1) as (_ & H).
    rewrite Hs in H. cbn [fst] in H.
    destruct (signer_Sign signer _ _); [destruct H as (m' & [=])|].
    injection H as -> _; reflexivity. }
  subst m.
  assert (Hhook : processAuthMsg piper p msg w = (Val (None, None), w2)).
  { rewrite (processAuthMsg_signed piper p msg w _ _ _ Hm Hp Hk).
    rewrite (bind_val _ _ _ _ _ _ _ Hc). cbn [fst snd negb].
    rewrite (bind_val _ _ _ _ _ _ _ Hs). reflexivity. }
  split; [reflexivity|]. split; [exact Hhook|].
  rewrite (pipeAuth_turn_suppressed _ _ _ _ Hhook). split; [reflexivity|].
  split.
  - destruct (emits_run _ _ _ _ _ _
                (emits_checkPublicKey p msg downKey (Some sig)) Hc)
      as (tr1 & T1 & Q1 & _).
    destruct (emits_run _ _ _ _ _ _
                (emits_signAgain p msg signer downKey) Hs)
      as (tr2 & T2 & Q2 & _).
    exists (tr1 ++ tr2). split; [trace_eq|].
    apply Forall_app; split;
      (eapply Forall_impl; [|eassumption]);
      intros [] [E _]; try discriminate E; reflexivity.
  - destruct (pipeAuth_next_run w2) as (r & w' & _ & T' & _ & ->).
    exists r. exact T'.
Qed.

End Claims_of_the_rewriter.

(** *** The claims of the rewriter at sample requests *)

#[local] Existing Instance Wire.lib.

(** The key of [Sample.query] is mapped to nothing: the hook returns the
    request of method "none" of [alice]. *)
Lemma unmapped_key_is_sent_as_none_witness :
  processAuthMsg (Sample.piper None) Sample.pipe Sample.query
    (Sample.world [] []) =
  (Val (Some (noneAuthMsg "alice"), None), Sample.world [] []).
Proof.
  exact (proj1 (proj2 (proj2 (proj2
           (unmapped_key_is_sent_as_none (L:=Wire.lib)
              (Sample.piper None) Sample.pipe Sample.query Sample.downKey
              true None None None (Sample.world [] [])
              eq_refl eq_refl eq_refl (or_introl eq_refl)))))).
Defined.

(** A request of method "none" is relayed; the upstream answers
    USERAUTH_SUCCESS and [pipeAuth] is left with [nil]. *)
Lemma relay_of_one_turn_witness :
  fst (pipeAuth_turn (processAuthMsg (Sample.piper None) Sample.pipe)
         (Sample.request "none" []) (Sample.world [] [Sample.success])) =
  Val (Return None).
Proof.
  pose (w1 := Sample.world [] [Sample.success]).
  pose (w2 := snd (writePacket Up
                     (Wire.Marshal (MUserAuthRequest (Sample.request "none" [])))
                     w1)).
  pose (w3 := snd (readPacket Up w2)).
  pose (w4 := snd (writePacket Down [msgUserAuthSuccess] w3)).
  destruct (relay_of_one_turn (L:=Wire.lib)
              (processAuthMsg (Sample.piper None) Sample.pipe)
              (Sample.request "none" []) w1
              (Some (Sample.request "none" [])) w1 eq_refl)
    as (_ & _ & Hiff).
  apply Hiff. exists w2, [], w3, w4.
  repeat split; vm_compute; reflexivity.
Defined.

(** C4 as stated fails.  The upstream answers USERAUTH_SUCCESS and the
    downstream is gone: the turn has read a reply whose first byte is
    USERAUTH_SUCCESS, and returns the error of the write to the
    downstream, not [nil].  And when it is the upstream the piper cannot
    write to, the turn returns that error and reads no reply at all. *)
Lemma success_reply_counterexample :
  pipeAuth_turn (processAuthMsg (Sample.piper None) Sample.pipe)
    (Sample.request "none" [])
    {| downstream := Sample.gone Sample.sidDown [];
       upstream := Sample.peer Sample.sidUp [Sample.success];
       schedule := []; trace := [] |} =
  (Val (Return (Some (IOError "broken pipe"))),
   {| downstream := Sample.peer Sample.sidDown [];
      upstream := Sample.peer Sample.sidUp [];
      schedule := [];
      trace :=
        [EvWrite Up
           (Wire.Marshal (MUserAuthRequest (Sample.request "none" []))) None;
         EvRead Up (Ok [msgUserAuthSuccess]);
         EvWrite Down [msgUserAuthSuccess] (Some (IOError "broken pipe"))] |}) /\
  pipeAuth_turn (processAuthMsg (Sample.piper None) Sample.pipe)
    (Sample.request "none" [])
    {| downstream := Sample.peer Sample.sidDown [];
       upstream := Sample.gone Sample.sidUp [Sample.success];
       schedule := []; trace := [] |} =
  (Val (Return (Some (IOError "broken pipe"))),
   {| downstream := Sample.peer Sample.sidDown [];
      upstream := Sample.peer Sample.sidUp [Sample.success];
      schedule := [];
      trace :=
        [EvWrite Up
           (Wire.Marshal (MUserAuthRequest (Sample.request "none" [])))
           (Some (IOError "broken pipe"))] |}).
Proof. split; vm_compute; reflexivity. Qed.

(** The upstream accepts the mapped key: the downstream gets a PK_OK for
    the key it asked about, and the hook returns [nil]. *)
Lemma query_is_acknowledged_with_downKey_witness :
  exists w2,
    processAuthMsg (Sample.piper (Some Sample.signer)) Sample.pipe Sample.query
      (Sample.world [] [Sample.pkOk]) = (Val (None, None), w2) /\
    last (trace w2) EvForwarding =
      EvWrite Down
        (Wire.Marshal (MUserAuthPubKeyOk {| Algo := "ssh-rsa";
                                            PubKey := Sample.downBlob |}))
        None.
Proof.
  destruct (query_is_acknowledged_with_downKey (L:=Wire.lib)
              (Sample.piper (Some Sample.signer)) Sample.pipe Sample.query
              Sample.downKey None Sample.signer
              (Sample.world [] [Sample.pkOk]) true None _
              eq_refl eq_refl eq_refl eq_refl)
    as (e & w2 & Hw & T & Hh & _).
  vm_compute in Hw. injection Hw as <- <-.
  eexists. split; [exact Hh|]. reflexivity.
Defined.

(** The signer cannot sign: the hook returns [nil] and no error. *)
Lemma error_of_signAgain_is_dropped_witness :
  exists w2,
    processAuthMsg (Sample.piper (Some Sample.deadSigner)) Sample.pipe
      Sample.signed (Sample.world [] []) = (Val (None, None), w2).
Proof.
  pose (sig := {| Format := "ssh-rsa";
                  Blob := Sample.downBlob ++
                          Wire.buildDataSignedForAuth Sample.sidDown
                            (Sample.request "publickey" [])
                            (Sample.ascii_bytes "ssh-rsa") Sample.downBlob |}).
  pose (w1 := snd (checkPublicKey Sample.pipe Sample.signed Sample.downKey
                     (Some sig) (Sample.world [] []))).
  pose (w2 := snd (signAgain Sample.pipe Sample.signed Sample.deadSigner
                     Sample.downKey w1)).
  exists w2.
  refine (proj1 (proj2
    (error_of_signAgain_is_dropped (L:=Wire.lib)
       (Sample.piper (Some Sample.deadSigner)) Sample.pipe Sample.signed
       Sample.downKey sig Sample.deadSigner (Sample.world [] []) w1 w2 None
       (IOError "agent: failure") eq_refl _ eq_refl _ _)));
    vm_compute; reflexivity.
Defined.

(** ** [Serve], up to the authentication loop *)

Lemma defer_ext A (fin : M unit) (m m' : M A) w w' :
  m w = m' w' -> defer fin m w = defer fin m' w'.
Proof. unfold defer; intros ->; reflexivity. Qed.

Lemma defer_val A (fin : M unit) (m : M A) w a w' :
  m w = (Val a, w') -> defer fin m w = (Val a, snd (fin w')).
Proof. unfold defer; intros ->; reflexivity. Qed.

Section Session.
Context {L : SSHLib}.

Lemma pipeAuth_for_turns proc n msg w msg' w' :
  turns proc n msg w msg' w' ->
  forall fuel,
    pipeAuth_for (n + fuel) proc msg w = pipeAuth_for fuel proc msg' w'.
Proof.
  induction 1 as [|n msg w msg1 w1 msg' w' Hturn _ IH]; intros fuel.
  - reflexivity.
  - cbn [Nat.add pipeAuth_for]. rewrite (bind_val _ _ _ _ _ _ _ Hturn).
    apply IH.
Qed.

Lemma pipeAuth_for_returns proc n msg w msg' w' e w'' fuel :
  turns proc n msg w msg' w' ->
  pipeAuth_turn proc msg' w' = (Val (Return e), w'') ->
  n < fuel ->
  pipeAuth_for fuel proc msg w = (Val e, w'').
Proof.
  intros Hturns Hlast Hfuel.
  replace fuel with (n + S (fuel - S n)) by lia.
  rewrite (pipeAuth_for_turns _ _ _ _ _ _ Hturns).
  cbn [pipeAuth_for]. rewrite (bind_val _ _ _ _ _ _ _ Hlast). reflexivity.
Qed.

(** From the loop of [pipeAuth] on, [Serve] is the loop, then the
    forwarding, under the two [defer]s. *)
Lemma Serve_reaching_pipeAuth fuel piper conn w d userAuthReq w' :
  reaches_pipeAuth fuel piper conn w d userAuthReq w' ->
  Serve fuel piper conn w =
    defer (Close Down)
      (defer (Close Up)
         (err <- pipeAuth_for fuel (processAuthMsg piper {| pc_downstream := d |})
                   userAuthReq ;;
          match err with
          | Some e => ret (Some e)
          | None => loop fuel
          end)) w'.
Proof.
  intros (d0 & w1 & w2 & w3 & upconn & w4 & w5 & H1 & H2 & -> & H3 & H4 & H5 & H6).
  unfold Serve. rewrite (bind_val _ _ _ _ _ _ _ H1). cbv beta iota.
  apply defer_ext.
  rewrite (bind_val _ _ _ _ _ _ _ H2). cbv beta iota zeta.
  rewrite (bind_val _ _ _ _ _ _ _ H3). cbv beta iota.
  rewrite (bind_val _ _ _ _ _ _ _ H4). cbv beta iota zeta.
  rewrite (bind_val _ _ _ _ _ _ _ H5). cbv beta iota.
  apply defer_ext.
  unfold Serve_piped, pipeAuth. cbv zeta.
  unfold bind at 1 2. rewrite H6. reflexivity.
Qed.

Lemma Serve_failing_in_pipeAuth fuel piper conn w d userAuthReq w1 n msg w2 e w3 :
  reaches_pipeAuth fuel piper conn w d userAuthReq w1 ->
  turns (processAuthMsg piper {| pc_downstream := d |}) n userAuthReq w1 msg w2 ->
  pipeAuth_turn (processAuthMsg piper {| pc_downstream := d |}) msg w2 =
    (Val (Return (Some e)), w3) ->
  n < fuel ->
  Serve fuel piper conn w = (Val (Some e), closed_both w3).
Proof.
  intros Hr Ht Hlast Hfuel.
  rewrite (Serve_reaching_pipeAuth _ _ _ _ _ _ _ Hr).
  assert (H := pipeAuth_for_returns _ _ _ _ _ _ _ _ _ Ht Hlast Hfuel).
  erewrite defer_val; [reflexivity|].
  erewrite defer_val; [reflexivity|].
  rewrite (bind_val _ _ _ _ _ _ _ H). reflexivity.
Qed.

Lemma Serve_failing_in_FindUpstream fuel piper conn w d w' e :
  reaches_FindUpstream fuel piper conn w d w' ->
  FindUpstream piper d = Err e ->
  Serve fuel piper conn w =
    (Val (Some e), log (EvClose Down) (log (EvFindUpstream (Some e)) w')).
Proof.
  intros (d0 & w1 & userAuthReq & w2 & H1 & H2 & -> & H3) Hf.
  unfold Serve. rewrite (bind_val _ _ _ _ _ _ _ H1). cbv beta iota.
  erewrite defer_val; [reflexivity|].
  rewrite (bind_val _ _ _ _ _ _ _ H2). cbv beta iota zeta.
  rewrite (bind_val _ _ _ _ _ _ _ H3). cbv beta iota.
  unfold call_FindUpstream. rewrite Hf. reflexivity.
Qed.


End Session.



(** ** The user files of [sshpiperd] *)

Section Userfiles.
Context {L : SSHLib} {sys : OS}.

Lemma check400_ok file user :
  check400 file user = None <->
  exists f mode,
    os_Open (userSpecFile user file) = Ok f /\
    File_Stat f = Ok mode /\
    Perm mode = mode0400.
Proof.
  unfold check400. split.
  - destruct (os_Open (userSpecFile user file)) as [f|e]; [|discriminate].
    destruct (File_Stat f) as [mode|e] eqn:Hs; [|discriminate].
    destruct (N.eqb_spec (Perm mode) mode0400) as [E|E]; [|discriminate].
    intros _. exists f, mode. auto.
  - intros (f & mode & -> & -> & ->). reflexivity.
Qed.

Lemma check400_too_open file user f mode :
  os_Open (userSpecFile user file) = Ok f ->
  File_Stat f = Ok mode ->
  Perm mode <> mode0400 ->
  check400 file user =
    Some (Errorf "%v's perm is too open, change it to 400"
            [userSpecFile user file]).
Proof.
  intros Ho Hs Hp. unfold check400. rewrite Ho, Hs.
  destruct (N.eqb_spec (Perm mode) mode0400); [contradiction|reflexivity].
Qed.

(** C10.  [check400] returns [nil] exactly when the file can be opened,
    its [Stat] succeeds and the permission bits of its mode are 0400.  A file of any
    other permission bits, 0000 and 0600 among them, gives the error
    "perm is too open".  An error of [check400] on [authorized_keys] makes
    [mapPublicKeyFromUserfile] return it, and the rewriter of a piper that
    maps keys with it then returns a request of method "none"; an error of
    [check400] on [sshpiper_upstream] makes [findUpstreamFromUserfile]
    return it, and [Serve] of a piper that finds its upstream with it
    returns that error, having closed the downstream. *)
Theorem check400_wants_exactly_0400 (file : userFile) (user : string) :
  (check400 file user = None <->
   exists f mode,
     os_Open (userSpecFile user file) = Ok f /\
     File_Stat f = Ok mode /\
     Perm mode = mode0400) /\
  (forall f mode,
      os_Open (userSpecFile user file) = Ok f ->
      File_Stat f = Ok mode ->
      Perm mode <> mode0400 ->
      check400 file user =
        Some (Errorf "%v's perm is too open, change it to 400"
                [userSpecFile user file])) /\
  Perm 0 <> mode0400 /\
  Perm 384 <> mode0400 /\
  (forall fuel conn key e,
      check400 UserAuthorizedKeysFile (cm_User conn) = Some e ->
      mapPublicKeyFromUserfile fuel conn key = Val (None, Some e)) /\
  (forall fuel piper p msg downKey isQuery sig e w,
      MapPublicKey piper = mapPublicKeyFromUserfile fuel ->
      Method msg = "publickey" ->
      parsePublicKeyMsg msg = Ok (downKey, isQuery, sig) ->
      check400 UserAuthorizedKeysFile (cm_User (pc_downstream p)) = Some e ->
      processAuthMsg piper p msg w =
        (Val (Some (noneAuthMsg (User msg)), None), w)) /\
  (forall conn e,
      check400 UserUpstreamFile (cm_User conn) = Some e ->
      findUpstreamFromUserfile conn = Err e) /\
  (forall fuel piper conn w d w' e,
      FindUpstream piper = findUpstreamFromUserfile ->
      reaches_FindUpstream fuel piper conn w d w' ->
      check400 UserUpstreamFile (cm_User d) = Some e ->
      Serve fuel piper conn w =
        (Val (Some e), log (EvClose Down) (log (EvFindUpstream (Some e)) w'))).
Proof.
  assert (Hmap : forall fuel conn key e,
             check400 UserAuthorizedKeysFile (cm_User conn) = Some e ->
             mapPublicKeyFromUserfile fuel conn key = Val (None, Some e)).
  { intros fuel conn key e H. unfold mapPublicKeyFromUserfile. rewrite H.
    reflexivity. }
  assert (Hfind : forall conn e,
             check400 UserUpstreamFile (cm_User conn) = Some e ->
             findUpstreamFromUserfile conn = Err e).
  { intros conn e H. unfold findUpstreamFromUserfile. rewrite H. reflexivity. }
  split; [apply check400_ok|]. split; [apply check400_too_open|].
  split; [discriminate|]. split; [discriminate|].
  split; [exact Hmap|]. split; [|split; [exact Hfind|]].
  - intros fuel piper p msg downKey isQuery sig e w HM Hm Hp Hc.
    apply (processAuthMsg_unmapped piper p msg w downKey isQuery sig None (Some e));
      try assumption.
    + rewrite HM. apply Hmap. exact Hc.
    + left; reflexivity.
  - intros fuel piper conn w d w' e HF Hr Hc.
    apply Serve_failing_in_FindUpstream with (d := d); [assumption|].
    rewrite HF. apply Hfind. exact Hc.
Qed.

End Userfiles.

(** The files of [alice] have mode 0600: the user of a session cannot be
    given an upstream. *)
Lemma check400_wants_exactly_0400_witness :
  fst (Serve 1 (piper_of_main (sys := Disk.os (Sample.disk 384)) 4)
         Sample.client (Sample.world [Sample.packet Sample.query] [])) =
  Val (Some (Errorf "%v's perm is too open, change it to 400"
               ["/var/sshpiper/alice/sshpiper_upstream"])).
Proof.
  pose (w0 := Sample.world [Sample.packet Sample.query] []).
  pose (w1 := snd (nextAuthMsg w0)).
  refine (f_equal fst
    (proj2 (proj2 (proj2 (proj2 (proj2 (proj2 (proj2
       (check400_wants_exactly_0400 (L:=Wire.lib)
          (sys := Disk.os (Sample.disk 384)) UserUpstreamFile "alice")))))))
       1 (piper_of_main (sys := Disk.os (Sample.disk 384)) 4)
       Sample.client w0 (pc_downstream Sample.pipe) w1
       (Errorf "%v's perm is too open, change it to 400"
          ["/var/sshpiper/alice/sshpiper_upstream"]) eq_refl _ _)).
  - exists {| cm_User := ""; cm_RemoteAddr := RemoteAddr Sample.client;
              cm_SessionID := Sample.sidDown |}, w0, Sample.query, w1.
    repeat split; vm_compute; reflexivity.
  - vm_compute; reflexivity.
Defined.

(** Goals [forall e, f e = true -> ...] about the kinds of events. *)
Ltac by_events :=
  let e := fresh "e" in
  let E := fresh "E" in
  intros e E;
  destruct e as [[] ?|[] ? ?|[]|? ?|?|? ? ? ?|? ?|];
  try discriminate E; auto.

(** ** The trace of a whole session *)

(** Proves [emits Q' m] from a lemma [emits Q m], [Q] being stronger. *)
Ltac by_weakening lem :=
  eapply emits_weaken; [|apply lem];
  let e := fresh "e" in
  cbv beta; intros ? e;
  destruct e as [[] ?|[] ? ?|[]|? ?|?|? ? ? ?|? ?|]; simpl;
  intuition (try discriminate; auto).

Section Traces.
Context {L : SSHLib}.

(** As [emits_steps], for the events of the authentication phase; the
    verification and the signature are not taken apart. *)
Ltac auth_steps :=
  repeat first
    [ match goal with
      | |- emits _ (checkPublicKey ?p ?msg ?k ?sig) =>
          by_weakening (emits_checkPublicKey p msg k sig)
      | |- emits _ (signAgain ?p ?msg ?s ?k) =>
          by_weakening (emits_signAgain p msg s k)
      | |- authQ _ _ => split; [reflexivity|first [exact I|assumption]]
      end
    | emits_step ].

Lemma emits_nextAuthMsg : emits (fun _ e => down_io e = true) nextAuthMsg.
Proof. emits_steps; reflexivity. Qed.

Lemma emits_processAuthMsg piper p msg : emits authQ (processAuthMsg piper p msg).
Proof. unfold processAuthMsg. auth_steps. Qed.

Lemma emits_pipeAuth_turn piper p msg :
  emits authQ (pipeAuth_turn (processAuthMsg piper p) msg).
Proof.
  unfold pipeAuth_turn. apply emits_bind; [apply emits_processAuthMsg|].
  intros. auth_steps.
Qed.

Lemma emits_pipeAuth_for fuel piper p msg :
  emits authQ (pipeAuth_for fuel (processAuthMsg piper p) msg).
Proof.
  revert msg. induction fuel as [|fuel IH]; intros msg; cbn [pipeAuth_for].
  - apply emits_out_of_fuel.
  - apply emits_bind; [apply emits_pipeAuth_turn|].
    intros [|]; [apply emits_ret|apply IH].
Qed.

Lemma emits_pipeAuth fuel piper p msg :
  emits authQ (pipeAuth fuel (processAuthMsg piper p) msg).
Proof.
  unfold pipeAuth. apply emits_bind; [auth_steps|].
  intros [|]; [apply emits_ret|apply emits_pipeAuth_for].
Qed.

Lemma emits_piping_step dst src c :
  emits (fun _ e => packet_io e = true) (piping_step dst src c).
Proof. unfold piping_step. emits_steps; reflexivity. Qed.

Lemma emits_forward fuel a b :
  emits (fun _ e => packet_io e = true) (forward fuel a b).
Proof.
  revert a b. induction fuel as [|fuel IH]; intros a b; cbn [forward].
  - apply emits_out_of_fuel.
  - apply emits_bind; [apply emits_next_scheduled|].
    intros [|]; (apply emits_bind; [apply emits_piping_step|]);
      intros [|]; first [apply IH|apply emits_ret].
Qed.

Lemma emits_coerce fuel : emits (fun _ e => down_io e = true) (coerce fuel).
Proof.
  induction fuel as [|fuel IH]; cbn [coerce].
  - apply emits_out_of_fuel.
  - apply emits_bind; [emits_steps; reflexivity|].
    intros [|]; [apply emits_ret|].
    apply emits_bind; [apply emits_nextAuthMsg|].
    intros [req|]; [|apply emits_ret].
    destruct (Method req =? "keyboard-interactive"); [apply emits_ret|apply IH].
Qed.

Lemma emits_Challenge user instruction questions echos :
  emits (fun _ e => down_io e = true)
    (Challenge user instruction questions echos).
Proof. emits_steps; reflexivity. Qed.

Lemma emits_call_AdditionalChallenge c :
  emits (fun _ e => gate_io e = true) (call_AdditionalChallenge c).
Proof.
  induction c as [ok err|user instruction questions echos k IH];
    cbn [call_AdditionalChallenge].
  - emits_steps. reflexivity.
  - apply emits_bind.
    + by_weakening (emits_Challenge user instruction questions echos).
    + intros [answers err]. apply IH.
Qed.

Lemma emits_additional_challenge fuel piper d :
  emits (fun _ e => gate_io e = true) (additional_challenge fuel piper d).
Proof.
  unfold additional_challenge.
  destruct (AdditionalChallenge piper) as [challenger|]; [|apply emits_ret].
  apply emits_bind.
  - by_weakening (emits_coerce fuel).
  - intros [e|]; [apply emits_ret|].
    apply emits_bind; [apply emits_call_AdditionalChallenge|].
    intros [ok [e|]]; [|destruct ok]; apply emits_ret.
Qed.

Lemma emits_loop fuel :
  emits (fun _ e => is_crypto e = false) (loop fuel).
Proof.
  unfold loop. apply emits_bind; [emits_steps; reflexivity|]. intros _.
  apply emits_defer; [|emits_steps; reflexivity].
  apply emits_bind; [|intros; apply emits_ret].
  by_weakening (emits_forward fuel Reading Reading).
Qed.

End Traces.

Section Shapes.
Context {L : SSHLib}.

Lemma coerce_run fuel : forall w r w',
  coerce fuel w = (r, w') ->
  r <> OutOfFuel ->
  exists v tr, r = Val v /\ trace w' = trace w ++ tr /\ coerced tr v.
Proof.
  induction fuel as [|fuel IH]; intros w r w' H Hr; cbn [coerce] in H.
  - injection H as <- _. contradiction.
  - destruct (writePacket_run Down failureKI w) as (e & w1 & Hw & T1 & _).
    unfold failureKI in Hw. rewrite (bind_val _ _ _ _ _ _ _ Hw) in H.
    destruct e as [e|].
    { injection H as <- <-. exists (Some e). eexists.
      split; [reflexivity|]. split; [exact T1|]. constructor. }
    destruct (nextAuthMsg_run w1) as (r0 & w2 & _ & T2 & _ & Hn).
    rewrite (bind_val _ _ _ _ _ _ _ Hn) in H.
    destruct r0 as [p|e].
    + destruct (decode p) as [req|e] eqn:Hd.
      * destruct (String.eqb_spec (Method req) "keyboard-interactive") as [E|E].
        { injection H as <- <-. exists None. eexists.
          split; [reflexivity|]. split; [trace_eq|].
          eapply coerced_done; eassumption. }
        { destruct (IH _ _ _ H Hr) as (v & tr & -> & T3 & C).
          exists v. eexists. split; [reflexivity|]. split; [trace_eq|].
          eapply coerced_again; eassumption. }
      * injection H as <- <-. exists (Some e). eexists.
        split; [reflexivity|]. split; [trace_eq|].
        apply coerced_bad_packet. exact Hd.
    + injection H as <- <-. exists (Some e). eexists.
      split; [reflexivity|]. split; [trace_eq|]. constructor.
Qed.

Lemma coerced_down_io tr v :
  coerced tr v -> Forall (fun e => down_io e = true) tr.
Proof. induction 1; repeat constructor; assumption. Qed.

Lemma Challenge_run user instruction questions echos w :
  exists a w' tr,
    Challenge user instruction questions echos w = (Val a, w') /\
    trace w' = trace w ++ tr /\
    Forall (fun e => down_io e = true) tr.
Proof.
  unfold Challenge.
  destruct (writePacket_run Down
              (Marshal (MUserAuthInfoRequest user instruction questions echos)) w)
    as (e & w1 & Hw & T1 & _).
  rewrite (bind_val _ _ _ _ _ _ _ Hw).
  destruct e as [e|].
  { do 3 eexists. split; [reflexivity|]. split; [exact T1|].
    repeat constructor. }
  destruct (readPacket_run Down w1) as (r & w2 & Hr & T2 & _).
  rewrite (bind_val _ _ _ _ _ _ _ Hr).
  destruct r as [p|e]; [destruct (Unmarshal_userAuthInfoResponse p)|];
    (do 3 eexists; split; [reflexivity|]; split; [trace_eq|];
     repeat constructor).
Qed.

Lemma call_AdditionalChallenge_run c : forall w,
  exists ok err trq w',
    call_AdditionalChallenge c w = (Val (ok, err), w') /\
    trace w' = trace w ++ trq ++ [EvChallenge ok err] /\
    Forall (fun e => down_io e = true) trq.
Proof.
  induction c as [ok err|user instruction questions echos k IH]; intros w.
  - exists ok, err, [], (log (EvChallenge ok err) w).
    split; [reflexivity|]. split; [reflexivity|constructor].
  - cbn [call_AdditionalChallenge].
    destruct (Challenge_run user instruction questions echos w)
      as ([answers err] & w1 & tr1 & Hc & T1 & Q1).
    rewrite (bind_val _ _ _ _ _ _ _ Hc).
    destruct (IH answers err w1) as (ok & err' & trq & w' & Hk & T2 & Q2).
    exists ok, err', (tr1 ++ trq), w'.
    split; [exact Hk|]. split; [rewrite T2, T1, <- !app_assoc; reflexivity|].
    apply Forall_app; auto.
Qed.

Lemma additional_challenge_run fuel piper d w r w' :
  additional_challenge fuel piper d w = (r, w') ->
  r <> OutOfFuel ->
  exists v tr, r = Val v /\ trace w' = trace w ++ tr /\ gate piper v tr.
Proof.
  unfold additional_challenge. intros H Hr.
  destruct (AdditionalChallenge piper) as [challenger|] eqn:Hc.
  - destruct (coerce fuel w) as [rc w1] eqn:Hco.
    assert (Hrc : rc <> OutOfFuel).
    { intros ->. rewrite (bind_out_of_fuel _ _ _ _ _ _ Hco) in H.
      injection H as <- _. contradiction. }
    destruct (coerce_run _ _ _ _ Hco Hrc) as (v & trc & -> & T1 & C).
    rewrite (bind_val _ _ _ _ _ _ _ Hco) in H.
    destruct v as [e|].
    { injection H as <- <-. exists (Some e), trc.
      split; [reflexivity|]. split; [exact T1|].
      apply gate_not_coerced; [rewrite Hc; discriminate|exact C]. }
    destruct (call_AdditionalChallenge_run (challenger d) w1)
      as (ok & err & trq & w2 & Hk & T2 & Q2).
    rewrite (bind_val _ _ _ _ _ _ _ Hk) in H.
    exists (verdict ok err), (trc ++ trq ++ [EvChallenge ok err]).
    split; [|split].
    + destruct err as [e|]; [|destruct ok]; injection H as <- _; reflexivity.
    + destruct err as [e|]; [|destruct ok]; injection H as _ <-;
        rewrite T2, T1, <- !app_assoc; reflexivity.
    + apply gate_answered; [rewrite Hc; discriminate|exact C|exact Q2].
  - injection H as <- <-. exists None, [].
    split; [reflexivity|]. split; [symmetry; apply app_nil_r|].
    apply gate_absent. exact Hc.
Qed.

Lemma loop_run fuel w r w' :
  loop fuel w = (r, w') ->
  r <> OutOfFuel ->
  exists trf,
    trace w' = trace w ++ EvForwarding :: trf ++ [EvClose Up; EvClose Down] /\
    Forall (fun e => packet_io e = true) trf.
Proof.
  intros H Hr.
  change (loop fuel w) with
    (defer pipe_Close (e <- forward fuel Reading Reading;; ret (Some e))
       (log EvForwarding w)) in H.
  unfold defer in H.
  destruct ((e <- forward fuel Reading Reading;; ret (Some e))
              (log EvForwarding w)) as [rb w2] eqn:Hb.
  assert (E : emits (fun _ e => packet_io e = true)
                (e <- forward fuel Reading Reading;; ret (Some e))).
  { apply emits_bind; [apply emits_forward|intros; apply emits_ret]. }
  destruct (emits_run _ _ _ _ _ _ E Hb) as (trf & T & Q & _).
  exists trf. split; [|exact Q].
  rewrite trace_log in T.
  destruct rb as [v|t|]; injection H as <- <-; try contradiction;
    simpl; rewrite T, <- !app_assoc; reflexivity.
Qed.

End Shapes.

Section Whole_session.
Context {L : SSHLib}.

Lemma Serve_piped_run fuel piper d userAuthReq w r w' :
  Serve_piped fuel piper d userAuthReq w = (r, w') ->
  r <> OutOfFuel ->
  exists tra,
    Forall (fun e => auth_io e = true) tra /\
    ((r <> Val None /\ trace w' = trace w ++ tra) \/
     exists trf,
       Forall (fun e => packet_io e = true) trf /\
       trace w' =
         trace w ++ tra ++ EvForwarding :: trf ++ [EvClose Up; EvClose Down]).
Proof.
  unfold Serve_piped. cbv zeta. intros H Hr.
  destruct (pipeAuth fuel (processAuthMsg piper {| pc_downstream := d |})
              userAuthReq w) as [ra w1] eqn:Ha.
  destruct (emits_run _ _ _ _ _ _ (emits_pipeAuth fuel piper _ userAuthReq) Ha)
    as (tra & T & Q & _).
  exists tra. split.
  { eapply Forall_impl; [|exact Q]. intros e [E _]. exact E. }
  destruct ra as [[e|]|t|].
  - rewrite (bind_val _ _ _ _ _ _ _ Ha) in H. injection H as <- <-.
    left. split; [discriminate|exact T].
  - rewrite (bind_val _ _ _ _ _ _ _ Ha) in H.
    destruct (loop_run _ _ _ _ H Hr) as (trf & T' & Q').
    right. exists trf. split; [exact Q'|].
    rewrite T', T, <- !app_assoc. reflexivity.
  - rewrite (bind_panic _ _ _ _ _ _ _ Ha) in H. injection H as <- <-.
    left. split; [discriminate|exact T].
  - rewrite (bind_out_of_fuel _ _ _ _ _ _ Ha) in H. injection H as <- _.
    contradiction.
Qed.

Lemma deferred_run A (fin : M unit) (m : M A) w r w' :
  defer fin m w = (r, w') ->
  r <> OutOfFuel ->
  exists w1, m w = (r, w1) /\ w' = snd (fin w1).
Proof.
  unfold defer. destruct (m w) as [[a|t|] w1]; intros [= <- <-] Hr;
    try contradiction; exists w1; auto.
Qed.

Lemma newDownstream_run conn w :
  (exists e, newDownstream conn w = (Val (Err e), log (EvClose Down) w)) \/
  (exists d, newDownstream conn w = (Val (Ok d), w)).
Proof.
  unfold newDownstream, bind, handshake_of.
  destruct (handshake (side_of Down w)) as [e|]; [left|right]; eexists;
    reflexivity.
Qed.

Lemma newUpstream_run c addr w :
  (exists e, newUpstream c addr w = (Val (Some e), log (EvClose Up) w)) \/
  newUpstream c addr w = (Val None, w).
Proof.
  unfold newUpstream, bind, handshake_of.
  destruct (handshake (side_of Up w)) as [e|]; [left; eexists|right];
    reflexivity.
Qed.

Lemma call_FindUpstream_run piper d w :
  call_FindUpstream piper d w =
    (Val (FindUpstream piper d),
     log (EvFindUpstream (match FindUpstream piper d with
                          | Ok _ => None
                          | Err e => Some e
                          end)) w).
Proof. reflexivity. Qed.

(** Every run of [Serve] that is not cut short by the fuel has one of the
    traces of [session]. *)
Lemma Serve_session fuel piper conn w r w' :
  Serve fuel piper conn w = (r, w') ->
  r <> OutOfFuel ->
  exists tr, trace w' = trace w ++ tr /\ session piper r tr.
Proof.
  unfold Serve. intros H Hr.
  destruct (newDownstream_run conn w) as [[e Hd]|[d0 Hd]];
    rewrite (bind_val _ _ _ _ _ _ _ Hd) in H.
  { injection H as <- <-. exists [EvClose Down].
    split; [reflexivity|constructor]. }
  apply deferred_run in H; [|exact Hr]. destruct H as (wb & H & ->).
  cbn [Close emit snd]. rewrite trace_log.
  destruct (nextAuthMsg_run w) as (r0 & w1 & _ & T1 & _ & Hn).
  rewrite (bind_val _ _ _ _ _ _ _ Hn) in H.
  destruct r0 as [p|e].
  2:{ injection H as <- <-. exists [EvRead Down (Err e); EvClose Down].
      split; [trace_eq|]. apply session_no_request. reflexivity. }
  destruct (decode p) as [userAuthReq|e] eqn:Hdec.
  2:{ injection H as <- <-. exists [EvRead Down (Ok p); EvClose Down].
      split; [trace_eq|]. apply session_no_request. exact Hdec. }
  cbv zeta in H.
  destruct (additional_challenge fuel piper (set_user (User userAuthReq) d0) w1)
    as [ra w2] eqn:Ha.
  assert (Hra : ra <> OutOfFuel).
  { intros ->. rewrite (bind_out_of_fuel _ _ _ _ _ _ Ha) in H.
    injection H as <- _. contradiction. }
  destruct (additional_challenge_run _ _ _ _ _ _ Ha Hra) as (v & trg & -> & T2 & G).
  rewrite (bind_val _ _ _ _ _ _ _ Ha) in H.
  destruct v as [e|].
  { injection H as <- <-. exists (EvRead Down (Ok p) :: trg ++ [EvClose Down]).
    split; [trace_eq|]. apply session_gate_shut. exact G. }
  rewrite (bind_val _ _ _ _ _ _ _ (call_FindUpstream_run _ _ _)) in H.
  destruct (FindUpstream piper (set_user (User userAuthReq) d0)) as [upconn|e].
  2:{ injection H as <- <-.
      exists (EvRead Down (Ok p) :: trg ++ [EvFindUpstream (Some e); EvClose Down]).
      split; [trace_eq|]. apply session_no_upstream. exact G. }
  destruct (newUpstream_run upconn (RemoteAddr upconn)
              (log (EvFindUpstream None) w2)) as [[e Hu]|Hu];
    rewrite (bind_val _ _ _ _ _ _ _ Hu) in H.
  { injection H as <- <-.
    exists (EvRead Down (Ok p) :: trg
              ++ [EvFindUpstream None; EvClose Up; EvClose Down]).
    split; [trace_eq|]. apply session_no_upstream_handshake. exact G. }
  apply deferred_run in H; [|exact Hr]. destruct H as (w3 & H & ->).
  cbn [Close emit snd]. rewrite trace_log.
  destruct (Serve_piped_run _ _ _ _ _ _ _ H Hr)
    as (tra & Qa & [[Hnot T3]|(trf & Qf & T3)]); rewrite trace_log in T3.
  - exists (EvRead Down (Ok p) :: trg ++ EvFindUpstream None :: tra
              ++ [EvClose Up; EvClose Down]).
    split; [rewrite T3, T2, T1; repeat (rewrite <- ?app_assoc; simpl);
            reflexivity|].
    apply session_not_authenticated; assumption.
  - exists (EvRead Down (Ok p) :: trg ++ EvFindUpstream None :: tra
              ++ EvForwarding :: trf
              ++ [EvClose Up; EvClose Down; EvClose Up; EvClose Down]).
    split; [rewrite T3, T2, T1; repeat (rewrite <- ?app_assoc; simpl);
            reflexivity|].
    apply session_forwarded; assumption.
Qed.

End Whole_session.

(** ** Errors that end the session *)

Section Fatal.
Context {L : SSHLib}.

Lemma turns_trace piper p n msg w msg' w' :
  turns (processAuthMsg piper p) n msg w msg' w' ->
  exists tr, trace w' = trace w ++ tr /\ Forall (fun e => is_close e = false) tr.
Proof.
  induction 1 as [|n msg w msg1 w1 msg' w' Hturn _ IH].
  - exists []. rewrite app_nil_r. auto.
  - destruct (emits_run _ _ _ _ _ _ (emits_pipeAuth_turn piper p msg) Hturn)
      as (tr1 & T1 & Q1 & _).
    destruct IH as (tr2 & T2 & Q2).
    exists (tr1 ++ tr2). split; [rewrite T2, T1, app_assoc; reflexivity|].
    apply Forall_app; split; [|exact Q2].
    eapply Forall_impl; [|exact Q1]. intros [] [E _]; try discriminate E; reflexivity.
Qed.

Lemma reaches_pipeAuth_trace fuel piper conn w d userAuthReq w' :
  reaches_pipeAuth fuel piper conn w d userAuthReq w' ->
  exists tr, trace w' = trace w ++ tr /\ Forall (fun e => is_close e = false) tr.
Proof.
  intros (d0 & w1 & w2 & w3 & upconn & w4 & w5 & H1 & H2 & -> & H3 & H4 & H5 & H6).
  assert (E1 : w1 = w).
  { destruct (newDownstream_run conn w) as [[e E]|[d' E]];
      rewrite E in H1; [discriminate|]. injection H1 as _ <-. reflexivity. }
  subst w1.
  destruct (emits_run _ _ _ _ _ _ emits_nextAuthMsg H2) as (tr2 & T2 & Q2 & _).
  destruct (emits_run _ _ _ _ _ _ (emits_additional_challenge fuel piper _) H3)
    as (tr3 & T3 & Q3 & _).
  rewrite call_FindUpstream_run in H4. injection H4 as H4 <-.
  assert (E5 : w5 = log (EvFindUpstream
                           (match FindUpstream piper
                                    (set_user (User userAuthReq) d0) with
                            | Ok _ => None
                            | Err e => Some e
                            end)) w3).
  { destruct (newUpstream_run upconn (RemoteAddr upconn)
                (log (EvFindUpstream
                        (match FindUpstream piper
                                 (set_user (User userAuthReq) d0) with
                         | Ok _ => None
                         | Err e => Some e
                         end)) w3)) as [[e E]|E];
      rewrite E in H5; [discriminate|]. injection H5 as <-. reflexivity. }
  assert (S6 : emits (fun _ e => packet_io e = true) sendAuthReq)
    by (emits_steps; reflexivity).
  destruct (emits_run _ _ _ _ _ _ S6 H6) as (tr6 & T6 & Q6 & _).
  subst w5. rewrite trace_log in T6.
  eexists. split; [rewrite T6, T3, T2, <- !app_assoc; reflexivity|].
  apply Forall_app; split;
    [eapply Forall_impl; [|exact Q2]; by_events|].
  apply Forall_app; split;
    [eapply Forall_impl; [|exact Q3]; by_events|].
  constructor; [reflexivity|].
  eapply Forall_impl; [|exact Q6]; by_events.
Qed.

(** C8.  A publickey request with an empty payload: [parsePublicKeyMsg]
    returns the parse error of USERAUTH_REQUEST (it looks at no byte of
    the payload), [processAuthMsg] returns that error, and the error ends
    the session: the loop of [pipeAuth] returns it at the turn it meets the
    request, [pipeAuth] and [Serve] return it, and [Serve] has then closed
    the upstream and the downstream, once each. *)
Theorem empty_publickey_payload_is_fatal (msg : userAuthRequestMsg) :
  Method msg = "publickey" ->
  Payload msg = [] ->
  let err := parseError msgUserAuthRequest in
  parsePublicKeyMsg msg = Err err /\
  (forall piper p w,
      processAuthMsg piper p msg w = (Val (None, Some err), w)) /\
  (forall piper p w fuel,
      pipeAuth_for (S fuel) (processAuthMsg piper p) msg w = (Val (Some err), w)) /\
  (forall piper p fuel n userAuthReq w0 w1 w,
      sendAuthReq w0 = (Val None, w1) ->
      turns (processAuthMsg piper p) n userAuthReq w1 msg w ->
      n < fuel ->
      pipeAuth fuel (processAuthMsg piper p) userAuthReq w0 = (Val (Some err), w)) /\
  (forall fuel piper conn w0 d userAuthReq w1 n w,
      reaches_pipeAuth fuel piper conn w0 d userAuthReq w1 ->
      turns (processAuthMsg piper {| pc_downstream := d |}) n userAuthReq w1 msg w ->
      n < fuel ->
      Serve fuel piper conn w0 = (Val (Some err), closed_both w) /\
      exists tr,
        trace (closed_both w) = trace w0 ++ tr /\
        closes Up tr = 1 /\ closes Down tr = 1).
Proof.
  intros Hm Hp err.
  assert (Hparse : parsePublicKeyMsg msg = Err err).
  { unfold parsePublicKeyMsg. rewrite Hm, Hp. reflexivity. }
  assert (Hhook : forall piper p w,
             processAuthMsg piper p msg w = (Val (None, Some err), w)).
  { intros. apply processAuthMsg_parse_error; assumption. }
  assert (Hturn : forall piper p w,
             pipeAuth_turn (processAuthMsg piper p) msg w =
               (Val (Return (Some err)), w)).
  { intros. apply (pipeAuth_turn_error _ _ _ None). apply Hhook. }
  split; [exact Hparse|]. split; [exact Hhook|]. split; [|split].
  - intros. cbn [pipeAuth_for]. rewrite (bind_val _ _ _ _ _ _ _ (Hturn _ _ _)).
    reflexivity.
  - intros piper p fuel n userAuthReq w0 w1 w Hs Ht Hfuel.
    unfold pipeAuth. rewrite (bind_val _ _ _ _ _ _ _ Hs). cbv beta iota.
    exact (pipeAuth_for_returns _ _ _ _ _ _ _ _ _ Ht (Hturn _ _ _) Hfuel).
  - intros fuel piper conn w0 d userAuthReq w1 n w Hr Ht Hfuel.
    split; [exact (Serve_failing_in_pipeAuth _ _ _ _ _ _ _ _ _ _ _ _
                     Hr Ht (Hturn _ _ _) Hfuel)|].
    destruct (reaches_pipeAuth_trace _ _ _ _ _ _ _ Hr) as (tr1 & T1 & Q1).
    destruct (turns_trace _ _ _ _ _ _ _ Ht) as (tr2 & T2 & Q2).
    exists (tr1 ++ tr2 ++ [EvClose Up; EvClose Down]).
    split; [unfold closed_both; rewrite !trace_log, T2, T1, <- !app_assoc;
            reflexivity|].
    rewrite !closes_app, !(closes_none _ _ Q1), !(closes_none _ _ Q2).
    split; reflexivity.
Qed.

End Fatal.

(** A session whose first request is a publickey request with no
    payload. *)
Lemma empty_publickey_payload_is_fatal_witness :
  exists w,
    Serve 1 (Sample.piper (Some Sample.signer)) Sample.client
      (Sample.world [Sample.packet Sample.empty] [Sample.serviceAccept]) =
    (Val (Some (parseError msgUserAuthRequest)), closed_both w).
Proof.
  pose (w0 := Sample.world [Sample.packet Sample.empty] [Sample.serviceAccept]).
  pose (w1 := snd (nextAuthMsg w0)).
  pose (w2 := snd (call_FindUpstream (Sample.piper (Some Sample.signer))
                     (pc_downstream Sample.pipe) w1)).
  pose (w3 := snd (sendAuthReq w2)).
  exists w3.
  refine (proj1 (proj2 (proj2 (proj2 (proj2
    (empty_publickey_payload_is_fatal (L:=Wire.lib) Sample.empty
       eq_refl eq_refl))))
    1 (Sample.piper (Some Sample.signer)) Sample.client w0
    (pc_downstream Sample.pipe) Sample.empty w3 0 w3 _ _ _)).
  - exists {| cm_User := ""; cm_RemoteAddr := RemoteAddr Sample.client;
              cm_SessionID := Sample.sidDown |}, w0, w1, w1, Sample.backend, w2, w2.
    repeat split; vm_compute; reflexivity.
  - apply turns_here.
  - apply Nat.lt_0_1.
Defined.


(** ** Enough fuel: [Serve] returns *)

Lemma readPacket_consumes s w p w' :
  readPacket s w = (Val (Ok p), w') -> unread s w = S (unread s w').
Proof.
  unfold readPacket, unread.
  destruct (rx (side_of s w)) as [|r rest] eqn:E; intros [= -> <-].
  destruct s; reflexivity.
Qed.

(** Proves [emits (fun _ _ => True) m] from a lemma [emits Q m]. *)
Ltac any_events lem := eapply emits_weaken; [|apply lem]; exact (fun _ _ _ => I).

Section Fuel.
Context {L : SSHLib}.

Lemma returns_bind A B n (m : M A) (k : A -> M B) :
  emits (fun _ _ => True) m ->
  returns n m -> (forall a, returns n (k a)) -> returns n (bind m k).
Proof.
  intros He Hm Hk w Hw. unfold bind.
  specialize (Hm w Hw). destruct (He w) as ((_ & D & U) & _).
  destruct (m w) as [[a|t|] w1]; simpl in *; try discriminate; try contradiction.
  apply Hk. lia.
Qed.

Lemma returns_defer A n (fin : M unit) (m : M A) :
  returns n m -> returns n (defer fin m).
Proof.
  intros Hm w Hw. unfold defer. specialize (Hm w Hw).
  destruct (m w) as [[a|t|] w1]; simpl in *; try discriminate; contradiction.
Qed.

Lemma returns_val A n (m : M A) :
  (forall w, exists a, fst (m w) = Val a) -> returns n m.
Proof. intros H w _. destruct (H w) as (a & ->). discriminate. Qed.

Lemma returns_panic A n t : returns n (@panic A t).
Proof. intros w _. discriminate. Qed.

Lemma returns_ret A n (a : A) : returns n (ret a).
Proof. apply returns_val. intros w. exists a. reflexivity. Qed.

Lemma returns_write n s p : returns n (writePacket s p).
Proof.
  apply returns_val. intros w.
  destruct (writePacket_run s p w) as (e & w' & -> & _). simpl; eauto.
Qed.

Lemma returns_read n s : returns n (readPacket s).
Proof.
  apply returns_val. intros w.
  destruct (readPacket_run s w) as (r & w' & -> & _). simpl; eauto.
Qed.

Lemma returns_nextAuthMsg n : returns n nextAuthMsg.
Proof.
  apply returns_val. intros w.
  destruct (nextAuthMsg_run w) as (r & w' & _ & _ & _ & ->). simpl; eauto.
Qed.

Lemma returns_validateKey n key user : returns n (validateKey key user Up).
Proof.
  unfold validateKey.
  apply returns_bind; [emits_steps; exact I|apply returns_write|].
  intros [e|]; [apply returns_ret|].
  apply returns_bind; [emits_steps; exact I|apply returns_read|].
  intros [[|b rest]|e]; try apply returns_ret.
  destruct (Byte.eqb b msgUserAuthPubKeyOk); [apply returns_ret|].
  destruct (Byte.eqb b msgUserAuthFailure); apply returns_ret.
Qed.

Lemma returns_validAndAck n p upKey downKey :
  returns n (validAndAck p upKey downKey).
Proof.
  unfold validAndAck. cbv zeta.
  apply returns_bind;
    [unfold validateKey; emits_steps; exact I|apply returns_validateKey|].
  intros [[|] verr]; [|apply returns_ret].
  apply returns_bind; [emits_steps; exact I|apply returns_write|].
  intros [e|]; apply returns_ret.
Qed.

Lemma returns_checkPublicKey n p msg pubkey sig :
  returns n (checkPublicKey p msg pubkey sig).
Proof.
  destruct sig as [sig|]; [|apply returns_panic].
  intros w _. rewrite checkPublicKey_run.
  destruct (isAcceptableAlgo (Format sig)); discriminate.
Qed.

Lemma returns_signAgain n p msg signer downKey :
  returns n (signAgain p msg signer downKey).
Proof.
  intros w _. destruct (signAgain_run p msg signer downKey w) as (_ & H).
  destruct (signer_Sign signer _ _); [destruct H as (m & ->)|rewrite H];
    discriminate.
Qed.

Lemma returns_processAuthMsg n piper p msg :
  (forall d key, MapPublicKey piper d key <> OutOfFuel) ->
  returns n (processAuthMsg piper p msg).
Proof.
  intros Hmap. unfold processAuthMsg.
  destruct (negb (Method msg =? "publickey")); [apply returns_ret|]. cbv zeta.
  destruct (parsePublicKeyMsg msg) as [[[downKey isQuery] sig]|e];
    [|apply returns_ret].
  apply returns_bind; [apply emits_call|intros w _; apply Hmap|].
  intros [[signer|] err]; [|apply returns_ret].
  destruct err as [e0|]; [apply returns_ret|]. cbn [isSome]. cbv iota.
  destruct isQuery.
  - apply returns_bind;
      [unfold validAndAck, validateKey; emits_steps; exact I
      |apply returns_validAndAck|].
    intros [m [e|]]; apply returns_ret.
  - apply returns_bind;
      [any_events (emits_checkPublicKey p msg downKey sig)
      |apply returns_checkPublicKey|].
    intros [ok [e|]]; [apply returns_ret|].
    destruct (negb ok); [apply returns_ret|].
    apply returns_bind;
      [any_events (emits_signAgain p msg signer downKey)
      |apply returns_signAgain|].
    intros [m e]. apply returns_ret.
Qed.

End Fuel.

Section Loops.
Context {L : SSHLib}.

Lemma coerce_total fuel : forall w,
  unread Down w < fuel -> fst (coerce fuel w) <> OutOfFuel.
Proof.
  induction fuel as [|fuel IH]; intros w Hw; [lia|]. cbn [coerce].
  destruct (writePacket_run Down
              (Marshal (MUserAuthFailure
                          {| Methods := ["keyboard-interactive"];
                             PartialSuccess := false |})) w)
    as (e & w1 & Hwr & _ & _ & D & _).
  rewrite (bind_val _ _ _ _ _ _ _ Hwr).
  destruct e as [e|]; [discriminate|].
  destruct (nextAuthMsg_run w1) as (r & w2 & Hr & _ & _ & Hn).
  rewrite (bind_val _ _ _ _ _ _ _ Hn).
  destruct r as [p|e]; [|discriminate].
  destruct (decode p) as [req|e]; [|discriminate].
  destruct (Method req =? "keyboard-interactive"); [discriminate|].
  apply IH. apply readPacket_consumes in Hr.
  unfold unread in *. simpl in *. rewrite D in Hr. lia.
Qed.

Lemma pipeAuth_next_progress w :
  exists t w',
    pipeAuth_next w = (Val t, w') /\
    steady w w' /\
    (forall m, t = Continue m -> unread Down w' < unread Down w).
Proof.
  destruct (pipeAuth_next_run w) as (r & w' & Hr & _ & _ & ->).
  eexists; exists w'. split; [reflexivity|]. split.
  - assert (S := readPacket_steady Down w). rewrite Hr in S. exact S.
  - intros m Hm. destruct r as [p|e]; [|discriminate].
    apply readPacket_consumes in Hr. lia.
Qed.

Lemma pipeAuth_turn_progress piper p msg w r w' :
  (forall d key, MapPublicKey piper d key <> OutOfFuel) ->
  pipeAuth_turn (processAuthMsg piper p) msg w = (r, w') ->
  r <> OutOfFuel /\
  (forall m, r = Val (Continue m) -> unread Down w' < unread Down w).
Proof.
  intros Hmap. unfold pipeAuth_turn.
  destruct (processAuthMsg piper p msg w) as [rp w1] eqn:Hp.
  assert (Hrp := returns_processAuthMsg _ piper p msg Hmap w (Nat.le_refl _)).
  rewrite Hp in Hrp. cbn [fst] in Hrp.
  destruct (emits_run _ _ _ _ _ _ (emits_processAuthMsg piper p msg) Hp)
    as (_ & _ & _ & (_ & D1 & _)).
  destruct rp as [[m err]|t|]; [| |contradiction].
  2:{ rewrite (bind_panic _ _ _ _ _ _ _ Hp). intros [= <- <-].
      split; [discriminate|]. intros m [=]. }
  rewrite (bind_val _ _ _ _ _ _ _ Hp).
  destruct err as [e|].
  { intros [= <- <-]. split; [discriminate|]. intros m' [=]. }
  destruct m as [req|].
  2:{ destruct (pipeAuth_next_progress w1) as (t & w2 & -> & _ & P).
      intros [= <- <-]. split; [discriminate|].
      intros m [= ->]. specialize (P m eq_refl). lia. }
  destruct (writePacket_run Up (Marshal (MUserAuthRequest req)) w1)
    as (e & w2 & Hw & _ & _ & D2 & _).
  rewrite (bind_val _ _ _ _ _ _ _ Hw).
  destruct e as [e|].
  { intros [= <- <-]. split; [discriminate|]. intros m' [=]. }
  destruct (readPacket_run Up w2) as (r0 & w3 & Hr & _).
  assert (S3 := readPacket_steady Up w2). rewrite Hr in S3.
  destruct S3 as (_ & D3 & _). cbn [snd] in D3.
  rewrite (bind_val _ _ _ _ _ _ _ Hr).
  destruct r0 as [[|b0 rest]|e];
    try (intros [= <- <-]; split; [discriminate|]; intros m' [=]).
  destruct (writePacket_run Down (b0 :: rest) w3)
    as (e & w4 & Hw4 & _ & _ & D4 & _).
  rewrite (bind_val _ _ _ _ _ _ _ Hw4).
  destruct e as [e|];
    [|destruct (Byte.eqb b0 msgUserAuthSuccess)];
    try (intros [= <- <-]; split; [discriminate|]; intros m' [=]).
  destruct (pipeAuth_next_progress w4) as (t & w5 & -> & _ & P).
  intros [= <- <-]. split; [discriminate|].
  intros m [= ->]. specialize (P m eq_refl).
  unfold unread in *. simpl in *. rewrite D4 in P. rewrite D2 in D3. lia.
Qed.

Lemma pipeAuth_for_total piper p :
  (forall d key, MapPublicKey piper d key <> OutOfFuel) ->
  forall fuel msg w,
    unread Down w < fuel ->
    fst (pipeAuth_for fuel (processAuthMsg piper p) msg w) <> OutOfFuel.
Proof.
  intros Hmap. induction fuel as [|fuel IH]; intros msg w Hw; [lia|].
  cbn [pipeAuth_for].
  destruct (pipeAuth_turn (processAuthMsg piper p) msg w) as [r w1] eqn:Ht.
  destruct (pipeAuth_turn_progress _ _ _ _ _ _ Hmap Ht) as (Hr & P).
  unfold bind. rewrite Ht.
  destruct r as [[e|m]|t|]; try discriminate; [|contradiction].
  apply IH. specialize (P m eq_refl). lia.
Qed.

Lemma piping_step_progress dst src c w :
  exists r w',
    piping_step dst src c w = (Val r, w') /\
    forall c',
      r = inl c' ->
      2 * (unread Down w' + unread Up w') + holding c' <
      2 * (unread Down w + unread Up w) + holding c.
Proof.
  destruct c as [|p]; cbn [piping_step holding].
  - destruct (readPacket_run src w) as (r & w1 & Hr & _).
    assert (S1 := readPacket_steady src w). rewrite Hr in S1.
    destruct S1 as (_ & D1 & U1). cbn [snd] in D1, U1.
    rewrite (bind_val _ _ _ _ _ _ _ Hr).
    destruct r as [p|e]; eexists; eexists; (split; [reflexivity|]);
      intros c' [= <-].
    apply readPacket_consumes in Hr. cbn [holding]. destruct src; lia.
  - destruct (writePacket_run dst p w) as (e & w1 & Hw & _ & _ & D & U).
    rewrite (bind_val _ _ _ _ _ _ _ Hw).
    destruct e as [e|]; eexists; eexists; (split; [reflexivity|]);
      intros c' [= <-].
    unfold unread. simpl. rewrite D, U. cbn [holding]. lia.
Qed.

Lemma forward_total fuel : forall a b w,
  2 * (unread Down w + unread Up w) + holding a + holding b < fuel ->
  fst (forward fuel a b w) <> OutOfFuel.
Proof.
  induction fuel as [|fuel IH]; intros a b w Hw; [lia|]. cbn [forward].
  unfold bind at 1. unfold next_scheduled.
  set (w0 := {| downstream := downstream w; upstream := upstream w;
                schedule := tl (schedule w); trace := trace w |}).
  assert (E : unread Down w0 = unread Down w /\ unread Up w0 = unread Up w)
    by (split; reflexivity).
  destruct E as (ED & EU).
  destruct (hd Down (schedule w)).
  - destruct (piping_step_progress Up Down a w0) as (r & w1 & Hp & P).
    rewrite (bind_val _ _ _ _ _ _ _ Hp).
    destruct r as [c|e]; [|discriminate].
    apply IH. specialize (P c eq_refl). lia.
  - destruct (piping_step_progress Down Up b w0) as (r & w1 & Hp & P).
    rewrite (bind_val _ _ _ _ _ _ _ Hp).
    destruct r as [c|e]; [|discriminate].
    apply IH. specialize (P c eq_refl). lia.
Qed.

End Loops.

Section Enough_fuel.
Context {L : SSHLib}.

Lemma returns_coerce n fuel : n < fuel -> returns n (coerce fuel).
Proof. intros H w Hw. apply coerce_total. lia. Qed.

Lemma returns_pipeAuth_for n fuel piper p msg :
  (forall d key, MapPublicKey piper d key <> OutOfFuel) ->
  n < fuel ->
  returns n (pipeAuth_for fuel (processAuthMsg piper p) msg).
Proof. intros Hmap H w Hw. apply pipeAuth_for_total; [exact Hmap|lia]. Qed.

Lemma returns_forward n fuel :
  2 * n < fuel -> returns n (forward fuel Reading Reading).
Proof. intros H w Hw. apply forward_total. cbn [holding]. lia. Qed.

Lemma returns_call_AdditionalChallenge n c :
  returns n (call_AdditionalChallenge c).
Proof.
  apply returns_val. intros w.
  destruct (call_AdditionalChallenge_run c w) as (ok & err & trq & w' & -> & _).
  simpl; eauto.
Qed.

Lemma returns_additional_challenge n fuel piper d :
  n < fuel -> returns n (additional_challenge fuel piper d).
Proof.
  intros H. unfold additional_challenge.
  destruct (AdditionalChallenge piper) as [challenger|]; [|apply returns_ret].
  apply returns_bind;
    [any_events (emits_coerce fuel)|apply returns_coerce; exact H|].
  intros [e|]; [apply returns_ret|].
  apply returns_bind;
    [any_events (emits_call_AdditionalChallenge (challenger d))
    |apply returns_call_AdditionalChallenge|].
  intros [ok [e|]]; [|destruct ok]; apply returns_ret.
Qed.

Lemma returns_loop n fuel : 2 * n < fuel -> returns n (loop fuel).
Proof.
  intros H. unfold loop.
  apply returns_bind;
    [emits_steps; exact I|apply returns_val; intros w; simpl; eauto|].
  intros _. apply returns_defer.
  apply returns_bind;
    [any_events (emits_forward fuel Reading Reading)
    |apply returns_forward; exact H|].
  intros e. apply returns_ret.
Qed.

Lemma returns_Serve n fuel piper conn :
  (forall d key, MapPublicKey piper d key <> OutOfFuel) ->
  2 * n < fuel ->
  returns n (Serve fuel piper conn).
Proof.
  intros Hmap H. unfold Serve.
  apply returns_bind; [emits_steps; exact I| |].
  { apply returns_val. intros w.
    destruct (newDownstream_run conn w) as [[e ->]|[d ->]]; simpl; eauto. }
  intros [d|e]; [|apply returns_ret].
  apply returns_defer.
  apply returns_bind; [any_events emits_nextAuthMsg|apply returns_nextAuthMsg|].
  intros [userAuthReq|e]; [|apply returns_ret]. cbv zeta.
  apply returns_bind;
    [any_events (emits_additional_challenge fuel piper
                   (set_user (User userAuthReq) d))
    |apply returns_additional_challenge; lia|].
  intros [e|]; [apply returns_ret|].
  apply returns_bind; [emits_steps; exact I| |].
  { apply returns_val. intros w. rewrite call_FindUpstream_run. simpl; eauto. }
  intros [upconn|e]; [|apply returns_ret].
  apply returns_bind; [emits_steps; exact I| |].
  { apply returns_val. intros w.
    destruct (newUpstream_run upconn (RemoteAddr upconn) w) as [[e ->]| ->];
      simpl; eauto. }
  intros [e|]; [apply returns_ret|].
  apply returns_defer. unfold Serve_piped, pipeAuth. cbv zeta.
  apply returns_bind.
  - any_events (emits_pipeAuth fuel piper
                  {| pc_downstream := set_user (User userAuthReq) d |}
                  userAuthReq).
  - apply returns_bind.
    + emits_steps; exact I.
    + apply returns_val. intros w. unfold sendAuthReq.
      destruct (writePacket_run Up (Marshal (MServiceRequest serviceUserAuth)) w)
        as (e & w1 & Hw & _).
      rewrite (bind_val _ _ _ _ _ _ _ Hw).
      destruct e as [e|]; [simpl; eauto|].
      destruct (readPacket_run Up w1) as (r & w2 & Hr & _).
      rewrite (bind_val _ _ _ _ _ _ _ Hr).
      destruct r as [p|e]; simpl; eauto.
    + intros [e|]; [apply returns_ret|].
      apply returns_pipeAuth_for; [exact Hmap|lia].
  - intros [e|]; [apply returns_ret|]. apply returns_loop. exact H.
Qed.

(** With fuel for twice the packets the two peers are going to send, and
    a [MapPublicKey] that returns, [Serve] returns (or panics). *)
Lemma Serve_returns fuel piper conn w :
  (forall d key, MapPublicKey piper d key <> OutOfFuel) ->
  2 * (unread Down w + unread Up w) < fuel ->
  fst (Serve fuel piper conn w) <> OutOfFuel.
Proof.
  intros Hmap H.
  exact (returns_Serve _ fuel piper conn Hmap H w (Nat.le_refl _)).
Qed.

End Enough_fuel.

(** ** The copiers of the forwarding loop *)

Lemma next_scheduled_idle w : schedule w = [] -> next_scheduled w = (Val Down, w).
Proof. destruct w as [d u sch tr]. simpl. intros ->. reflexivity. Qed.

Lemma readPacket_schedule s w : schedule (snd (readPacket s w)) = schedule w.
Proof.
  unfold readPacket. destruct (rx (side_of s w)); [reflexivity|].
  destruct s; reflexivity.
Qed.

Lemma writePacket_schedule s p w : schedule (snd (writePacket s p w)) = schedule w.
Proof.
  unfold writePacket. destruct (tx (side_of s w)); [reflexivity|].
  destruct s; reflexivity.
Qed.

Lemma bind_bind A B C (m : M A) (k1 : A -> M B) (k2 : B -> M C) w :
  bind (bind m k1) k2 w = bind m (fun a => bind (k1 a) k2) w.
Proof. unfold bind. destruct (m w) as [[a|t|] w1]; reflexivity. Qed.

Lemma bind_ret A B (a : A) (k : A -> M B) w : bind (ret a) k w = k a w.
Proof. reflexivity. Qed.

(** When the scheduler only ever runs the copier that reads the
    downstream, the forwarding is [piping(upstream, downstream)]: two
    steps of the one for a turn of the other. *)
Lemma forward_alone fuel : forall fromUp w,
  schedule w = [] ->
  forward (2 * fuel) Reading fromUp w = piping fuel Up Down w.
Proof.
  induction fuel as [|fuel IH]; intros fromUp w Hs; [reflexivity|].
  replace (2 * S fuel) with (S (S (2 * fuel))) by lia.
  cbn [forward piping].
  rewrite (bind_val _ _ _ _ _ _ _ (next_scheduled_idle w Hs)).
  cbn [piping_step]. rewrite bind_bind.
  destruct (readPacket_run Down w) as (r & w1 & Hr & _).
  assert (S1 := readPacket_schedule Down w).
  rewrite Hr in S1. cbn [snd] in S1. rewrite Hs in S1.
  rewrite (bind_val _ _ _ _ _ _ _ Hr), (bind_val _ _ _ _ _ _ _ Hr).
  destruct r as [p|e]; [|reflexivity].
  rewrite bind_ret.
  cbn [forward].
  rewrite (bind_val _ _ _ _ _ _ _ (next_scheduled_idle w1 S1)).
  cbn [piping_step]. rewrite bind_bind.
  destruct (writePacket_run Up p w1) as (e & w2 & Hw & _).
  assert (S2 := writePacket_schedule Up p w1).
  rewrite Hw in S2. cbn [snd] in S2. rewrite S1 in S2.
  rewrite (bind_val _ _ _ _ _ _ _ Hw), (bind_val _ _ _ _ _ _ _ Hw).
  destruct e as [e|]; [reflexivity|].
  rewrite bind_ret.
  apply IH. exact S2.
Qed.

(** ** Closing the sockets *)

Lemma quiet_of (f : event -> bool) tr :
  (forall e, f e = true ->
             is_close e = false /\ is_forwarding e = false /\ is_dialed e = false) ->
  Forall (fun e => f e = true) tr ->
  quiet tr.
Proof.
  intros Hf H. unfold quiet.
  assert (Hc : Forall (fun e => is_close e = false) tr)
    by (eapply Forall_impl; [|exact H]; intros e He; apply (Hf e He)).
  assert (Hw : Forall (fun e => is_forwarding e = false) tr)
    by (eapply Forall_impl; [|exact H]; intros e He; apply (Hf e He)).
  assert (Hd : Forall (fun e => is_dialed e = false) tr)
    by (eapply Forall_impl; [|exact H]; intros e He; apply (Hf e He)).
  rewrite !(closes_none _ _ Hc), (existsb_none _ _ Hw), (existsb_none _ _ Hd).
  auto.
Qed.

Lemma quiet_auth tr : Forall (fun e => auth_io e = true) tr -> quiet tr.
Proof. apply quiet_of. intros [] E; try discriminate E; auto. Qed.

Lemma quiet_packets tr : Forall (fun e => packet_io e = true) tr -> quiet tr.
Proof. apply quiet_of. intros [] E; try discriminate E; auto. Qed.

Lemma quiet_down tr : Forall (fun e => down_io e = true) tr -> quiet tr.
Proof. apply quiet_of. by_events. Qed.

Section Closing.
Context {L : SSHLib}.

Lemma gate_gate_io piper v trg :
  gate piper v trg -> Forall (fun e => gate_io e = true) trg.
Proof.
  assert (W : forall tr, Forall (fun e => down_io e = true) tr ->
                         Forall (fun e => gate_io e = true) tr).
  { intros tr H. eapply Forall_impl; [|exact H].
    intros e E. unfold gate_io. rewrite E. reflexivity. }
  destruct 1 as [_|tr e _ C|trc trq ok err _ C Q].
  - constructor.
  - apply W. exact (coerced_down_io _ _ C).
  - apply Forall_app; split; [exact (W _ (coerced_down_io _ _ C))|].
    apply Forall_app; split; [exact (W _ Q)|]. repeat constructor.
Qed.

Lemma quiet_gate piper v trg : gate piper v trg -> quiet trg.
Proof.
  intros G. apply (quiet_of gate_io); [|exact (gate_gate_io _ _ _ G)].
  by_events.
Qed.

(** C7, amended.  [Serve] returns (or panics) when it has fuel for twice
    the packets the peers are going to send and [MapPublicKey] returns.
    When it does, [Close] has been called on the socket of the downstream,
    and on the socket of the upstream if [FindUpstream] gave one: once each
    when [Serve] returns without having entered the forwarding loop, twice
    each when it returns from the forwarding loop (by [pipe.Close] of
    [loop], then by the deferred [u.Close] and [d.Close] of [Serve]). *)
Theorem sockets_closed_once_or_twice
  (fuel : nat) (piper : SSHPiper) (conn : netConn) (w : World)
  (r : outcome (option error)) (w' : World) :
  Serve fuel piper conn w = (r, w') ->
  ((forall d key, MapPublicKey piper d key <> OutOfFuel) ->
   2 * (unread Down w + unread Up w) < fuel ->
   r <> OutOfFuel) /\
  (r <> OutOfFuel ->
   exists tr,
     trace w' = trace w ++ tr /\
     closes Down tr = (if existsb is_forwarding tr then 2 else 1) /\
     closes Up tr = (if existsb is_forwarding tr then 2
                     else if existsb is_dialed tr then 1 else 0)).
Proof.
  intros H. split.
  { intros Hmap Hfuel. assert (X := Serve_returns fuel piper conn w Hmap Hfuel).
    rewrite H in X. exact X. }
  intros Hr. destruct (Serve_session _ _ _ _ _ _ H Hr) as (tr & T & S).
  exists tr. split; [exact T|].
  destruct S as [e|r0 e _|p trg e G|p trg e G|p trg e G|p trg tra r G Qa _
                |p trg tra trf r G Qa Qf];
    try (apply quiet_gate in G; destruct G as (G1 & G2 & G3 & G4));
    try (apply quiet_auth in Qa; destruct Qa as (A1 & A2 & A3 & A4));
    try (apply quiet_packets in Qf; destruct Qf as (F1 & F2 & F3 & F4));
    cbn [closes existsb is_forwarding is_dialed side_eqb orb];
    repeat (rewrite ?closes_app, ?existsb_app;
            cbn [closes existsb is_forwarding is_dialed side_eqb orb]);
    rewrite ?G1, ?G2, ?G3, ?G4, ?A1, ?A2, ?A3, ?A4, ?F1, ?F2, ?F3, ?F4;
    cbn [orb]; rewrite ?orb_true_r; split; reflexivity.
Qed.

End Closing.

(** C7 as stated fails.  A session whose only request is relayed and
    accepted enters the forwarding loop; the downstream has nothing more
    to send, the loop returns, and [Close] has then been called twice on
    each socket. *)
Lemma sockets_closed_twice_counterexample :
  fst (Serve 2 (Sample.piper None) Sample.client
         (Sample.world [Sample.packet (Sample.request "none" [])]
            [Sample.serviceAccept; Sample.success])) = Val (Some EOF) /\
  closes Down
    (trace (snd (Serve 2 (Sample.piper None) Sample.client
                   (Sample.world [Sample.packet (Sample.request "none" [])]
                      [Sample.serviceAccept; Sample.success])))) = 2 /\
  closes Up
    (trace (snd (Serve 2 (Sample.piper None) Sample.client
                   (Sample.world [Sample.packet (Sample.request "none" [])]
                      [Sample.serviceAccept; Sample.success])))) = 2.
Proof. repeat split; vm_compute; reflexivity. Qed.

(** A session refused by the upstream: one [Close] a socket. *)
Lemma sockets_closed_once_or_twice_witness :
  exists tr,
    trace (snd (Serve 2 (Sample.piper None) Sample.client
                  (Sample.world [Sample.packet (Sample.request "none" [])]
                     [Sample.serviceAccept; Sample.failure]))) = [] ++ tr /\
    closes Down tr = (if existsb is_forwarding tr then 2 else 1) /\
    closes Up tr = (if existsb is_forwarding tr then 2
                    else if existsb is_dialed tr then 1 else 0).
Proof.
  refine (proj2
    (sockets_closed_once_or_twice (L:=Wire.lib) 2 (Sample.piper None)
       Sample.client
       (Sample.world [Sample.packet (Sample.request "none" [])]
          [Sample.serviceAccept; Sample.failure])
       (Val (Some EOF)) _ _) _).
  - vm_compute; reflexivity.
  - discriminate.
Defined.

(** ** The additional challenge comes first *)

Lemma split_at_mark (f : event -> bool) l1 a l2 : forall l1' a' l2',
  Forall (fun e => f e = false) l1 ->
  Forall (fun e => f e = false) l2 ->
  f a' = true ->
  l1 ++ a :: l2 = l1' ++ a' :: l2' ->
  l1' = l1 /\ a' = a /\ l2' = l2.
Proof.
  induction l1 as [|x l1 IH]; intros [|x' l1'] a' l2' H1 H2 Ha E;
    simpl in E; injection E as E1 E2.
  - subst. auto.
  - subst. exfalso. rewrite Forall_forall in H2.
    assert (F : f a' = false) by (apply H2, in_or_app; right; left; reflexivity).
    congruence.
  - subst. exfalso. inversion H1; congruence.
  - subst x'. inversion H1; subst.
    destruct (IH _ _ _ H4 H2 Ha E2) as (-> & -> & ->). auto.
Qed.




Section Gate.
Context {L : SSHLib}.




End Gate.


(** ** The two session identifiers *)

Section Identifiers.
Context {L : SSHLib}.

(** In a whole session every verification is over a blob built with the
    session identifier of the downstream, and every signature over one
    built with that of the upstream. *)
Lemma emits_Serve fuel piper conn : emits bound_to (Serve fuel piper conn).
Proof.
  unfold Serve. apply emits_bind; [emits_steps; exact I|].
  intros [d|e]; [|apply emits_ret].
  apply emits_defer; [|emits_steps; exact I].
  apply emits_bind; [by_weakening emits_nextAuthMsg|].
  intros [userAuthReq|e]; [|apply emits_ret]. cbv zeta.
  apply emits_bind;
    [by_weakening (emits_additional_challenge fuel piper
                     (set_user (User userAuthReq) d))|].
  intros [e|]; [apply emits_ret|].
  apply emits_bind; [emits_steps; exact I|].
  intros [upconn|e]; [|apply emits_ret].
  apply emits_bind; [emits_steps; exact I|].
  intros [e|]; [apply emits_ret|].
  apply emits_defer; [|emits_steps; exact I].
  unfold Serve_piped. cbv zeta. apply emits_bind.
  - eapply emits_weaken; [|apply emits_pipeAuth]. intros sids e [_ B]. exact B.
  - intros [e|]; [apply emits_ret|]. by_weakening (emits_loop fuel).
Qed.

Lemma checkPublicKey_ignores_upstream p msg pubkey sig sid w :
  checkPublicKey p msg pubkey sig (with_sessionID Up sid w) =
    (fst (checkPublicKey p msg pubkey sig w),
     with_sessionID Up sid (snd (checkPublicKey p msg pubkey sig w))).
Proof.
  destruct sig as [sig|]; [|reflexivity].
  rewrite !checkPublicKey_run.
  destruct (isAcceptableAlgo (Format sig)); reflexivity.
Qed.

Lemma signAgain_ignores_downstream p msg signer downKey sid w :
  signAgain p msg signer downKey (with_sessionID Down sid w) =
    (fst (signAgain p msg signer downKey w),
     with_sessionID Down sid (snd (signAgain p msg signer downKey w))).
Proof.
  unfold signAgain. cbn.
  destruct (signer_Sign signer _ _); reflexivity.
Qed.

(** C1.  [checkPublicKey] verifies the signature of the downstream over
    the blob that [buildDataSignedForAuth] builds with the session
    identifier of the downstream transport (when the format of the
    signature is accepted; it verifies nothing otherwise), and what it does
    does not depend on the session identifier of the upstream.
    [signAgain] has the signer sign the blob built with the session
    identifier of the upstream transport, for the fabricated request of the
    user of the downstream, and what it does does not depend on the session
    identifier of the downstream.  In a whole session, every verification
    is over a blob built with the identifier of the downstream and every
    signature over a blob built with that of the upstream. *)
Theorem each_side_its_session_identifier
  (p : pipedConn) (msg : userAuthRequestMsg) (pubkey : PublicKey)
  (sig : Signature) (signer : Signer) (downKey : PublicKey) (w : World) :
  (let data :=
     buildDataSignedForAuth (getSessionID (downstream w)) msg
       (list_byte_of_string (pk_Type pubkey)) (pk_Marshal pubkey) in
   checkPublicKey p msg pubkey (Some sig) w =
     if isAcceptableAlgo (Format sig) then
       (Val (isNone (pk_Verify pubkey data sig), None),
        log (EvVerify (pk_Marshal pubkey) data sig (pk_Verify pubkey data sig)) w)
     else (Val (false, None), w)) /\
  (forall sid,
      checkPublicKey p msg pubkey (Some sig) (with_sessionID Up sid w) =
        (fst (checkPublicKey p msg pubkey (Some sig) w),
         with_sessionID Up sid (snd (checkPublicKey p msg pubkey (Some sig) w)))) /\
  (let upKey := signer_PublicKey signer in
   let data :=
     buildDataSignedForAuth (getSessionID (upstream w))
       {| User := cm_User (pc_downstream p); Service := serviceSSH;
          Method := "publickey"; Payload := [] |}
       (list_byte_of_string (pk_Type upKey)) (pk_Marshal upKey) in
   snd (signAgain p msg signer downKey w) =
     log (EvSign (pk_Marshal upKey) data) w /\
   match signer_Sign signer (Rand (upstream w)) data with
   | Err e => fst (signAgain p msg signer downKey w) = Val (None, Some e)
   | Ok _ => exists m, fst (signAgain p msg signer downKey w) = Val (Some m, None)
   end) /\
  (forall sid,
      signAgain p msg signer downKey (with_sessionID Down sid w) =
        (fst (signAgain p msg signer downKey w),
         with_sessionID Down sid (snd (signAgain p msg signer downKey w)))) /\
  (forall fuel piper conn,
      exists tr,
        trace (snd (Serve fuel piper conn w)) = trace w ++ tr /\
        Forall (bound_to (getSessionID (downstream w), getSessionID (upstream w)))
          tr).
Proof.
  split; [apply checkPublicKey_run|].
  split; [intros; apply checkPublicKey_ignores_upstream|].
  split; [apply signAgain_run|].
  split; [intros; apply signAgain_ignores_downstream|].
  intros fuel piper conn. exact (proj2 (emits_Serve fuel piper conn w)).
Qed.

End Identifiers.

(** * Further properties of the code *)

(** ** What [Serve] returns *)

Lemma bind_not_nil A (m : M A) (k : A -> M (option error)) w :
  (forall a w', fst (k a w') <> Val None) -> fst (bind m k w) <> Val None.
Proof.
  intros H. unfold bind. destruct (m w) as [[a|t|] w1]; [apply H|discriminate..].
Qed.

Lemma defer_fst A (fin : M unit) (m : M A) w : fst (defer fin m w) = fst (m w).
Proof. unfold defer. destruct (m w) as [[a|t|] w1]; reflexivity. Qed.

Section Never_nil.
Context {L : SSHLib}.

Lemma loop_not_nil fuel w : fst (loop fuel w) <> Val None.
Proof.
  unfold loop. apply bind_not_nil. intros _ w1. rewrite defer_fst.
  apply bind_not_nil. discriminate.
Qed.

(** X1.  [Serve] never returns [nil]: it returns the error that ended the
    session, that of [piping] when the session got as far as the
    forwarding loop, since [piping] only returns on an error. *)
Theorem Serve_never_returns_nil
  (fuel : nat) (piper : SSHPiper) (conn : netConn) (w : World) :
  fst (Serve fuel piper conn w) <> Val None /\
  fst (loop fuel w) <> Val None.
Proof.
  split; [|apply loop_not_nil].
  unfold Serve. apply bind_not_nil. intros [d|e] w1; [|discriminate].
  rewrite defer_fst. apply bind_not_nil. intros [req|e] w2; [|discriminate].
  cbv zeta. apply bind_not_nil. intros [e|] w3; [discriminate|].
  apply bind_not_nil. intros [upconn|e] w4; [|discriminate].
  apply bind_not_nil. intros [e|] w5; [discriminate|].
  rewrite defer_fst. unfold Serve_piped. cbv zeta.
  apply bind_not_nil. intros [e|] w6; [discriminate|apply loop_not_nil].
Qed.

End Never_nil.

(** ** The rewriter, request by request *)

Section Requests.
Context {L : SSHLib}.

Lemma no_bytes_left (payload : bytes) :
  (0 <? List.length payload)%nat = false <-> payload = [].
Proof. destruct payload; split; intros H; try reflexivity; discriminate H. Qed.

Lemma parsePublicKeyMsg_inv msg key isQuery sig :
  parsePublicKeyMsg msg = Ok (key, isQuery, sig) ->
  Method msg = "publickey" /\
  exists b0 payload algoBytes payload1 pubKeyData payload2,
    Payload msg = b0 :: payload /\
    isQuery = Byte.eqb b0 x00 /\
    parseString payload = Some (algoBytes, payload1) /\
    isAcceptableAlgo (string_of_list_byte algoBytes) = true /\
    parseString payload1 = Some (pubKeyData, payload2) /\
    ParsePublicKey pubKeyData = Ok key /\
    if isQuery then sig = None
    else exists s, sig = Some s /\ parseSignature payload2 = Some (s, []).
Proof.
  unfold parsePublicKeyMsg.
  destruct (String.eqb_spec (Method msg) "publickey") as [Hm|Hm];
    [|discriminate]. cbn [negb].
  destruct (Payload msg) as [|b0 payload]; [discriminate|].
  destruct (parseString payload) as [[algoBytes payload1]|] eqn:H1;
    [|discriminate].
  destruct (isAcceptableAlgo (string_of_list_byte algoBytes)) eqn:Ha;
    [|discriminate]. cbn [negb].
  destruct (parseString payload1) as [[pubKeyData payload2]|] eqn:H2;
    [|discriminate].
  destruct (ParsePublicKey pubKeyData) as [pubKey|e] eqn:Hk; [|discriminate].
  destruct (Byte.eqb b0 x00) eqn:Hq.
  - intros [= <- <- <-]. split; [exact Hm|].
    exists b0, payload, algoBytes, payload1, pubKeyData, payload2.
    rewrite Hq. auto 10.
  - destruct (parseSignature payload2) as [[s rest]|] eqn:Hs; [|discriminate].
    destruct (0 <? List.length rest)%nat eqn:Hl; [discriminate|].
    apply no_bytes_left in Hl. subst rest.
    intros [= <- <- <-]. split; [exact Hm|].
    exists b0, payload, algoBytes, payload1, pubKeyData, payload2.
    rewrite Hq. eauto 10.
Qed.

(** [checkPublicKey] dereferences [sig]; in [processAuthMsg] it gets the
    signature of a request that is not a query, which is not [nil]. *)
Lemma signed_request_has_a_signature msg downKey sig :
  parsePublicKeyMsg msg = Ok (downKey, false, sig) -> exists s, sig = Some s.
Proof.
  intros H. apply parsePublicKeyMsg_inv in H.
  destruct H as (_ & b0 & payload & algoBytes & payload1 & pubKeyData & payload2
                 & _ & _ & _ & _ & _ & _ & s & -> & _).
  exists s. reflexivity.
Qed.

(** X2.  What [parsePublicKeyMsg] accepts: a request of method publickey
    whose payload is a flag byte, a string naming an accepted algorithm, a
    string that [ParsePublicKey] makes a key of and, when the flag byte is
    not zero, a signature with nothing after it.  A query (flag byte zero)
    comes with no signature, and what follows its key is not looked at;
    any other request comes with one. *)
Theorem parsePublicKeyMsg_accepts
  (msg : userAuthRequestMsg) (key : PublicKey) (isQuery : bool)
  (sig : option Signature) :
  parsePublicKeyMsg msg = Ok (key, isQuery, sig) <->
  Method msg = "publickey" /\
  exists b0 payload algoBytes payload1 pubKeyData payload2,
    Payload msg = b0 :: payload /\
    isQuery = Byte.eqb b0 x00 /\
    parseString payload = Some (algoBytes, payload1) /\
    isAcceptableAlgo (string_of_list_byte algoBytes) = true /\
    parseString payload1 = Some (pubKeyData, payload2) /\
    ParsePublicKey pubKeyData = Ok key /\
    if isQuery then sig = None
    else exists s, sig = Some s /\ parseSignature payload2 = Some (s, []).
Proof.
  split; [apply parsePublicKeyMsg_inv|].
  intros (Hm & b0 & payload & algoBytes & payload1 & pubKeyData & payload2
          & Hp & -> & H1 & Ha & H2 & Hk & Hsig).
  unfold parsePublicKeyMsg.
  rewrite Hm, publickey_eqb, Hp, H1, Ha. cbn [negb]. rewrite H2, Hk.
  destruct (Byte.eqb b0 x00).
  - subst sig. reflexivity.
  - destruct Hsig as (s & -> & ->). reflexivity.
Qed.

(** After the hook returned a request, the turn writes it upstream and
    then only reads and writes packets, none of them to the upstream. *)
Lemma pipeAuth_turn_after_hook proc msg w req w1 :
  proc msg w = (Val (Some req, None), w1) ->
  exists e tr,
    trace (snd (pipeAuth_turn proc msg w)) =
      trace w1 ++ EvWrite Up (Marshal (MUserAuthRequest req)) e :: tr /\
    Forall (fun ev => is_write_up ev = false) tr /\
    Forall (fun ev => packet_io ev = true) tr.
Proof.
  intros H1. unfold pipeAuth_turn.
  rewrite (bind_val _ _ _ _ _ _ _ H1). cbn beta iota.
  destruct (writePacket_run Up (Marshal (MUserAuthRequest req)) w1)
    as (e & w2 & H2 & T2 & _).
  rewrite (bind_val _ _ _ _ _ _ _ H2). exists e.
  destruct e as [e|]; [eexists; split; [trace_eq|split; constructor]|].
  destruct (readPacket_run Up w2) as (r & w3 & H3 & T3 & _).
  rewrite (bind_val _ _ _ _ _ _ _ H3).
  destruct r as [[|b0 rest]|e];
    try (eexists; split; [trace_eq|split; repeat constructor]).
  destruct (writePacket_run Down (b0 :: rest) w3) as (e' & w4 & H4 & T4 & _).
  rewrite (bind_val _ _ _ _ _ _ _ H4).
  destruct e' as [e'|];
    [|destruct (Byte.eqb b0 msgUserAuthSuccess)];
    try (eexists; split; [trace_eq|split; repeat constructor]).
  destruct (pipeAuth_next_run w4) as (r & w5 & _ & T5 & _ & ->).
  eexists; split; [trace_eq|split; repeat constructor].
Qed.

(** X3.  A request of another method than publickey (password, none,
    keyboard-interactive, ...) goes through the rewriter untouched, without
    [MapPublicKey] being asked and whatever the piper is; the turn of
    [pipeAuth] writes it to the upstream as it came, before anything else,
    and writes nothing else there. *)
Theorem other_methods_pass_unchanged
  (piper : SSHPiper) (p : pipedConn) (msg : userAuthRequestMsg) (w : World) :
  Method msg <> "publickey" ->
  processAuthMsg piper p msg w = (Val (Some msg, None), w) /\
  exists e tr,
    trace (snd (pipeAuth_turn (processAuthMsg piper p) msg w)) =
      trace w ++ EvWrite Up (Marshal (MUserAuthRequest msg)) e :: tr /\
    Forall (fun ev => is_write_up ev = false) tr.
Proof.
  intros Hm.
  assert (H := processAuthMsg_other piper p msg w Hm).
  split; [exact H|]. exact (pipeAuth_turn_writes _ _ _ _ _ H).
Qed.

(** X4.  A signed request whose signature the key of the downstream does
    not verify, over the blob of the session of the downstream, is not
    passed on: the rewriter returns a request of method "none" for the
    user of the request and no error, the mapped signer has signed
    nothing, and the "none" request is what the turn writes upstream. *)
Theorem unverified_signature_is_sent_as_none
  (piper : SSHPiper) (p : pipedConn) (msg : userAuthRequestMsg)
  (downKey : PublicKey) (sig : Signature) (signer : Signer) (w : World)
  (e : error) :
  parsePublicKeyMsg msg = Ok (downKey, false, Some sig) ->
  MapPublicKey piper (pc_downstream p) downKey = Val (Some signer, None) ->
  isAcceptableAlgo (Format sig) = true ->
  let data :=
    buildDataSignedForAuth (getSessionID (downstream w)) msg
      (list_byte_of_string (pk_Type downKey)) (pk_Marshal downKey) in
  pk_Verify downKey data sig = Some e ->
  let w1 := log (EvVerify (pk_Marshal downKey) data sig (Some e)) w in
  processAuthMsg piper p msg w =
    (Val (Some (noneAuthMsg (User msg)), None), w1) /\
  exists e' tr,
    trace (snd (pipeAuth_turn (processAuthMsg piper p) msg w)) =
      trace w ++ EvVerify (pk_Marshal downKey) data sig (Some e)
        :: EvWrite Up (Marshal (MUserAuthRequest (noneAuthMsg (User msg)))) e'
        :: tr /\
    Forall (fun ev => is_write_up ev = false) tr /\
    existsb is_sign (EvWrite Up
                       (Marshal (MUserAuthRequest (noneAuthMsg (User msg)))) e'
                       :: tr) = false.
Proof.
  intros Hp Hk Ha data Hv w1.
  assert (Hm : Method msg = "publickey")
    by exact (proj1 (parsePublicKeyMsg_inv _ _ _ _ Hp)).
  assert (H : processAuthMsg piper p msg w =
              (Val (Some (noneAuthMsg (User msg)), None), w1)).
  { rewrite (processAuthMsg_signed piper p msg w _ _ _ Hm Hp Hk).
    unfold bind. rewrite checkPublicKey_run, Ha. cbv zeta.
    fold data. rewrite Hv. reflexivity. }
  split; [exact H|].
  destruct (pipeAuth_turn_after_hook _ _ _ _ _ H) as (e' & tr & T & Q & Q').
  exists e', tr. split; [|split; [exact Q|]].
  - rewrite T. unfold w1. rewrite trace_log, <- app_assoc. reflexivity.
  - cbn [existsb is_sign orb]. apply existsb_none.
    eapply Forall_impl; [|exact Q'].
    intros [] Hev; try discriminate Hev; reflexivity.
Qed.

(** X5.  The rewriter does not panic on a signed request, unless
    [MapPublicKey] does: [checkPublicKey] dereferences the signature
    without a test, and [parsePublicKeyMsg] gives no [nil] signature for a
    request that is not a query. *)
Theorem signed_request_never_dereferences_nil
  (piper : SSHPiper) (p : pipedConn) (msg : userAuthRequestMsg)
  (downKey : PublicKey) (sig : option Signature) (w : World) :
  parsePublicKeyMsg msg = Ok (downKey, false, sig) ->
  (forall t, MapPublicKey piper (pc_downstream p) downKey <> Panic t) ->
  (exists s, sig = Some s) /\
  forall t, fst (processAuthMsg piper p msg w) <> Panic t.
Proof.
  intros Hp Hk.
  assert (Hm : Method msg = "publickey")
    by exact (proj1 (parsePublicKeyMsg_inv _ _ _ _ Hp)).
  destruct (signed_request_has_a_signature _ _ _ Hp) as (s & ->).
  split; [eauto|]. intros t.
  destruct (MapPublicKey piper (pc_downstream p) downKey)
    as [[signer err]|t'|] eqn:Hmap.
  - destruct signer as [signer|]; [destruct err as [e|]|].
    + rewrite (processAuthMsg_unmapped piper p msg w _ _ _ _ _ Hm Hp Hmap);
        [discriminate|right; discriminate].
    + rewrite (processAuthMsg_signed piper p msg w _ _ _ Hm Hp Hmap).
      unfold bind at 1. rewrite checkPublicKey_run.
      destruct (isAcceptableAlgo (Format s)); [|discriminate].
      cbv zeta. cbn [fst snd].
      destruct (pk_Verify downKey _ s); cbn [isNone isSome negb];
        [discriminate|].
      unfold bind.
      match goal with
      | |- context [signAgain p msg signer downKey ?w0] =>
          destruct (signAgain_run p msg signer downKey w0) as (_ & Hs);
          destruct (signAgain p msg signer downKey w0) as [r w2]
      end.
      cbn [fst] in Hs.
      destruct (signer_Sign signer _ _); [destruct Hs as (m & ->)|rewrite Hs];
        discriminate.
    + rewrite (processAuthMsg_unmapped piper p msg w _ _ _ _ _ Hm Hp Hmap);
        [discriminate|left; reflexivity].
  - exfalso. exact (Hk t' eq_refl).
  - unfold processAuthMsg. rewrite Hm, Hp, publickey_eqb. cbv beta iota zeta.
    unfold bind, call. rewrite Hmap. discriminate.
Qed.

End Requests.

(** ** What comes before what in a session *)

Section Preceded.
Context {L : SSHLib}.
Variable mark : event -> bool.
Variable R : list event -> event -> Prop.
Hypothesis R_longer : forall tr tr1 e, R tr1 e -> R (tr ++ tr1) e.

Lemma preceded_nil : preceded mark R [].
Proof. intros [|x tr1] e tr2 E; discriminate E. Qed.

Lemma preceded_unmarked tr :
  Forall (fun e => mark e = false) tr -> preceded mark R tr.
Proof.
  intros H tr1 e tr2 -> He. exfalso.
  rewrite Forall_forall in H.
  assert (F : mark e = false) by (apply H, in_or_app; right; left; reflexivity).
  congruence.
Qed.

Lemma preceded_app a b :
  preceded mark R a -> preceded mark R b -> preceded mark R (a ++ b).
Proof.
  intros Ha Hb tr1 e tr2 E He.
  apply app_eq_app in E. destruct E as (l & [[-> E]|[-> E]]).
  - destruct l as [|x l].
    + simpl in E. rewrite <- (app_nil_r tr1). apply R_longer.
      exact (Hb [] e tr2 (eq_sym E) He).
    + simpl in E. injection E as <- ->.
      exact (Ha tr1 e l eq_refl He).
  - apply R_longer. exact (Hb l e tr2 E He).
Qed.

Lemma adds_ret A (a : A) : adds (preceded mark R) (ret a).
Proof. intros w. exists []. rewrite app_nil_r. split; [reflexivity|apply preceded_nil]. Qed.

Lemma adds_bind A B (m : M A) (k : A -> M B) :
  adds (preceded mark R) m -> (forall a, adds (preceded mark R) (k a)) ->
  adds (preceded mark R) (bind m k).
Proof.
  intros Hm Hk w. unfold bind.
  destruct (Hm w) as (tr & Ht & HP).
  destruct (m w) as [[a|t|] w1]; simpl in *; eauto.
  destruct (Hk a w1) as (tr' & Ht' & HP').
  exists (tr ++ tr'). rewrite Ht', Ht, app_assoc. split; [reflexivity|].
  apply preceded_app; assumption.
Qed.

Lemma adds_defer A (fin : M unit) (m : M A) :
  adds (preceded mark R) m -> adds (preceded mark R) fin ->
  adds (preceded mark R) (defer fin m).
Proof.
  intros Hm Hf w. unfold defer.
  destruct (Hm w) as (tr & Ht & HP).
  destruct (m w) as [[a|t|] w1]; simpl in *; eauto.
  all: destruct (Hf w1) as (tr' & Ht' & HP');
    exists (tr ++ tr'); rewrite Ht', Ht, app_assoc; (split; [reflexivity|]);
    apply preceded_app; assumption.
Qed.

Lemma adds_of_emits A Q (m : M A) :
  emits Q m -> (forall sids e, Q sids e -> mark e = false) ->
  adds (preceded mark R) m.
Proof.
  intros Hm HQ w. destruct (Hm w) as (_ & tr & Ht & H).
  exists tr. split; [exact Ht|]. apply preceded_unmarked.
  eapply Forall_impl; [|exact H]. apply HQ.
Qed.

(** Only a signature or the start of the forwarding is marked. *)
Hypothesis mark_late :
  forall e, mark e = true -> is_sign e = true \/ is_forwarding e = true.

Lemma unmarked_of (f : event -> bool) :
  (forall e, f e = true -> is_sign e = false /\ is_forwarding e = false) ->
  forall (sids : bytes * bytes) e, f e = true -> mark e = false.
Proof.
  intros Hf _ e He. destruct (Hf e He) as [H1 H2].
  destruct (mark e) eqn:E; [|reflexivity].
  destruct (mark_late e E); congruence.
Qed.

(** Before and around [Serve_piped], [Serve] adds nothing marked. *)
Lemma adds_Serve fuel piper conn :
  (forall d userAuthReq,
      adds (preceded mark R) (Serve_piped fuel piper d userAuthReq)) ->
  adds (preceded mark R) (Serve fuel piper conn).
Proof.
  intros Hpiped.
  assert (Hclose : forall s, adds (preceded mark R) (Close s)).
  { intros s. apply adds_of_emits with (Q := fun _ e => is_close e = true).
    - unfold Close. emits_steps. reflexivity.
    - apply unmarked_of. by_events. }
  unfold Serve. apply adds_bind.
  { apply adds_of_emits with (Q := fun _ e => is_close e = true).
    - unfold newDownstream, Close. emits_steps. reflexivity.
    - apply unmarked_of. by_events. }
  intros [d|e]; [|apply adds_ret].
  apply adds_defer; [|apply Hclose].
  apply adds_bind.
  { apply adds_of_emits with (1 := emits_nextAuthMsg).
    apply unmarked_of. by_events. }
  intros [userAuthReq|e]; [|apply adds_ret]. cbv zeta.
  apply adds_bind.
  { apply adds_of_emits with (1 := emits_additional_challenge fuel piper _).
    apply unmarked_of. by_events. }
  intros [e|]; [apply adds_ret|].
  apply adds_bind.
  { apply adds_of_emits with (Q := fun _ e => is_FindUpstream e = true).
    - unfold call_FindUpstream. emits_steps. reflexivity.
    - apply unmarked_of. by_events. }
  intros [upconn|e]; [|apply adds_ret].
  apply adds_bind.
  { apply adds_of_emits with (Q := fun _ e => is_close e = true).
    - unfold newUpstream, Close. emits_steps. reflexivity.
    - apply unmarked_of. by_events. }
  intros [e|]; [apply adds_ret|].
  apply adds_defer; [apply Hpiped|apply Hclose].
Qed.

End Preceded.

Section Signatures.
Context {L : SSHLib}.

Lemma verified_just_before_longer piper tr tr1 e :
  verified_just_before piper tr1 e -> verified_just_before piper (tr ++ tr1) e.
Proof.
  intros (tr0 & d & downKey & signer & data & sig & data' & -> & -> & H).
  exists (tr ++ tr0), d, downKey, signer, data, sig, data'.
  rewrite app_assoc. auto.
Qed.

Lemma sign_is_late e :
  is_sign e = true -> is_sign e = true \/ is_forwarding e = true.
Proof. auto. Qed.

Lemma adds_still A P (m : M A) :
  P [] -> (forall w, snd (m w) = w) -> adds P m.
Proof. intros HP H w. exists []. rewrite H, app_nil_r. auto. Qed.

Lemma adds_processAuthMsg piper p msg :
  adds (preceded is_sign (verified_just_before piper))
    (processAuthMsg piper p msg).
Proof.
  set (P := preceded is_sign (verified_just_before piper)).
  assert (P0 : P []) by apply preceded_nil.
  destruct (String.eqb_spec (Method msg) "publickey") as [Hm|Hm].
  2:{ apply adds_still; [exact P0|]. intros w.
      rewrite (processAuthMsg_other piper p msg w Hm). reflexivity. }
  destruct (parsePublicKeyMsg msg) as [[[downKey isQuery] sig]|e] eqn:Hp.
  2:{ apply adds_still; [exact P0|]. intros w.
      rewrite (processAuthMsg_parse_error piper p msg w _ Hm Hp). reflexivity. }
  destruct (MapPublicKey piper (pc_downstream p) downKey)
    as [[signer err]|t|] eqn:Hk.
  2,3: apply adds_still; [exact P0|]; intros w; unfold processAuthMsg;
       rewrite Hm, Hp, publickey_eqb; cbv beta iota zeta;
       unfold bind, call; rewrite Hk; reflexivity.
  assert (Hnone : signer = None \/ err <> None ->
                  adds P (processAuthMsg piper p msg)).
  { intros H. apply adds_still; [exact P0|]. intros w.
    rewrite (processAuthMsg_unmapped piper p msg w _ _ _ _ _ Hm Hp Hk H).
    reflexivity. }
  destruct signer as [signer|]; [|apply Hnone; left; reflexivity].
  destruct err as [e|]; [apply Hnone; right; discriminate|]. clear Hnone.
  destruct isQuery.
  - (* a query: packets only *)
    apply adds_of_emits with (Q := fun _ e => packet_io e = true).
    + intros w. rewrite (processAuthMsg_query piper p msg w _ _ _ Hm Hp Hk).
      revert w.
      change (emits (fun _ e => packet_io e = true)
                (bind (validAndAck p (signer_PublicKey signer) downKey)
                   (fun r => match snd r with
                             | Some e => ret (None, Some e)
                             | None => ret (fst r, None)
                             end))).
      unfold validAndAck, validateKey. emits_steps; reflexivity.
    + intros _ [] E; try discriminate E; reflexivity.
  - destruct (signed_request_has_a_signature _ _ _ Hp) as (s & ->).
    intros w. rewrite (processAuthMsg_signed piper p msg w _ _ _ Hm Hp Hk).
    unfold bind at 1. rewrite checkPublicKey_run.
    destruct (isAcceptableAlgo (Format s)).
    2:{ exists []. rewrite app_nil_r. auto. }
    cbv zeta. cbn [fst snd].
    set (data := buildDataSignedForAuth (getSessionID (downstream w)) msg
                   (list_byte_of_string (pk_Type downKey)) (pk_Marshal downKey)).
    destruct (pk_Verify downKey data s) as [e|] eqn:Hv;
      cbn [isNone isSome negb].
    { eexists. split; [reflexivity|]. apply preceded_unmarked.
      repeat constructor. }
    unfold bind.
    match goal with
    | |- context [signAgain p msg signer downKey ?w0] =>
        destruct (signAgain_run p msg signer downKey w0) as (Hs & _);
        destruct (signAgain p msg signer downKey w0) as [[r|t|] w2]
    end; cbn [snd] in Hs; subst w2; unfold ret; cbn [snd];
      (eexists; split; [rewrite !trace_log, <- app_assoc; reflexivity|]).
    all: unfold P; intros tr1 e tr2 E He;
      destruct tr1 as [|x [|y tr1]]; simpl in E;
      [injection E as <- _; discriminate He
      |injection E as <- <- _
      |injection E as _ _ E; destruct tr1; discriminate E].
    all: exists [], (pc_downstream p), downKey, signer, data, s;
      eexists; split; [reflexivity|]; split; [reflexivity|exact Hk].
Qed.

Lemma adds_pipeAuth fuel piper p msg :
  adds (preceded is_sign (verified_just_before piper))
    (pipeAuth fuel (processAuthMsg piper p) msg).
Proof.
  assert (Hup := verified_just_before_longer piper).
  assert (Hio : forall A (m : M A),
             emits (fun _ e => packet_io e = true) m ->
             adds (preceded is_sign (verified_just_before piper)) m).
  { intros A m H. apply adds_of_emits with (1 := H).
    intros _ [] E; try discriminate E; reflexivity. }
  unfold pipeAuth. apply adds_bind; [exact Hup| |].
  { apply Hio. unfold sendAuthReq. emits_steps; reflexivity. }
  intros [e|]; [apply adds_ret|].
  revert msg. induction fuel as [|fuel IH]; intros msg; cbn [pipeAuth_for].
  { apply Hio. apply emits_out_of_fuel. }
  apply adds_bind; [exact Hup| |intros [|]; [apply adds_ret|apply IH]].
  unfold pipeAuth_turn.
  apply adds_bind; [exact Hup|apply adds_processAuthMsg|].
  intros [m err]. apply Hio.
  unfold pipeAuth_next, nextAuthMsg. emits_steps; reflexivity.
Qed.

(** X6.  The private key that [MapPublicKey] gives is only used right
    after the client proved it holds the public key it was given for: in
    any run of [Serve], whatever the peers send, the last thing that
    happened before a signature by a mapped signer is a verification that
    went well, under a key that [MapPublicKey] maps to that signer. *)
Theorem signatures_follow_verifications
  (fuel : nat) (piper : SSHPiper) (conn : netConn) (w : World) :
  exists tr,
    trace (snd (Serve fuel piper conn w)) = trace w ++ tr /\
    forall tr1 key data' tr2,
      tr = tr1 ++ EvSign key data' :: tr2 ->
      exists tr0 d downKey signer data sig,
        tr1 = tr0 ++ [EvVerify (pk_Marshal downKey) data sig None] /\
        key = pk_Marshal (signer_PublicKey signer) /\
        MapPublicKey piper d downKey = Val (Some signer, None).
Proof.
  assert (H : adds (preceded is_sign (verified_just_before piper))
                (Serve fuel piper conn)).
  { apply adds_Serve;
      [apply verified_just_before_longer|exact sign_is_late|].
    intros d userAuthReq. unfold Serve_piped. cbv zeta.
    apply adds_bind; [apply verified_just_before_longer|apply adds_pipeAuth|].
    intros [e|]; [apply adds_ret|].
    apply adds_of_emits with (1 := emits_loop fuel).
    intros _ [] E; try discriminate E; reflexivity. }
  destruct (H w) as (tr & T & P). exists tr. split; [exact T|].
  intros tr1 key data' tr2 E.
  destruct (P tr1 _ tr2 E eq_refl)
    as (tr0 & d & downKey & signer & data & sig & data0 & -> & [= -> _] & Hk).
  exists tr0, d, downKey, signer, data, sig. auto.
Qed.

End Signatures.

Section Authenticated.
Context {L : SSHLib}.

(** A turn leaves [pipeAuth] with [nil] in one way. *)
Lemma pipeAuth_turn_success proc msg w w' :
  pipeAuth_turn proc msg w = (Val (Return None), w') ->
  exists req wh rest,
    proc msg w = (Val (Some req, None), wh) /\
    trace w' =
      trace wh ++ [EvWrite Up (Marshal (MUserAuthRequest req)) None;
                   EvRead Up (Ok (msgUserAuthSuccess :: rest));
                   EvWrite Down (msgUserAuthSuccess :: rest) None].
Proof.
  unfold pipeAuth_turn. unfold bind at 1.
  destruct (proc msg w) as [[[m err]|t|] wh]; [|discriminate..].
  destruct err as [e|]; [discriminate|].
  destruct m as [req|].
  2:{ intros H. exfalso. apply (pipeAuth_next_not_success wh).
      rewrite H. reflexivity. }
  destruct (writePacket_run Up (Marshal (MUserAuthRequest req)) wh)
    as (e & w2 & H2 & T2 & _).
  rewrite (bind_val _ _ _ _ _ _ _ H2).
  destruct e as [e|]; [discriminate|].
  destruct (readPacket_run Up w2) as (r & w3 & H3 & T3 & _).
  rewrite (bind_val _ _ _ _ _ _ _ H3).
  destruct r as [[|b0 rest]|e]; [discriminate| |discriminate].
  destruct (writePacket_run Down (b0 :: rest) w3) as (e' & w4 & H4 & T4 & _).
  rewrite (bind_val _ _ _ _ _ _ _ H4).
  destruct e' as [e'|]; [discriminate|].
  destruct (Byte.eqb b0 msgUserAuthSuccess) eqn:Hb.
  - apply byte_eqb_iff in Hb. subst b0. intros [= <-].
    exists req, wh, rest. split; [reflexivity|]. trace_eq.
  - intros H. exfalso. apply (pipeAuth_next_not_success w4).
    rewrite H. reflexivity.
Qed.

Lemma pipeAuth_for_success piper p fuel : forall msg w w',
  pipeAuth_for fuel (processAuthMsg piper p) msg w = (Val None, w') ->
  exists tr0 req rest,
    trace w' =
      trace w ++ tr0 ++
        [EvWrite Up (Marshal (MUserAuthRequest req)) None;
         EvRead Up (Ok (msgUserAuthSuccess :: rest));
         EvWrite Down (msgUserAuthSuccess :: rest) None] /\
    Forall (fun e => auth_io e = true) tr0.
Proof.
  induction fuel as [|fuel IH]; intros msg w w'; cbn [pipeAuth_for];
    [discriminate|].
  destruct (pipeAuth_turn (processAuthMsg piper p) msg w) as [[t|t|] w1] eqn:Ht;
    [|rewrite (bind_panic _ _ _ _ _ _ _ Ht); discriminate
     |rewrite (bind_out_of_fuel _ _ _ _ _ _ Ht); discriminate].
  rewrite (bind_val _ _ _ _ _ _ _ Ht).
  destruct t as [err|msg1].
  - intros [= -> <-].
    destruct (pipeAuth_turn_success _ _ _ _ Ht) as (req & wh & rest & Hh & T).
    destruct (emits_run _ _ _ _ _ _ (emits_processAuthMsg piper p msg) Hh)
      as (tr0 & T0 & Q0 & _).
    exists tr0, req, rest. split; [rewrite T, T0, <- app_assoc; reflexivity|].
    eapply Forall_impl; [|exact Q0]. intros e [E _]; exact E.
  - intros H. destruct (IH _ _ _ H) as (tr0 & req & rest & T & Q).
    destruct (emits_run _ _ _ _ _ _ (emits_pipeAuth_turn piper p msg) Ht)
      as (tr1 & T1 & Q1 & _).
    exists (tr1 ++ tr0), req, rest.
    split; [rewrite T, T1, <- !app_assoc; reflexivity|].
    apply Forall_app; split; [|exact Q].
    eapply Forall_impl; [|exact Q1]. intros e [E _]; exact E.
Qed.

Lemma pipeAuth_success piper p fuel msg w w' :
  pipeAuth fuel (processAuthMsg piper p) msg w = (Val None, w') ->
  exists tr0 req rest,
    trace w' =
      trace w ++ tr0 ++
        [EvWrite Up (Marshal (MUserAuthRequest req)) None;
         EvRead Up (Ok (msgUserAuthSuccess :: rest));
         EvWrite Down (msgUserAuthSuccess :: rest) None] /\
    Forall (fun e => auth_io e = true) tr0.
Proof.
  unfold pipeAuth.
  assert (E : emits (fun _ e => auth_io e = true) sendAuthReq)
    by (unfold sendAuthReq; emits_steps; reflexivity).
  destruct (sendAuthReq w) as [[err|t|] w1] eqn:Hs;
    [|rewrite (bind_panic _ _ _ _ _ _ _ Hs); discriminate
     |rewrite (bind_out_of_fuel _ _ _ _ _ _ Hs); discriminate].
  rewrite (bind_val _ _ _ _ _ _ _ Hs).
  destruct err as [e|]; [discriminate|]. intros H.
  destruct (emits_run _ _ _ _ _ _ E Hs) as (tr1 & T1 & Q1 & _).
  destruct (pipeAuth_for_success _ _ _ _ _ _ H) as (tr0 & req & rest & T & Q).
  exists (tr1 ++ tr0), req, rest.
  split; [rewrite T, T1, <- !app_assoc; reflexivity|].
  apply Forall_app; auto.
Qed.

(** X7.  [pipeAuth] returns [nil] only when the upstream accepted: the
    last three things it did are to write a request to the upstream, to
    read a USERAUTH_SUCCESS from it and to write that packet, as it is, to
    the downstream. *)
Theorem pipeAuth_returns_nil_on_upstream_success
  (fuel : nat) (piper : SSHPiper) (p : pipedConn)
  (msg : userAuthRequestMsg) (w w' : World) :
  pipeAuth fuel (processAuthMsg piper p) msg w = (Val None, w') ->
  exists tr0 req rest,
    trace w' =
      trace w ++ tr0 ++
        [EvWrite Up (Marshal (MUserAuthRequest req)) None;
         EvRead Up (Ok (msgUserAuthSuccess :: rest));
         EvWrite Down (msgUserAuthSuccess :: rest) None].
Proof.
  intros H. destruct (pipeAuth_success _ _ _ _ _ _ H)
    as (tr0 & req & rest & T & _).
  eauto.
Qed.

Lemma success_just_relayed_longer tr tr1 e :
  success_just_relayed tr1 e -> success_just_relayed (tr ++ tr1) e.
Proof.
  intros (tr0 & rest & ->). exists (tr ++ tr0), rest.
  rewrite app_assoc. reflexivity.
Qed.

Lemma forwarding_is_late e :
  is_forwarding e = true -> is_sign e = true \/ is_forwarding e = true.
Proof. auto. Qed.

(** The trace of [loop], whatever its outcome. *)
Lemma loop_trace fuel w :
  exists trf,
    trace (snd (loop fuel w)) = trace w ++ EvForwarding :: trf /\
    Forall (fun e => is_forwarding e = false) trf.
Proof.
  assert (E : emits (fun _ e => is_forwarding e = false)
                (defer pipe_Close
                   (e <- forward fuel Reading Reading;; ret (Some e)))).
  { apply emits_defer; [|unfold pipe_Close, Close; emits_steps; reflexivity].
    apply emits_bind; [|intros; apply emits_ret].
    eapply emits_weaken; [|apply (emits_forward fuel Reading Reading)].
    intros _ [] H; try discriminate H; reflexivity. }
  destruct (E (log EvForwarding w)) as (_ & trf & T & Q).
  exists trf. split; [|exact Q].
  change (snd (loop fuel w)) with
    (snd (defer pipe_Close (e <- forward fuel Reading Reading;; ret (Some e))
            (log EvForwarding w))).
  rewrite T, trace_log, <- app_assoc. reflexivity.
Qed.

Lemma adds_Serve_piped fuel piper d userAuthReq :
  adds (preceded is_forwarding success_just_relayed)
    (Serve_piped fuel piper d userAuthReq).
Proof.
  intros w. unfold Serve_piped. cbv zeta.
  destruct (pipeAuth fuel (processAuthMsg piper {| pc_downstream := d |})
              userAuthReq w) as [ra w1] eqn:Ha.
  destruct (emits_run _ _ _ _ _ _ (emits_pipeAuth fuel piper _ userAuthReq) Ha)
    as (tra & T & Q & _).
  assert (Qa : Forall (fun e => is_forwarding e = false) tra).
  { eapply Forall_impl; [|exact Q].
    intros [] [E _]; try discriminate E; reflexivity. }
  assert (Hquiet : exists tr, trace w1 = trace w ++ tr /\
                     preceded is_forwarding success_just_relayed tr).
  { exists tra. split; [exact T|]. apply preceded_unmarked. exact Qa. }
  destruct ra as [[e|]|t|].
  - rewrite (bind_val _ _ _ _ _ _ _ Ha). exact Hquiet.
  - rewrite (bind_val _ _ _ _ _ _ _ Ha).
    destruct (loop_trace fuel w1) as (trf & Tf & Qf).
    exists (tra ++ EvForwarding :: trf).
    split; [rewrite Tf, T, <- app_assoc; reflexivity|].
    intros tr1 e tr2 E He.
    destruct (split_at_mark is_forwarding tra EvForwarding trf _ _ _ Qa Qf He E)
      as (-> & _ & _).
    destruct (pipeAuth_success _ _ _ _ _ _ Ha) as (tr0 & req & rest & T' & _).
    rewrite T in T'. apply app_inv_head in T'. subst tra.
    exists (tr0 ++ [EvWrite Up (Marshal (MUserAuthRequest req)) None]), rest.
    rewrite <- app_assoc. reflexivity.
  - rewrite (bind_panic _ _ _ _ _ _ _ Ha). exact Hquiet.
  - rewrite (bind_out_of_fuel _ _ _ _ _ _ Ha). exact Hquiet.
Qed.

(** X8.  The forwarding of packets starts only once the upstream accepted
    the authentication: in any run of [Serve], whatever the peers send and
    whatever the callbacks answer, the last two things that happened
    before the forwarding loop is entered are the reading of a
    USERAUTH_SUCCESS from the upstream and the writing of that packet to
    the downstream. *)
Theorem forwarding_follows_upstream_success
  (fuel : nat) (piper : SSHPiper) (conn : netConn) (w : World) :
  exists tr,
    trace (snd (Serve fuel piper conn w)) = trace w ++ tr /\
    forall tr1 tr2,
      tr = tr1 ++ EvForwarding :: tr2 ->
      exists tr0 rest,
        tr1 = tr0 ++ [EvRead Up (Ok (msgUserAuthSuccess :: rest));
                      EvWrite Down (msgUserAuthSuccess :: rest) None].
Proof.
  assert (H : adds (preceded is_forwarding success_just_relayed)
                (Serve fuel piper conn)).
  { apply adds_Serve;
      [apply success_just_relayed_longer|exact forwarding_is_late|].
    apply adds_Serve_piped. }
  destruct (H w) as (tr & T & P). exists tr. split; [exact T|].
  intros tr1 tr2 E. exact (P tr1 _ tr2 E eq_refl).
Qed.

End Authenticated.

(** ** The copiers *)

Lemma readPacket_next s w r rest :
  rx (side_of s w) = r :: rest ->
  exists w',
    readPacket s w = (Val r, w') /\
    trace w' = trace w ++ [EvRead s r] /\
    rx (side_of s w') = rest /\
    (forall s', tx (side_of s' w') = tx (side_of s' w)).
Proof.
  intros H. unfold readPacket. rewrite H.
  eexists. split; [reflexivity|].
  destruct s; simpl; repeat split; intros []; reflexivity.
Qed.

Lemma writePacket_free s p w :
  tx (side_of s w) = [] ->
  writePacket s p w = (Val None, log (EvWrite s p None) w).
Proof. intros H. unfold writePacket. rewrite H. reflexivity. Qed.

(** X9.  [piping] copies: the packets its source gives, up to the first
    error of a read, are written to its destination one by one, each right
    after it was read, in the same order and unchanged, and the error of
    that read is what [piping] returns. *)
Theorem piping_copies_in_order
  (dst src : side) (ps : list bytes) (e : error) (rest : list (result bytes)) :
  forall (fuel : nat) (w : World),
    rx (side_of src w) = map Ok ps ++ Err e :: rest ->
    tx (side_of dst w) = [] ->
    List.length ps < fuel ->
    exists w',
      piping fuel dst src w = (Val e, w') /\
      trace w' =
        trace w
          ++ flat_map (fun p => [EvRead src (Ok p); EvWrite dst p None]) ps
          ++ [EvRead src (Err e)] /\
      rx (side_of src w') = rest.
Proof.
  induction ps as [|p ps IH]; intros fuel w Hrx Htx Hfuel;
    (destruct fuel as [|fuel]; [inversion Hfuel|]); cbn [piping];
    simpl in Hrx;
    destruct (readPacket_next _ _ _ _ Hrx) as (w1 & Hr & T1 & R1 & X1);
    rewrite (bind_val _ _ _ _ _ _ _ Hr).
  - exists w1. auto.
  - rewrite (bind_val _ _ _ _ _ _ _
               (writePacket_free dst p w1 ltac:(rewrite X1; exact Htx))).
    destruct (IH fuel (log (EvWrite dst p None) w1)) as (w' & H & T & R).
    + destruct src; exact R1.
    + destruct dst; simpl; rewrite <- Htx; apply (X1 Down) || apply (X1 Up).
    + simpl in Hfuel. lia.
    + exists w'. split; [exact H|]. split; [|exact R].
      rewrite T, trace_log, T1. simpl. rewrite <- !app_assoc. reflexivity.
Qed.

Lemma reads_app s a b : reads s (a ++ b) = reads s a ++ reads s b.
Proof.
  induction a as [|x a IH]; [reflexivity|].
  destruct x as [s' [p|e]| | | | | | |]; simpl; try exact IH.
  destruct (side_eqb s s'); simpl; rewrite IH; reflexivity.
Qed.

Lemma writes_app s a b : writes s (a ++ b) = writes s a ++ writes s b.
Proof.
  induction a as [|x a IH]; [reflexivity|].
  destruct x as [|s' p e| | | | | |]; simpl; try exact IH.
  destruct (side_eqb s s'); simpl; rewrite IH; reflexivity.
Qed.

(** What the two copiers have read and written, the packets they hold
    counted with what they read. *)
Lemma forward_relays fuel : forall fromDown fromUp w,
  exists tr,
    trace (snd (forward fuel fromDown fromUp w)) = trace w ++ tr /\
    (exists held, List.length held <= 1 /\
       pending fromDown ++ reads Down tr = writes Up tr ++ held) /\
    (exists held, List.length held <= 1 /\
       pending fromUp ++ reads Up tr = writes Down tr ++ held).
Proof.
  assert (Hp : forall c, List.length (pending c) <= 1)
    by (intros []; simpl; lia).
  induction fuel as [|fuel IH]; intros a b w; cbn [forward].
  { exists []. split; [symmetry; apply app_nil_r|]. simpl.
    rewrite !app_nil_r. split; eexists; (split; [apply Hp|reflexivity]). }
  unfold bind at 1. unfold next_scheduled at 1.
  set (w0 := {| downstream := downstream w; upstream := upstream w;
                schedule := tl (schedule w); trace := trace w |}).
  change (trace w) with (trace w0).
  destruct (hd Down (schedule w)).
  - (* the copier that reads the downstream moves *)
    destruct a as [|p]; cbn [piping_step].
    + destruct (readPacket_run Down w0) as (r & w1 & Hr & T1 & _).
      rewrite bind_bind, (bind_val _ _ _ _ _ _ _ Hr).
      destruct r as [p|e]; rewrite bind_ret.
      * destruct (IH (Writing p) b w1)
          as (tr & T & (h1 & L1 & E1) & (h2 & L2 & E2)).
        exists (EvRead Down (Ok p) :: tr).
        split; [rewrite T, T1, <- app_assoc; reflexivity|].
        split; [exists h1|exists h2]; (split; [assumption|]);
          simpl in *; assumption.
      * exists [EvRead Down (Err e)]. split; [exact T1|]. simpl.
        rewrite app_nil_r.
        split; eexists; (split; [|reflexivity]); [simpl; lia|apply Hp].
    + destruct (writePacket_run Up p w0) as (e & w1 & Hw & T1 & _).
      rewrite bind_bind, (bind_val _ _ _ _ _ _ _ Hw).
      destruct e as [e|]; rewrite bind_ret.
      * exists [EvWrite Up p (Some e)]. split; [exact T1|]. simpl.
        rewrite app_nil_r.
        split; [exists []|exists (pending b)];
          (split; [|reflexivity]); [simpl; lia|apply Hp].
      * destruct (IH Reading b w1)
          as (tr & T & (h1 & L1 & E1) & (h2 & L2 & E2)).
        exists (EvWrite Up p None :: tr).
        split; [rewrite T, T1, <- app_assoc; reflexivity|].
        split; [exists h1|exists h2]; (split; [assumption|]);
          simpl in *; [rewrite E1; reflexivity|assumption].
  - (* the copier that reads the upstream moves *)
    destruct b as [|p]; cbn [piping_step].
    + destruct (readPacket_run Up w0) as (r & w1 & Hr & T1 & _).
      rewrite bind_bind, (bind_val _ _ _ _ _ _ _ Hr).
      destruct r as [p|e]; rewrite bind_ret.
      * destruct (IH a (Writing p) w1)
          as (tr & T & (h1 & L1 & E1) & (h2 & L2 & E2)).
        exists (EvRead Up (Ok p) :: tr).
        split; [rewrite T, T1, <- app_assoc; reflexivity|].
        split; [exists h1|exists h2]; (split; [assumption|]);
          simpl in *; assumption.
      * exists [EvRead Up (Err e)]. split; [exact T1|]. simpl.
        rewrite app_nil_r.
        split; eexists; (split; [|reflexivity]); [apply Hp|simpl; lia].
    + destruct (writePacket_run Down p w0) as (e & w1 & Hw & T1 & _).
      rewrite bind_bind, (bind_val _ _ _ _ _ _ _ Hw).
      destruct e as [e|]; rewrite bind_ret.
      * exists [EvWrite Down p (Some e)]. split; [exact T1|]. simpl.
        rewrite app_nil_r.
        split; [exists (pending a)|exists []];
          (split; [|reflexivity]); [apply Hp|simpl; lia].
      * destruct (IH a Reading w1)
          as (tr & T & (h1 & L1 & E1) & (h2 & L2 & E2)).
        exists (EvWrite Down p None :: tr).
        split; [rewrite T, T1, <- app_assoc; reflexivity|].
        split; [exists h1|exists h2]; (split; [assumption|]);
          simpl in *; [assumption|rewrite E2; reflexivity].
Qed.

(** X10.  The forwarding loop relays and nothing more, however the two
    copiers are scheduled: the packets written to the upstream are the
    packets read from the downstream, in the same order and unchanged, but
    for at most one that was read and not written when the loop ended;
    and the same from the upstream to the downstream. *)
Theorem forwarding_relays_what_it_reads (fuel : nat) (w : World) :
  exists tr,
    trace (snd (loop fuel w)) = trace w ++ tr /\
    (exists held, List.length held <= 1 /\
       reads Down tr = writes Up tr ++ held) /\
    (exists held, List.length held <= 1 /\
       reads Up tr = writes Down tr ++ held).
Proof.
  destruct (forward_relays fuel Reading Reading (log EvForwarding w))
    as (trf & T & (h1 & L1 & E1) & (h2 & L2 & E2)).
  simpl in E1, E2. rewrite trace_log in T.
  assert (C : forall s tr', reads s (EvForwarding :: trf ++ tr') =
                            reads s trf ++ reads s tr').
  { intros s tr'. simpl. apply reads_app. }
  assert (D : forall s tr', writes s (EvForwarding :: trf ++ tr') =
                            writes s trf ++ writes s tr').
  { intros s tr'. simpl. apply writes_app. }
  unfold loop, bind at 1, emit, defer, bind.
  destruct (forward fuel Reading Reading (log EvForwarding w))
    as [[e|t|] w1]; cbn [snd] in *.
  1,2: exists (EvForwarding :: trf ++ [EvClose Up; EvClose Down]);
    (split; [simpl; rewrite T, <- !app_assoc; reflexivity|]);
    rewrite !C, !D; simpl; rewrite !app_nil_r;
    split; [exists h1|exists h2]; auto.
  exists (EvForwarding :: trf ++ []).
  split; [rewrite app_nil_r, T, <- app_assoc; reflexivity|].
  rewrite !C, !D; simpl; rewrite !app_nil_r.
  split; [exists h1|exists h2]; auto.
Qed.

(** ** The first request and the upstream *)

Section First_request.
Context {L : SSHLib}.

(** X11.  A first packet that is a request for another service than
    ssh-connection ends the session: [nextAuthMsg] gives the error that
    names the service, [Serve] returns it, and all [Serve] did is to read
    that packet and to close the downstream: no challenge, no
    [FindUpstream]. *)
Theorem unknown_service_ends_the_session
  (fuel : nat) (piper : SSHPiper) (conn : netConn) (w : World)
  (packet : bytes) (rest : list (result bytes)) (req : userAuthRequestMsg) :
  handshake (downstream w) = None ->
  rx (downstream w) = Ok packet :: rest ->
  Unmarshal_userAuthRequest packet zero_userAuthRequestMsg = (req, None) ->
  Service req <> serviceSSH ->
  let err :=
    errors_New ("ssh: client attempted to negotiate for unknown service: "
                  ++ Service req) in
  fst (nextAuthMsg w) = Val (Err err) /\
  fst (Serve fuel piper conn w) = Val (Some err) /\
  trace (snd (Serve fuel piper conn w)) =
    trace w ++ [EvRead Down (Ok packet); EvClose Down].
Proof.
  intros Hh Hrx Hu Hs err.
  destruct (readPacket_next Down w _ _ Hrx) as (w1 & Hr & T1 & _).
  assert (Hn : nextAuthMsg w = (Val (Err err), w1)).
  { unfold nextAuthMsg. rewrite (bind_val _ _ _ _ _ _ _ Hr), Hu.
    destruct (String.eqb_spec (Service req) serviceSSH); [contradiction|].
    reflexivity. }
  assert (Hd : exists d, newDownstream conn w = (Val (Ok d), w)).
  { unfold newDownstream, bind, handshake_of, sessionID_of, ret. simpl.
    rewrite Hh. eexists. reflexivity. }
  destruct Hd as (d & Hd).
  assert (HS : Serve fuel piper conn w = (Val (Some err), log (EvClose Down) w1)).
  { unfold Serve. rewrite (bind_val _ _ _ _ _ _ _ Hd). cbv beta iota.
    erewrite defer_val; [reflexivity|].
    rewrite (bind_val _ _ _ _ _ _ _ Hn). reflexivity. }
  rewrite Hn, HS. repeat split. simpl. rewrite T1, <- app_assoc. reflexivity.
Qed.

Lemma extends_bind A B Q (m : M A) (k : A -> M B) w :
  (forall a, emits Q (k a)) ->
  exists tr, trace (snd (bind m k w)) = trace (snd (m w)) ++ tr.
Proof.
  intros Hk. unfold bind. destruct (m w) as [[a|t|] w1]; simpl;
    try (exists []; symmetry; apply app_nil_r).
  destruct (Hk a w1) as (_ & tr & T & _). eauto.
Qed.

Lemma extends_defer A Q (fin : M unit) (m : M A) w :
  emits Q fin ->
  exists tr, trace (snd (defer fin m w)) = trace (snd (m w)) ++ tr.
Proof.
  intros Hf. unfold defer. destruct (m w) as [[a|t|] w1]; simpl;
    try (exists []; symmetry; apply app_nil_r);
    destruct (Hf w1) as (_ & tr & T & _); eauto.
Qed.

(** X12.  The request that is passed on is the first one.  The coercion
    loop of the additional challenge reads requests into a variable of its
    own, so once the challenge is passed [pipeAuth] starts from the request
    that opened the session: when that request is of another method than
    publickey, it is the first thing written to the upstream after the
    service was accepted, and the user the callbacks were given is the
    user it names. *)
Theorem first_request_is_the_one_passed_on
  (fuel : nat) (piper : SSHPiper) (conn : netConn) (w : World)
  (d : ConnMetadata) (req : userAuthRequestMsg) (w1 : World) :
  reaches_pipeAuth fuel piper conn w d req w1 ->
  Method req <> "publickey" ->
  fuel <> 0 ->
  (exists packet tr0,
      trace w1 = trace w ++ EvRead Down (Ok packet) :: tr0 /\
      decode packet = Ok req) /\
  cm_User d = User req /\
  exists e tr,
    trace (snd (Serve fuel piper conn w)) =
      trace w1 ++ EvWrite Up (Marshal (MUserAuthRequest req)) e :: tr.
Proof.
  intros Hr Hm Hfuel.
  assert (Hrun := Serve_reaching_pipeAuth _ _ _ _ _ _ _ Hr).
  destruct Hr as (d0 & wa & wb & wc & upconn & wd & we
                  & H1 & H2 & -> & H3 & H4 & H5 & H6).
  split; [|split; [reflexivity|]].
  - assert (E1 : wa = w).
    { destruct (newDownstream_run conn w) as [[e E]|[d' E]];
        rewrite E in H1; [discriminate|]. injection H1 as _ <-. reflexivity. }
    subst wa.
    destruct (nextAuthMsg_run w) as (r & w' & _ & T & _ & Hn).
    rewrite Hn in H2. injection H2 as H2 <-.
    destruct r as [packet|e]; [|discriminate].
    destruct (emits_run _ _ _ _ _ _ (emits_additional_challenge fuel piper _) H3)
      as (tr3 & T3 & _).
    assert (E4 : emits (fun _ _ => True) (call_FindUpstream piper
                  (set_user (User req) d0)))
      by (unfold call_FindUpstream; emits_steps; exact I).
    destruct (emits_run _ _ _ _ _ _ E4 H4) as (tr4 & T4 & _).
    assert (E5 : emits (fun _ _ => True) (newUpstream upconn (RemoteAddr upconn)))
      by (unfold newUpstream, Close; emits_steps; exact I).
    destruct (emits_run _ _ _ _ _ _ E5 H5) as (tr5 & T5 & _).
    assert (E6 : emits (fun _ _ => True) sendAuthReq)
      by (unfold sendAuthReq; emits_steps; exact I).
    destruct (emits_run _ _ _ _ _ _ E6 H6) as (tr6 & T6 & _).
    exists packet, (tr3 ++ tr4 ++ tr5 ++ tr6).
    split; [rewrite T6, T5, T4, T3, T, <- !app_assoc; reflexivity|].
    destruct (decode packet); congruence.
  - rewrite Hrun. destruct fuel as [|fuel]; [contradiction|].
    cbn [pipeAuth_for].
    set (proc := processAuthMsg piper
                   {| pc_downstream := set_user (User req) d0 |}).
    assert (Hh := processAuthMsg_other piper
                    {| pc_downstream := set_user (User req) d0 |} req w1 Hm).
    destruct (pipeAuth_turn_writes proc _ _ _ _ Hh) as (e & tr & T & _).
    assert (EC : forall s, emits (fun _ _ => True) (Close s))
      by (intros s; unfold Close; emits_steps; exact I).
    match goal with
    | |- context [trace (snd (defer ?fin ?m ?w0))] =>
        destruct (extends_defer _ (fun _ _ => True) fin m w0 (EC Down))
          as (t1 & ->)
    end.
    match goal with
    | |- context [trace (snd (defer ?fin ?m ?w0))] =>
        destruct (extends_defer _ (fun _ _ => True) fin m w0 (EC Up))
          as (t2 & ->)
    end.
    rewrite bind_bind.
    match goal with
    | |- context [trace (snd (bind ?m ?k ?w0))] =>
        destruct (extends_bind _ _ (fun _ _ => True) m k w0) as (t3 & ->)
    end.
    { intros [err|msg1].
      - apply emits_bind; [apply emits_ret|].
        intros [e0|]; [apply emits_ret|].
        any_events (emits_loop (S fuel)).
      - apply emits_bind; [any_events (emits_pipeAuth_for fuel piper
                {| pc_downstream := set_user (User req) d0 |} msg1)|].
        intros [e0|]; [apply emits_ret|].
        any_events (emits_loop (S fuel)). }
    rewrite T. exists e, (tr ++ t3 ++ t2 ++ t1).
    rewrite <- !app_assoc. reflexivity.
Qed.

End First_request.

Section Upstream.
Context {L : SSHLib}.

Lemma found_then pre x post :
  Forall (fun e => uses_upstream e = false) pre ->
  (x <> None -> Forall (fun e => uses_upstream e = false) post) ->
  preceded uses_upstream (fun tr1 _ => In (EvFindUpstream None) tr1)
    (pre ++ EvFindUpstream x :: post).
Proof.
  intros Hpre Hpost tr1 e tr2 E He.
  assert (Hin : forall l, Forall (fun e => uses_upstream e = false) l ->
                          ~ In e l).
  { intros l Hl Hi. rewrite Forall_forall in Hl. apply Hl in Hi. congruence. }
  apply app_eq_app in E. destruct E as (l & [[-> E]|[-> E]]).
  - exfalso. destruct l as [|y l]; simpl in E.
    + injection E as E _. subst e. discriminate He.
    + injection E as E _. subst y. apply (Hin _ Hpre).
      apply in_or_app; right; left; reflexivity.
  - destruct l as [|y l]; simpl in E.
    + injection E as E _. subst e. discriminate He.
    + injection E as E E'. subst y post.
      destruct x as [err|].
      * exfalso. apply (Hin _ (Hpost ltac:(discriminate))).
        apply in_or_app; right; left; reflexivity.
      * apply in_or_app; right; left; reflexivity.
Qed.

Lemma no_FindUpstream (f : event -> bool) tr :
  (forall e, f e = true -> is_FindUpstream e = false) ->
  Forall (fun e => f e = true) tr ->
  filter is_FindUpstream tr = [].
Proof.
  intros Hf H. induction H as [|e tr He _ IH]; [reflexivity|].
  simpl. rewrite (Hf e He). exact IH.
Qed.

Lemma gate_unused piper v trg :
  gate piper v trg ->
  Forall (fun e => uses_upstream e = false) trg /\
  filter is_FindUpstream trg = [].
Proof.
  intros G. assert (H := gate_gate_io _ _ _ G). split.
  - eapply Forall_impl; [|exact H]. by_events.
  - apply (no_FindUpstream gate_io); [by_events|exact H].
Qed.

(** X13.  [Serve] asks for the upstream once at most, and does nothing
    with an upstream before [FindUpstream] gave one: whatever is read from
    the upstream, written to it, signed for it or closed on its side
    comes, in the trace of a session, after a call of [FindUpstream] that
    returned a connection. *)
Theorem upstream_is_used_once_found
  (fuel : nat) (piper : SSHPiper) (conn : netConn) (w : World)
  (r : outcome (option error)) (w' : World) :
  Serve fuel piper conn w = (r, w') ->
  r <> OutOfFuel ->
  exists tr,
    trace w' = trace w ++ tr /\
    List.length (filter is_FindUpstream tr) <= 1 /\
    forall tr1 e tr2,
      tr = tr1 ++ e :: tr2 ->
      uses_upstream e = true ->
      In (EvFindUpstream None) tr1.
Proof.
  intros H Hr.
  destruct (Serve_session _ _ _ _ _ _ H Hr) as (tr & T & S).
  exists tr. split; [exact T|].
  assert (Hauth : forall tra, Forall (fun e => auth_io e = true) tra ->
                              filter is_FindUpstream tra = []).
  { intros tra. apply (no_FindUpstream auth_io). by_events. }
  assert (Hpkt : forall trf, Forall (fun e => packet_io e = true) trf ->
                             filter is_FindUpstream trf = []).
  { intros trf. apply (no_FindUpstream packet_io). by_events. }
  destruct S as [e|r0 e _|p trg e G|p trg e G|p trg e G
                 |p trg tra r G Qa _|p trg tra trf r G Qa Qf];
    try destruct (gate_unused _ _ _ G) as (Gu & Gf).
  - split; [simpl; lia|]. apply preceded_unmarked. repeat constructor.
  - split; [simpl; lia|]. apply preceded_unmarked. repeat constructor.
  - split.
    + simpl. rewrite filter_app, Gf. simpl. lia.
    + apply preceded_unmarked. constructor; [reflexivity|].
      apply Forall_app; split; [exact Gu|repeat constructor].
  - split.
    + simpl. rewrite filter_app, Gf. simpl. lia.
    + apply (found_then (EvRead Down (Ok p) :: trg) (Some e) [EvClose Down]).
      * constructor; [reflexivity|exact Gu].
      * intros _. repeat constructor.
  - split.
    + simpl. rewrite filter_app, Gf. simpl. lia.
    + apply (found_then (EvRead Down (Ok p) :: trg) None
               [EvClose Up; EvClose Down]).
      * constructor; [reflexivity|exact Gu].
      * intros X; contradiction.
  - split.
    + simpl. rewrite filter_app, Gf. simpl.
      rewrite filter_app, (Hauth _ Qa). simpl. lia.
    + apply (found_then (EvRead Down (Ok p) :: trg) None
               (tra ++ [EvClose Up; EvClose Down])).
      * constructor; [reflexivity|exact Gu].
      * intros X; contradiction.
  - split.
    + simpl. rewrite filter_app, Gf. simpl.
      rewrite filter_app, (Hauth _ Qa). simpl.
      rewrite filter_app, (Hpkt _ Qf). simpl. lia.
    + apply (found_then (EvRead Down (Ok p) :: trg) None
               (tra ++ EvForwarding :: trf
                  ++ [EvClose Up; EvClose Down; EvClose Up; EvClose Down])).
      * constructor; [reflexivity|exact Gu].
      * intros X; contradiction.
Qed.

(** X14.  A reply of the upstream with no byte in it makes the turn of
    [pipeAuth] panic, on [packet[0]]; the panic goes up through [Serve],
    whose deferred calls close the upstream and the downstream on the
    way. *)
Theorem empty_reply_of_the_upstream_panics
  (fuel : nat) (piper : SSHPiper) (conn : netConn) (w : World)
  (d : ConnMetadata) (userAuthReq : userAuthRequestMsg) (w1 : World)
  (n : nat) (msg : userAuthRequestMsg) (w2 : World)
  (req : userAuthRequestMsg) (w3 w4 w5 : World) :
  reaches_pipeAuth fuel piper conn w d userAuthReq w1 ->
  turns (processAuthMsg piper {| pc_downstream := d |}) n userAuthReq w1 msg w2 ->
  processAuthMsg piper {| pc_downstream := d |} msg w2 =
    (Val (Some req, None), w3) ->
  writePacket Up (Marshal (MUserAuthRequest req)) w3 = (Val None, w4) ->
  readPacket Up w4 = (Val (Ok []), w5) ->
  n < fuel ->
  pipeAuth_turn (processAuthMsg piper {| pc_downstream := d |}) msg w2 =
    (Panic "index out of range", w5) /\
  Serve fuel piper conn w = (Panic "index out of range", closed_both w5).
Proof.
  intros Hr Ht Hh Hw Hread Hfuel.
  assert (Hturn : pipeAuth_turn (processAuthMsg piper {| pc_downstream := d |})
                    msg w2 = (Panic "index out of range", w5)).
  { unfold pipeAuth_turn. rewrite (bind_val _ _ _ _ _ _ _ Hh). cbv beta iota.
    rewrite (bind_val _ _ _ _ _ _ _ Hw). cbv beta iota.
    rewrite (bind_val _ _ _ _ _ _ _ Hread). reflexivity. }
  split; [exact Hturn|].
  rewrite (Serve_reaching_pipeAuth _ _ _ _ _ _ _ Hr).
  assert (Hfor : pipeAuth_for fuel (processAuthMsg piper {| pc_downstream := d |})
                   userAuthReq w1 = (Panic "index out of range", w5)).
  { replace fuel with (n + S (fuel - S n)) by lia.
    rewrite (pipeAuth_for_turns _ _ _ _ _ _ Ht). cbn [pipeAuth_for].
    rewrite (bind_panic _ _ _ _ _ _ _ Hturn). reflexivity. }
  unfold defer. rewrite (bind_panic _ _ _ _ _ _ _ Hfor). reflexivity.
Qed.

End Upstream.

(** ** The key files of a user *)

Lemma bytes_Equal_eq (a b : bytes) : bytes_Equal a b = true <-> a = b.
Proof.
  revert b. induction a as [|x a IH]; intros [|y b]; simpl;
    try (split; [discriminate|discriminate]); [tauto|].
  rewrite andb_true_iff, byte_eqb_iff, IH. split.
  - intros [-> ->]. reflexivity.
  - intros [= -> ->]. auto.
Qed.

Lemma bytes_Equal_neq (a b : bytes) : bytes_Equal a b = false <-> a <> b.
Proof.
  destruct (bytes_Equal a b) eqn:E.
  - apply bytes_Equal_eq in E. split; [discriminate|contradiction].
  - split; [|reflexivity]. intros _ H. apply bytes_Equal_eq in H. congruence.
Qed.

Section Keys.
Context {L : SSHLib} {sys : OS}.

Lemma mapPublicKey_for_scanned user keydata n rest rest' :
  scanned keydata n rest rest' ->
  forall fuel,
    mapPublicKey_for (n + fuel) user keydata rest =
      mapPublicKey_for fuel user keydata rest'.
Proof.
  induction 1 as [|n rest k rest1 rest' Hne Hp Hk _ IH]; intros fuel;
    [reflexivity|].
  destruct rest as [|b rest]; [contradiction|].
  cbn [Nat.add mapPublicKey_for]. rewrite Hp.
  apply bytes_Equal_neq in Hk. rewrite Hk. apply IH.
Qed.

Lemma mapPublicKey_for_at user keydata fuel rest :
  rest <> [] ->
  mapPublicKey_for (S fuel) user keydata rest =
    match ParseAuthorizedKey rest with
    | Err err => Val (None, Some err)
    | Ok (authedPubkey, rest') =>
        if bytes_Equal (pk_Marshal authedPubkey) keydata then found_key user
        else mapPublicKey_for fuel user keydata rest'
    end.
Proof. destruct rest; [contradiction|reflexivity]. Qed.

Lemma found_key_signer user private err :
  found_key user = Val (Some private, err) ->
  err = None /\ private_key user private.
Proof.
  unfold found_key, private_key.
  destruct (check400 UserKeyFile user); [discriminate|].
  destruct (read UserKeyFile user) as [privateBytes|]; [|discriminate].
  destruct (ParsePrivateKey privateBytes) as [s|] eqn:E; [|discriminate].
  intros [= <- <-]. eauto.
Qed.

Lemma private_key_found user private :
  private_key user private -> found_key user = Val (Some private, None).
Proof.
  unfold found_key. intros (-> & privateBytes & -> & ->). reflexivity.
Qed.

Lemma mapPublicKey_for_signer user keydata fuel : forall rest private err,
  mapPublicKey_for fuel user keydata rest = Val (Some private, err) ->
  err = None /\ listed keydata rest /\ private_key user private.
Proof.
  induction fuel as [|fuel IH]; intros rest private err.
  { destruct rest; discriminate. }
  destruct rest as [|b rest]; [discriminate|].
  set (r := b :: rest). assert (Hr : r <> []) by discriminate.
  rewrite (mapPublicKey_for_at _ _ _ _ Hr).
  destruct (ParseAuthorizedKey r) as [[k rest1]|e] eqn:Hp; [|discriminate].
  destruct (bytes_Equal (pk_Marshal k) keydata) eqn:Hk.
  - intros H. destruct (found_key_signer _ _ _ H) as (-> & Hs).
    split; [reflexivity|]. split; [|exact Hs].
    exists 0, r, k, rest1. apply bytes_Equal_eq in Hk.
    repeat split; auto. constructor.
  - intros H. destruct (IH _ _ _ H) as (-> & Hl & Hs).
    split; [reflexivity|]. split; [|exact Hs].
    destruct Hl as (n & rest' & k' & rest'' & Hsc & Hne & Hp' & Hk').
    exists (S n), rest', k', rest''. repeat split; auto.
    apply bytes_Equal_neq in Hk.
    eapply scanned_next; eassumption.
Qed.

Lemma mapPublicKey_for_listed user keydata rest :
  listed keydata rest ->
  exists n, forall fuel,
    n < fuel -> mapPublicKey_for fuel user keydata rest = found_key user.
Proof.
  intros (n & rest' & k & rest'' & Hsc & Hne & Hp & Hk).
  exists n. intros fuel Hfuel.
  replace fuel with (n + S (fuel - S n)) by lia.
  rewrite (mapPublicKey_for_scanned user _ _ _ _ Hsc).
  rewrite (mapPublicKey_for_at _ _ _ _ Hne), Hp.
  apply bytes_Equal_eq in Hk. rewrite Hk. reflexivity.
Qed.

(** X15.  [mapPublicKeyFromUserfile] gives a signer exactly when the
    [authorized_keys] of the user has mode 0400 and can be read, the key
    is one of its entries and every entry before it parses, the [id_rsa]
    of the user has mode 0400 and can be read, and the signer is what
    [ParsePrivateKey] makes of it.  It never gives a signer together with
    an error. *)
Theorem signer_is_given_for_a_listed_key
  (conn : ConnMetadata) (key : PublicKey) (private : Signer) :
  ((exists fuel,
       mapPublicKeyFromUserfile fuel conn key = Val (Some private, None)) <->
   check400 UserAuthorizedKeysFile (cm_User conn) = None /\
   (exists rest,
       read UserAuthorizedKeysFile (cm_User conn) = Ok rest /\
       listed (pk_Marshal key) rest) /\
   private_key (cm_User conn) private) /\
  forall fuel e,
    mapPublicKeyFromUserfile fuel conn key <> Val (Some private, Some e).
Proof.
  assert (Hinv : forall fuel err,
             mapPublicKeyFromUserfile fuel conn key = Val (Some private, err) ->
             err = None /\
             check400 UserAuthorizedKeysFile (cm_User conn) = None /\
             (exists rest,
                 read UserAuthorizedKeysFile (cm_User conn) = Ok rest /\
                 listed (pk_Marshal key) rest) /\
             private_key (cm_User conn) private).
  { intros fuel err. unfold mapPublicKeyFromUserfile.
    destruct (check400 UserAuthorizedKeysFile (cm_User conn)); [discriminate|].
    destruct (read UserAuthorizedKeysFile (cm_User conn)) as [rest|];
      [|discriminate].
    intros H. destruct (mapPublicKey_for_signer _ _ _ _ _ _ H) as (-> & Hl & Hs).
    eauto 6. }
  split; [split|].
  - intros (fuel & H). exact (proj2 (Hinv _ _ H)).
  - intros (Hc & (rest & Hr & Hl) & Hs).
    destruct (mapPublicKey_for_listed (cm_User conn) _ _ Hl) as (n & Hn).
    exists (S n). unfold mapPublicKeyFromUserfile. rewrite Hc, Hr.
    rewrite (Hn (S n) (Nat.lt_succ_diag_r n)).
    exact (private_key_found _ _ Hs).
  - intros fuel e H. destruct (Hinv _ _ H) as (X & _). discriminate X.
Qed.

(** X16.  The scan of [authorized_keys] stops at the first entry that
    does not parse, with the error of the parser and without looking
    further; and when every entry parses and none is the key, it ends with
    no signer and no error.  Either way a piper that maps keys with
    [mapPublicKeyFromUserfile] sends the request on as a request of method
    "none". *)
Theorem unlisted_key_is_denied
  (fuel : nat) (conn : ConnMetadata) (key : PublicKey)
  (rest : bytes) (n : nat) (rest' : bytes) :
  check400 UserAuthorizedKeysFile (cm_User conn) = None ->
  read UserAuthorizedKeysFile (cm_User conn) = Ok rest ->
  scanned (pk_Marshal key) n rest rest' ->
  n < fuel ->
  (rest' = [] -> mapPublicKeyFromUserfile fuel conn key = Val (None, None)) /\
  (forall e,
      rest' <> [] -> ParseAuthorizedKey rest' = Err e ->
      mapPublicKeyFromUserfile fuel conn key = Val (None, Some e)) /\
  (rest' = [] \/ (exists e, ParseAuthorizedKey rest' = Err e) ->
   forall piper p msg isQuery sig w,
     MapPublicKey piper = mapPublicKeyFromUserfile fuel ->
     pc_downstream p = conn ->
     parsePublicKeyMsg msg = Ok (key, isQuery, sig) ->
     processAuthMsg piper p msg w =
       (Val (Some (noneAuthMsg (User msg)), None), w)).
Proof.
  intros Hc Hr Hsc Hfuel.
  assert (Hrun : mapPublicKeyFromUserfile fuel conn key =
                 mapPublicKey_for (fuel - n) (cm_User conn) (pk_Marshal key) rest').
  { unfold mapPublicKeyFromUserfile. rewrite Hc, Hr.
    replace fuel with (n + (fuel - n)) at 1 by lia.
    apply mapPublicKey_for_scanned. exact Hsc. }
  assert (H1 : rest' = [] ->
               mapPublicKeyFromUserfile fuel conn key = Val (None, None)).
  { intros ->. rewrite Hrun. destruct (fuel - n); reflexivity. }
  assert (H2 : forall e, rest' <> [] -> ParseAuthorizedKey rest' = Err e ->
               mapPublicKeyFromUserfile fuel conn key = Val (None, Some e)).
  { intros e Hne Hp. rewrite Hrun.
    replace (fuel - n) with (S (fuel - S n)) by lia.
    rewrite (mapPublicKey_for_at _ _ _ _ Hne), Hp. reflexivity. }
  split; [exact H1|]. split; [exact H2|].
  intros Hcase piper p msg isQuery sig w HM Hd Hp.
  assert (Hm : Method msg = "publickey")
    by exact (proj1 (parsePublicKeyMsg_inv _ _ _ _ Hp)).
  assert (Hnone : exists err, mapPublicKeyFromUserfile fuel conn key =
                              Val (None, err)).
  { destruct rest' as [|b rest'].
    - exists None. apply H1. reflexivity.
    - destruct Hcase as [Hcase|(e & Hcase)]; [discriminate|].
      exists (Some e). apply H2; [discriminate|exact Hcase]. }
  destruct Hnone as (err & Hnone).
  apply (processAuthMsg_unmapped piper p msg w key isQuery sig None err);
    try assumption.
  - rewrite HM, Hd. exact Hnone.
  - left. reflexivity.
Qed.

(** X17.  The loop over [authorized_keys] ends: when [ParseAuthorizedKey]
    uses up some of its input whenever it gives a key, the scan returns
    within as many rounds as the file has bytes, and so [Serve] of the
    piper of [main] returns (or panics) once it has fuel for twice the
    packets the peers are going to send. *)
Theorem key_scan_ends (bound : nat) :
  (forall input authedPubkey rest,
      ParseAuthorizedKey input = Ok (authedPubkey, rest) ->
      List.length rest < List.length input) ->
  (forall path content,
      ioutil_ReadFile path = Ok content -> List.length content <= bound) ->
  (forall user keydata rest,
      List.length rest <= bound ->
      exists r, mapPublicKey_for bound user keydata rest = Val r) /\
  (forall conn key,
      exists r, mapPublicKeyFromUserfile bound conn key = Val r) /\
  (forall fuel conn w,
      2 * (unread Down w + unread Up w) < fuel ->
      fst (Serve fuel (piper_of_main bound) conn w) <> OutOfFuel).
Proof.
  intros Hparse Hfiles.
  assert (Hfor : forall fuel user keydata rest,
             List.length rest <= fuel ->
             exists r, mapPublicKey_for fuel user keydata rest = Val r).
  { induction fuel as [|fuel IH]; intros user keydata rest Hlen.
    - destruct rest; [simpl; eauto|simpl in Hlen; lia].
    - destruct rest as [|b rest]; [simpl; eauto|].
      set (r := b :: rest) in *. assert (Hr : r <> []) by discriminate.
      rewrite (mapPublicKey_for_at _ _ _ _ Hr).
      destruct (ParseAuthorizedKey r) as [[k rest1]|e] eqn:Hp; [|eauto].
      destruct (bytes_Equal (pk_Marshal k) keydata).
      + unfold found_key.
        destruct (check400 UserKeyFile user); [eauto|].
        destruct (read UserKeyFile user) as [privateBytes|]; [|eauto].
        destruct (ParsePrivateKey privateBytes); eauto.
      + apply IH. apply Hparse in Hp. lia. }
  assert (Hmap : forall conn key,
             exists r, mapPublicKeyFromUserfile bound conn key = Val r).
  { intros conn key. unfold mapPublicKeyFromUserfile.
    destruct (check400 UserAuthorizedKeysFile (cm_User conn)); [eauto|].
    destruct (read UserAuthorizedKeysFile (cm_User conn)) as [rest|] eqn:Hr;
      [|eauto].
    apply Hfor. exact (Hfiles _ _ Hr). }
  split; [intros; apply Hfor; assumption|]. split; [exact Hmap|].
  intros fuel conn w Hfuel. apply Serve_returns; [|exact Hfuel].
  intros d key. simpl. destruct (Hmap d key) as (r & ->). discriminate.
Qed.

End Keys.

(** ** The service request and the call of [FindUpstream] *)

Section Service.
Context {L : SSHLib}.

(** X18.  [pipeAuth] starts by asking the upstream for the service
    ssh-userauth, and looks at no request of the client before the
    upstream accepted: when the write fails, when the read of the reply
    fails or when the reply is no SERVICE_ACCEPT, [pipeAuth] returns that
    error and has done nothing else. *)
Theorem service_is_requested_first
  (fuel : nat) (piper : SSHPiper) (p : pipedConn)
  (msg : userAuthRequestMsg) (w : World) :
  let run := pipeAuth fuel (processAuthMsg piper p) msg w in
  exists e tr,
    trace (snd run) =
      trace w ++ EvWrite Up (Marshal (MServiceRequest serviceUserAuth)) e :: tr /\
    match e with
    | Some err => tr = [] /\ fst run = Val (Some err)
    | None =>
        exists r tr',
          tr = EvRead Up r :: tr' /\
          match r with
          | Err err => tr' = [] /\ fst run = Val (Some err)
          | Ok packet =>
              match Unmarshal_serviceAccept packet with
              | Some err => tr' = [] /\ fst run = Val (Some err)
              | None => True
              end
          end
    end.
Proof.
  cbv zeta. unfold pipeAuth, sendAuthReq.
  destruct (writePacket_run Up (Marshal (MServiceRequest serviceUserAuth)) w)
    as (e & w1 & Hw & T1 & _).
  rewrite bind_bind, (bind_val _ _ _ _ _ _ _ Hw). exists e.
  destruct e as [err|].
  { exists []. rewrite !bind_ret. simpl. auto. }
  destruct (readPacket_run Up w1) as (r & w2 & Hr & T2 & _).
  rewrite bind_bind, (bind_val _ _ _ _ _ _ _ Hr).
  destruct r as [packet|err].
  2:{ exists [EvRead Up (Err err)]. rewrite !bind_ret. simpl.
      split; [rewrite T2, T1, <- app_assoc; reflexivity|].
      exists (Err err), []. auto. }
  rewrite bind_ret.
  destruct (Unmarshal_serviceAccept packet) as [err|] eqn:Hu.
  { exists [EvRead Up (Ok packet)]. simpl.
    split; [rewrite T2, T1, <- app_assoc; reflexivity|].
    exists (Ok packet), []. rewrite Hu. auto. }
  destruct (emits_pipeAuth_for fuel piper p msg w2) as (_ & tr & T & _).
  exists (EvRead Up (Ok packet) :: tr).
  split; [rewrite T, T2, T1, <- !app_assoc; reflexivity|].
  exists (Ok packet), tr. rewrite Hu. auto.
Qed.

(** What [Serve] does first when there is no additional challenge. *)
Lemma Serve_without_challenger
  (fuel : nat) (piper : SSHPiper) (conn : netConn) (w : World)
  (packet : bytes) (rest : list (result bytes)) (req : userAuthRequestMsg) :
  AdditionalChallenge piper = None ->
  handshake (downstream w) = None ->
  rx (downstream w) = Ok packet :: rest ->
  decode packet = Ok req ->
  let d := {| cm_User := User req; cm_RemoteAddr := RemoteAddr conn;
              cm_SessionID := getSessionID (downstream w) |} in
  exists tr,
    trace (snd (Serve fuel piper conn w)) =
      trace w ++ EvRead Down (Ok packet)
        :: EvFindUpstream (match FindUpstream piper d with
                           | Ok _ => None
                           | Err e => Some e
                           end)
        :: tr /\
    (forall e, FindUpstream piper d = Err e ->
               tr = [EvClose Down] /\
               fst (Serve fuel piper conn w) = Val (Some e)).
Proof.
  intros Hc Hh Hrx Hdec d.
  destruct (readPacket_next Down w _ _ Hrx) as (w1 & Hr & T1 & _).
  assert (Hn : nextAuthMsg w = (Val (Ok req), w1)).
  { destruct (nextAuthMsg_run w) as (r & w' & Hr' & _ & _ & Hn).
    rewrite Hr in Hr'. injection Hr' as <- <-. rewrite Hn, Hdec. reflexivity. }
  assert (Hd : newDownstream conn w =
               (Val (Ok {| cm_User := ""; cm_RemoteAddr := RemoteAddr conn;
                           cm_SessionID := getSessionID (downstream w) |}), w)).
  { unfold newDownstream, bind, handshake_of, sessionID_of, ret. simpl.
    rewrite Hh. reflexivity. }
  assert (EC : forall s, emits (fun _ _ => True) (Close s))
    by (intros s; unfold Close; emits_steps; exact I).
  unfold Serve. rewrite (bind_val _ _ _ _ _ _ _ Hd). cbv beta iota.
  match goal with
  | |- context [defer (Close Down) ?m w] =>
      assert (Hbody : exists tr,
                trace (snd (m w)) =
                  trace w ++ EvRead Down (Ok packet)
                    :: EvFindUpstream (match FindUpstream piper d with
                                       | Ok _ => None
                                       | Err e => Some e
                                       end) :: tr /\
                (forall e, FindUpstream piper d = Err e ->
                           tr = [] /\ m w = (Val (Some e), snd (m w))));
      [|destruct Hbody as (tr & T & He);
        destruct (FindUpstream piper d) as [upconn|e] eqn:Hf]
  end.
  - rewrite (bind_val _ _ _ _ _ _ _ Hn). cbv beta iota zeta.
    unfold additional_challenge. rewrite Hc, bind_ret.
    unfold set_user. cbn [cm_RemoteAddr cm_SessionID]. fold d.
    rewrite (bind_val _ _ _ _ _ _ _ (call_FindUpstream_run piper d w1)).
    destruct (FindUpstream piper d) as [upconn|e].
    + match goal with
      | |- context [trace (snd (bind ?m ?k ?w0))] =>
          destruct (extends_bind _ _ (fun _ _ => True) m k w0) as (t & ->)
      end.
      { intros [e|]; [apply emits_ret|].
        apply emits_defer; [|apply EC].
        unfold Serve_piped. cbv zeta.
        apply emits_bind; [any_events (emits_pipeAuth fuel piper
                 {| pc_downstream := d |} req)|].
        intros [e|]; [apply emits_ret|any_events (emits_loop fuel)]. }
      destruct (newUpstream_run upconn (RemoteAddr upconn)
                  (log (EvFindUpstream None) w1)) as [[e Hu]|Hu];
        rewrite Hu; cbn [snd]; rewrite ?trace_log, T1;
        eexists; (split; [rewrite <- !app_assoc; reflexivity|discriminate]).
    + exists []. cbn [snd ret]. rewrite trace_log, T1, <- app_assoc.
      split; [reflexivity|]. intros e' [= <-]. auto.
  - match goal with
    | |- context [trace (snd (defer ?fin ?m ?w0))] =>
        destruct (extends_defer _ (fun _ _ => True) fin m w0 (EC Down))
          as (t & ->)
    end.
    rewrite T. exists (tr ++ t). rewrite <- app_assoc.
    split; [reflexivity|discriminate].
  - destruct (He e eq_refl) as (-> & Hm).
    exists [EvClose Down]. rewrite (defer_val _ _ _ _ _ _ Hm).
    cbn [snd fst Close emit]. rewrite trace_log, T, <- app_assoc.
    split; [reflexivity|]. intros e' [= <-]. auto.
Qed.

(** X19.  Without an additional challenge, [FindUpstream] is called right
    after the first request was read, nothing having been written to the
    downstream; and what it is called with is the downstream with the user
    the first request names: the remote address of the connection [Serve]
    was given and the session identifier of the downstream transport. *)
Theorem upstream_is_found_for_the_first_user
  (fuel : nat) (piper : SSHPiper) (conn : netConn) (w : World)
  (packet : bytes) (rest : list (result bytes)) (req : userAuthRequestMsg) :
  AdditionalChallenge piper = None ->
  handshake (downstream w) = None ->
  rx (downstream w) = Ok packet :: rest ->
  decode packet = Ok req ->
  let d := {| cm_User := User req; cm_RemoteAddr := RemoteAddr conn;
              cm_SessionID := getSessionID (downstream w) |} in
  exists tr,
    trace (snd (Serve fuel piper conn w)) =
      trace w ++ EvRead Down (Ok packet)
        :: EvFindUpstream (match FindUpstream piper d with
                           | Ok _ => None
                           | Err e => Some e
                           end)
        :: tr /\
    (forall e, FindUpstream piper d = Err e ->
               tr = [EvClose Down] /\
               fst (Serve fuel piper conn w) = Val (Some e)).
Proof. exact (Serve_without_challenger fuel piper conn w packet rest req). Qed.

End Service.

Section Upstream_file.
Context {L : SSHLib} {sys : OS}.

Lemma findUpstreamFromUserfile_user (conn conn' : ConnMetadata) :
  cm_User conn = cm_User conn' ->
  findUpstreamFromUserfile conn = findUpstreamFromUserfile conn'.
Proof. unfold findUpstreamFromUserfile. intros ->. reflexivity. Qed.

(** X20.  [findUpstreamFromUserfile] gives a connection exactly when the
    file [sshpiper_upstream] of the user, in the working directory, has
    mode 0400 and can be read, and dialing over tcp what it contains, the
    white space around it trimmed, gives that connection.  The user is
    the one the first request of the session names: that is the file a
    piper which finds its upstream this way, and has no additional
    challenge, looks up right after it read the first request. *)
Theorem upstream_is_the_address_in_the_file
  (conn : ConnMetadata) (c : netConn) :
  (findUpstreamFromUserfile conn = Ok c <->
   check400 UserUpstreamFile (cm_User conn) = None /\
   exists addr,
     ioutil_ReadFile
       (WorkingDir ++ "/" ++ cm_User conn ++ "/" ++ "sshpiper_upstream") =
       Ok addr /\
     net_Dial "tcp" (strings_TrimSpace (string_of_list_byte addr)) = Ok c) /\
  forall fuel piper netconn w packet rest req,
    FindUpstream piper = findUpstreamFromUserfile ->
    AdditionalChallenge piper = None ->
    handshake (downstream w) = None ->
    rx (downstream w) = Ok packet :: rest ->
    decode packet = Ok req ->
    User req = cm_User conn ->
    exists tr,
      trace (snd (Serve fuel piper netconn w)) =
        trace w ++ EvRead Down (Ok packet)
          :: EvFindUpstream (match findUpstreamFromUserfile conn with
                             | Ok _ => None
                             | Err e => Some e
                             end)
          :: tr.
Proof.
  split.
  - unfold findUpstreamFromUserfile, read, userSpecFile, UserUpstreamFile at 2.
    split.
    + destruct (check400 UserUpstreamFile (cm_User conn)); [discriminate|].
      destruct (ioutil_ReadFile _) as [addr|]; [|discriminate].
      destruct (net_Dial "tcp" _) as [c'|] eqn:Hd; [|discriminate].
      intros [= <-]. eauto.
    + intros (-> & addr & -> & ->). reflexivity.
  - intros fuel piper netconn w packet rest req HF Hc Hh Hrx Hdec Hu.
    destruct (Serve_without_challenger fuel piper netconn w packet rest req
                Hc Hh Hrx Hdec) as (tr & T & _).
    exists tr. rewrite T, HF.
    rewrite (findUpstreamFromUserfile_user
               {| cm_User := User req; cm_RemoteAddr := RemoteAddr netconn;
                  cm_SessionID := getSessionID (downstream w) |} conn Hu).
    reflexivity.
Qed.

End Upstream_file.

(** ** The further properties at sample sessions *)

(** A password request goes through as it came. *)
Lemma other_methods_pass_unchanged_witness :
  processAuthMsg (Sample.piper None) Sample.pipe
    (Sample.request "password" []) (Sample.world [] []) =
  (Val (Some (Sample.request "password" []), None), Sample.world [] []).
Proof.
  refine (proj1 (other_methods_pass_unchanged (L:=Wire.lib)
                   (Sample.piper None) Sample.pipe
                   (Sample.request "password" []) (Sample.world [] []) _)).
  discriminate.
Defined.

(** [Sample.signed] carries a signature made for the session
    [Sample.sidDown]; replayed on another session it does not verify, and
    goes upstream as a request of method "none". *)
Lemma unverified_signature_is_sent_as_none_witness :
  fst (processAuthMsg (Sample.piper (Some Sample.signer)) Sample.pipe
         Sample.signed
         (with_sessionID Down (Sample.ascii_bytes "another-session")
            (Sample.world [] []))) =
  Val (Some (noneAuthMsg "alice"), None).
Proof.
  pose (sig := {| Format := "ssh-rsa";
                  Blob := Sample.downBlob ++
                          Wire.buildDataSignedForAuth Sample.sidDown
                            (Sample.request "publickey" [])
                            (Sample.ascii_bytes "ssh-rsa") Sample.downBlob |}).
  refine (f_equal fst (proj1
    (unverified_signature_is_sent_as_none (L:=Wire.lib)
       (Sample.piper (Some Sample.signer)) Sample.pipe Sample.signed
       Sample.downKey sig Sample.signer
       (with_sessionID Down (Sample.ascii_bytes "another-session")
          (Sample.world [] []))
       (IOError "ssh: signature did not verify") _ _ _ _)));
    vm_compute; reflexivity.
Defined.

(** The signed request of the samples has a signature. *)
Lemma signed_request_never_dereferences_nil_witness :
  exists s,
    Some {| Format := "ssh-rsa";
            Blob := Sample.downBlob ++
                    Wire.buildDataSignedForAuth Sample.sidDown
                      (Sample.request "publickey" [])
                      (Sample.ascii_bytes "ssh-rsa") Sample.downBlob |} =
    Some s.
Proof.
  refine (proj1
    (signed_request_never_dereferences_nil (L:=Wire.lib)
       (Sample.piper (Some Sample.signer)) Sample.pipe Sample.signed
       Sample.downKey _ (Sample.world [] []) _ _)).
  - vm_compute; reflexivity.
  - discriminate.
Defined.

(** The upstream accepts a request of method "none". *)
Lemma pipeAuth_returns_nil_on_upstream_success_witness :
  exists tr0 req rest,
    trace (snd (pipeAuth 1 (processAuthMsg (Sample.piper None) Sample.pipe)
                  (Sample.request "none" [])
                  (Sample.world [] [Sample.serviceAccept; Sample.success]))) =
      [] ++ tr0 ++
        [EvWrite Up (Wire.Marshal (MUserAuthRequest req)) None;
         EvRead Up (Ok (msgUserAuthSuccess :: rest));
         EvWrite Down (msgUserAuthSuccess :: rest) None].
Proof.
  refine (pipeAuth_returns_nil_on_upstream_success (L:=Wire.lib) 1
            (Sample.piper None) Sample.pipe (Sample.request "none" [])
            (Sample.world [] [Sample.serviceAccept; Sample.success]) _ _).
  vm_compute; reflexivity.
Defined.

(** Two packets, then the downstream hangs up. *)
Lemma piping_copies_in_order_witness :
  exists w',
    piping 3 Up Down
      (Sample.world [Ok [x5e; x01]; Ok [x5e; x02]; Err EOF] []) =
      (Val EOF, w') /\
    trace w' =
      [EvRead Down (Ok [x5e; x01]); EvWrite Up [x5e; x01] None;
       EvRead Down (Ok [x5e; x02]); EvWrite Up [x5e; x02] None;
       EvRead Down (Err EOF)] /\
    rx (downstream w') = [].
Proof.
  exact (piping_copies_in_order Up Down [[x5e; x01]; [x5e; x02]] EOF [] 3
           (Sample.world [Ok [x5e; x01]; Ok [x5e; x02]; Err EOF] [])
           eq_refl eq_refl (le_n 3)).
Defined.

(** A first request for the service ssh-userauth. *)
Lemma unknown_service_ends_the_session_witness :
  fst (Serve 1 (Sample.piper None) Sample.client
         (Sample.world
            [Sample.packet {| User := "alice"; Service := "ssh-userauth";
                              Method := "none"; Payload := [] |}] [])) =
  Val (Some (errors_New
               "ssh: client attempted to negotiate for unknown service: ssh-userauth")).
Proof.
  refine (proj1 (proj2
    (unknown_service_ends_the_session (L:=Wire.lib) 1 (Sample.piper None)
       Sample.client
       (Sample.world
          [Sample.packet {| User := "alice"; Service := "ssh-userauth";
                            Method := "none"; Payload := [] |}] [])
       _ [] {| User := "alice"; Service := "ssh-userauth";
               Method := "none"; Payload := [] |} _ _ _ _)));
    try (vm_compute; reflexivity).
  discriminate.
Defined.

(** A client that starts with a password request is put through the
    one-time password; its password request is what goes upstream. *)
Lemma first_request_is_the_one_passed_on_witness :
  exists pre e tr,
    trace (snd (Serve 3 Sample.challenged Sample.client
                  (Sample.world
                     [Sample.packet (Sample.request "password" [x00]);
                      Sample.packet (Sample.request "keyboard-interactive" []);
                      Sample.infoResponse "424242"]
                     [Sample.serviceAccept; Sample.success]))) =
    pre ++ EvWrite Up
             (Wire.Marshal (MUserAuthRequest (Sample.request "password" [x00])))
             e
        :: tr.
Proof.
  pose (w0 := Sample.world
                [Sample.packet (Sample.request "password" [x00]);
                 Sample.packet (Sample.request "keyboard-interactive" []);
                 Sample.infoResponse "424242"]
                [Sample.serviceAccept; Sample.success]).
  pose (w2 := snd (nextAuthMsg w0)).
  pose (w3 := snd (additional_challenge 3 Sample.challenged
                     (pc_downstream Sample.pipe) w2)).
  pose (w4 := snd (call_FindUpstream Sample.challenged
                     (pc_downstream Sample.pipe) w3)).
  pose (w5 := snd (sendAuthReq w4)).
  exists (trace w5).
  refine (proj2 (proj2
    (first_request_is_the_one_passed_on (L:=Wire.lib) 3 Sample.challenged
       Sample.client w0 (pc_downstream Sample.pipe)
       (Sample.request "password" [x00]) w5 _ _ _))).
  - exists {| cm_User := ""; cm_RemoteAddr := RemoteAddr Sample.client;
              cm_SessionID := Sample.sidDown |}, w0, w2, w3, Sample.backend,
           w4, w4.
    repeat split; vm_compute; reflexivity.
  - discriminate.
  - discriminate.
Defined.

(** A session that is refused by the upstream. *)
Lemma upstream_is_used_once_found_witness :
  exists tr,
    trace (snd (Serve 2 (Sample.piper None) Sample.client
                  (Sample.world [Sample.packet (Sample.request "none" [])]
                     [Sample.serviceAccept; Sample.failure]))) = [] ++ tr /\
    List.length (filter is_FindUpstream tr) <= 1 /\
    forall tr1 e tr2,
      tr = tr1 ++ e :: tr2 ->
      uses_upstream e = true ->
      In (EvFindUpstream None) tr1.
Proof.
  refine (upstream_is_used_once_found (L:=Wire.lib) 2 (Sample.piper None)
            Sample.client
            (Sample.world [Sample.packet (Sample.request "none" [])]
               [Sample.serviceAccept; Sample.failure])
            (Val (Some EOF)) _ _ _).
  - vm_compute; reflexivity.
  - discriminate.
Defined.

(** The upstream answers a request with a packet of no byte. *)
Lemma empty_reply_of_the_upstream_panics_witness :
  fst (Serve 1 (Sample.piper None) Sample.client
         (Sample.world [Sample.packet (Sample.request "none" [])]
            [Sample.serviceAccept; Ok []])) =
  Panic "index out of range".
Proof.
  pose (w0 := Sample.world [Sample.packet (Sample.request "none" [])]
                [Sample.serviceAccept; Ok []]).
  pose (w1 := snd (nextAuthMsg w0)).
  pose (w2 := snd (call_FindUpstream (Sample.piper None)
                     (pc_downstream Sample.pipe) w1)).
  pose (w3 := snd (sendAuthReq w2)).
  pose (w4 := snd (writePacket Up
                     (Wire.Marshal (MUserAuthRequest (Sample.request "none" [])))
                     w3)).
  pose (w5 := snd (readPacket Up w4)).
  refine (f_equal fst (proj2
    (empty_reply_of_the_upstream_panics (L:=Wire.lib) 1 (Sample.piper None)
       Sample.client w0 (pc_downstream Sample.pipe) (Sample.request "none" [])
       w3 0 (Sample.request "none" []) w3 (Sample.request "none" [])
       w3 w4 w5 _ _ _ _ _ _))).
  - exists {| cm_User := ""; cm_RemoteAddr := RemoteAddr Sample.client;
              cm_SessionID := Sample.sidDown |}, w0, w1, w1, Sample.backend,
           w2, w2.
    repeat split; vm_compute; reflexivity.
  - apply turns_here.
  - vm_compute; reflexivity.
  - vm_compute; reflexivity.
  - vm_compute; reflexivity.
  - apply Nat.lt_0_1.
Defined.

(** The key of the backend is not in the [authorized_keys] of [alice]. *)
Lemma unlisted_key_is_denied_witness :
  mapPublicKeyFromUserfile (sys := Disk.os (Sample.disk 256)) 2
    (pc_downstream Sample.pipe) Sample.upKey =
  Val (None, None).
Proof.
  refine (proj1
    (unlisted_key_is_denied (L:=Wire.lib) (sys := Disk.os (Sample.disk 256))
       2 (pc_downstream Sample.pipe) Sample.upKey
       (Sample.downBlob ++ [x0a]) 1 [] _ _ _ _) eq_refl).
  - vm_compute; reflexivity.
  - vm_compute; reflexivity.
  - eapply scanned_next with (authedPubkey := Sample.downKey) (rest1 := []).
    + discriminate.
    + vm_compute; reflexivity.
    + discriminate.
    + apply scanned_none.
  - apply Nat.lt_succ_diag_r.
Defined.

(** Without a challenger the upstream is looked up at once. *)
Lemma upstream_is_found_for_the_first_user_witness :
  exists tr,
    trace (snd (Serve 1 (Sample.piper None) Sample.client
                  (Sample.world [Sample.packet Sample.query] []))) =
    [] ++ EvRead Down (Sample.packet Sample.query) :: EvFindUpstream None :: tr.
Proof.
  destruct (upstream_is_found_for_the_first_user (L:=Wire.lib) 1
              (Sample.piper None) Sample.client
              (Sample.world [Sample.packet Sample.query] [])
              (Wire.Marshal (MUserAuthRequest Sample.query)) [] Sample.query
              eq_refl eq_refl eq_refl ltac:(vm_compute; reflexivity))
    as (tr & T & _).
  exists tr. exact T.
Defined.

Lemma Disk_line_rest (b : bytes) :
  List.length (snd (Disk.line b)) <= List.length b /\
  (b <> [] -> List.length (snd (Disk.line b)) < List.length b).
Proof.
  induction b as [|c b IH]; simpl; [split; [lia|contradiction]|].
  destruct (Byte.eqb c x0a); simpl; [split; intros; lia|].
  destruct (Disk.line b) as [l rest]. simpl in *.
  destruct IH as [IH _]. split; intros; lia.
Qed.

Lemma Disk_ParseAuthorizedKey_consumes input authedPubkey rest :
  Disk.ParseAuthorizedKey input = Ok (authedPubkey, rest) ->
  List.length rest < List.length input.
Proof.
  unfold Disk.ParseAuthorizedKey.
  destruct (Disk_line_rest input) as [_ H].
  destruct input as [|c input]; [discriminate|].
  destruct (Disk.line (c :: input)) as [l rest'].
  destruct (Wire.ParsePublicKey l); [|discriminate].
  intros [= _ <-]. apply H. discriminate.
Qed.

(** The files of [alice] are shorter than 64 bytes: her keys are mapped
    within 64 rounds. *)
Lemma key_scan_ends_witness :
  exists r,
    mapPublicKeyFromUserfile (sys := Disk.os (Sample.disk 256)) 64
      (pc_downstream Sample.pipe) Sample.downKey = Val r.
Proof.
  refine (proj1 (proj2
    (key_scan_ends (L:=Wire.lib) (sys := Disk.os (Sample.disk 256)) 64 _ _))
    (pc_downstream Sample.pipe) Sample.downKey).
  - exact Disk_ParseAuthorizedKey_consumes.
  - intros path content. cbn. unfold Disk.ReadFile, Sample.disk, Disk.lookup.
    repeat match goal with
           | |- context [String.eqb ?a path] => destruct (String.eqb a path)
           end;
      intros [= <-]; apply Nat.leb_le; vm_compute; reflexivity.
Defined.
